(** * Family tree explorer: a shallow embedding of [Main Project.py]

    The Python program keeps [PersonBase] objects that point at each other
    through mutable lists ([_parents], [_children]) and an optional
    [_spouse] reference, plus one [FamilyTree] whose [members] dictionary
    maps names to persons.  Objects and lists are modelled as entries of a
    store indexed by references, so that two attributes holding the same
    Python list really share it.  Methods are computations in a state
    monad over that store. *)

From Stdlib Require Import ZArith Ascii String.
From Stdlib Require Import PrimFloat.
From Stdlib Require Uint63.
From stdpp Require Import gmap strings list fin_maps sorting pretty.

Local Open Scope Z_scope.

(** ** [datetime.date], as far as the program uses it *)

Module datetime.

Record date := Date { year : Z; month : Z; day : Z }.

#[global] Instance date_eq_dec : EqDecision date.
Proof. solve_decision. Defined.

(** [year -> 1 if leap year, else 0] *)
Definition is_leap (y : Z) : bool :=
  (y mod 4 =? 0) && (negb (y mod 100 =? 0) || (y mod 400 =? 0)).

(** number of days before January 1st of [y] *)
Definition days_before_year (y : Z) : Z :=
  let y := y - 1 in y * 365 + y / 4 - y / 100 + y / 400.

(** [_DAYS_BEFORE_MONTH]; index 0 is a placeholder *)
Definition DAYS_BEFORE_MONTH : list Z :=
  [-1; 0; 31; 59; 90; 120; 151; 181; 212; 243; 273; 304; 334].

(** number of days in [y] preceding the first day of month [m] *)
Definition days_before_month (y m : Z) : Z :=
  nth (Z.to_nat m) DAYS_BEFORE_MONTH 0
  + (if (2 <? m) && is_leap y then 1 else 0).

(** proleptic Gregorian ordinal, January 1st of year 1 being day 1 *)
Definition toordinal (d : date) : Z :=
  days_before_year (year d) + days_before_month (year d) (month d) + day d.

(** [(d1 - d2).days] *)
Definition sub_days (d1 d2 : date) : Z := toordinal d1 - toordinal d2.

(** [str.zfill]: left padding with zeros up to width [w], for the
    [%04d] and [%02d] fields of [isoformat] *)
Definition zfill (w : nat) (s : string) : string :=
  String.string_of_list_ascii (replicate (w - String.length s)%nat "0"%char) +:+ s.

(** [str(d)], which is [d.isoformat()]: [YYYY-MM-DD] *)
Definition isoformat (d : date) : string :=
  zfill 4 (pretty (year d)) +:+ "-" +:+ zfill 2 (pretty (month d))
  +:+ "-" +:+ zfill 2 (pretty (day d)).

(** A [date] object defines neither [__bool__] nor [__len__]: it is
    always true in a condition. *)
Definition truthy (d : date) : bool := true.

End datetime.
Export datetime.

(** ** Insertion-ordered dictionaries

    A Python [dict] iterates in insertion order and assigning to a key
    that is present keeps the key's position.  Both matter to the
    statistics functions, so a dictionary is the list of its items. *)

Module pydict.
Section pydict.
Context {K V : Type} `{EqDecision K}.

(** [d.get(k, None)] *)
Fixpoint get (d : list (K * V)) (k : K) : option V :=
  match d with
  | [] => None
  | (k', v) :: d' => if decide (k' = k) then Some v else get d' k
  end.

(** [d[k] = v] *)
Fixpoint setitem (k : K) (v : V) (d : list (K * V)) : list (K * V) :=
  match d with
  | [] => [(k, v)]
  | (k', v') :: d' =>
      if decide (k' = k) then (k', v) :: d' else (k', v') :: setitem k v d'
  end.

(** [dict(items)], and a dictionary display [{k1: v1, ...}] *)
Definition of_items (items : list (K * V)) : list (K * V) :=
  foldl (λ d kv, setitem kv.1 kv.2 d) [] items.

Definition keys (d : list (K * V)) : list K := d.*1.
Definition values (d : list (K * V)) : list V := d.*2.

End pydict.

(** [dd[k].append(x)] on a [defaultdict(list)]: a missing key is first
    bound to a new empty list, at the end of the dictionary. *)
Fixpoint dd_append {K X : Type} `{EqDecision K}
    (k : K) (x : X) (d : list (K * list X)) : list (K * list X) :=
  match d with
  | [] => [(k, [x])]
  | (k', xs) :: d' =>
      if decide (k' = k) then (k', xs ++ [x]) :: d'
      else (k', xs) :: dd_append k x d'
  end.

End pydict.

(** ** Objects and the store *)

(** References to person objects and to list objects. *)
Abbreviation pid := positive (only parsing).
Abbreviation lid := positive (only parsing).

(** The class of an instance; [DeceasedPerson] carries its extra
    attribute [_death_date]. *)
Inductive klass :=
  | PersonBase
  | LivingPerson
  | DeceasedPerson (_death_date : date).

#[global] Instance klass_eq_dec : EqDecision klass.
Proof. solve_decision. Defined.

(** The attributes set by [PersonBase.__init__].  [_parents] and
    [_children] hold references to list objects. *)
Record Person := mkPerson {
  class_ : klass;
  _name : string;
  _birth_date : date;
  _parents : lid;
  _children : lid;
  _spouse : option pid
}.

#[global] Instance Person_eq_dec : EqDecision Person.
Proof. solve_decision. Defined.

(** [FamilyTree]: its only attribute is the dictionary [members]. *)
Record FamilyTree := mkFamilyTree { members : list (string * pid) }.

#[global] Instance FamilyTree_eq_dec : EqDecision FamilyTree.
Proof. solve_decision. Defined.

(** The store: person objects, list objects, and the global
    [family_tree]. *)
Record state := mkState {
  objs : gmap positive Person;
  lsts : gmap positive (list positive);
  family_tree : FamilyTree
}.

#[global] Instance state_eq_dec : EqDecision state.
Proof. solve_decision. Defined.

(** ** The monad: state, with [None] for a run that cannot go on

    [None] stands for following a reference that is not in the store
    (which no Python state does) or for a loop that used up its fuel. *)

Definition M (A : Type) : Type := state → option (A * state).

Definition ret {A} (a : A) : M A := λ σ, Some (a, σ).

Definition bind {A B} (m : M A) (k : A → M B) : M B :=
  λ σ, match m σ with
       | Some (a, σ') => k a σ'
       | None => None
       end.

Notation "x <- m ;; k" := (bind m (λ x, k))
  (at level 100, m at next level, right associativity).
Notation "m ;;; k" := (bind m (λ _, k))
  (at level 100, right associativity).

(** Reading an object / a list through its reference. *)
Definition get_obj (p : pid) : M Person :=
  λ σ, match objs σ !! p with Some o => Some (o, σ) | None => None end.

Definition get_list (l : lid) : M (list pid) :=
  λ σ, match lsts σ !! l with Some xs => Some (xs, σ) | None => None end.

(** Rebinding one attribute of an object. *)
Definition set_obj (p : pid) (f : Person → Person) : M unit :=
  λ σ, match objs σ !! p with
       | Some o => Some (tt, mkState (<[p := f o]> (objs σ)) (lsts σ)
                                     (family_tree σ))
       | None => None
       end.

Definition with_parents (l : lid) (o : Person) : Person :=
  mkPerson (class_ o) (_name o) (_birth_date o) l (_children o) (_spouse o).

Definition with_children (l : lid) (o : Person) : Person :=
  mkPerson (class_ o) (_name o) (_birth_date o) (_parents o) l (_spouse o).

Definition with_spouse (s : option pid) (o : Person) : Person :=
  mkPerson (class_ o) (_name o) (_birth_date o) (_parents o) (_children o) s.

(** [l.append(x)] *)
Definition list_append (l : lid) (x : pid) : M unit :=
  λ σ, match lsts σ !! l with
       | Some xs => Some (tt, mkState (objs σ) (<[l := xs ++ [x]]> (lsts σ))
                                      (family_tree σ))
       | None => None
       end.

(** A list display [[x1, ..., xn]]: a new list object. *)
Definition new_list (xs : list pid) : M lid :=
  λ σ, let l := fresh (dom (lsts σ)) in
       Some (l, mkState (objs σ) (<[l := xs]> (lsts σ)) (family_tree σ)).

(** [for x in xs: acc = body(acc, x)] over a list that the body does not
    write to: the local variables the body updates are the accumulator. *)
Fixpoint foldM {A B} (body : B → A → M B) (acc : B) (xs : list A) : M B :=
  match xs with
  | [] => ret acc
  | x :: xs' => acc' <- body acc x ;; foldM body acc' xs'
  end.

(** [for x in l: body(x)] over the list object [l] itself, as the list
    iterator does it: position [i] is read from the list as it is when
    the iterator reaches it, so elements appended by the body are
    visited too. *)
Fixpoint for_in (fuel : nat) (l : lid) (i : nat) (body : pid → M unit)
    : M unit :=
  match fuel with
  | O => λ _, None
  | S fuel' =>
      xs <- get_list l ;;
      match xs !! i with
      | None => ret tt
      | Some x => body x ;;; for_in fuel' l (S i) body
      end
  end.

(** Reading the attribute [members] of the global [family_tree], and
    assigning to it. *)
Definition get_members : M (list (string * pid)) :=
  λ σ, Some (members (family_tree σ), σ).

Definition set_members (d : list (string * pid)) : M unit :=
  λ σ, Some (tt, mkState (objs σ) (lsts σ) (mkFamilyTree d)).

(** ** class [PersonBase] and its two subclasses *)

(** [__init__]: [_parents] and [_children] are two new empty lists,
    [_spouse] is [None].  [LivingPerson(n, b)] is [new_person LivingPerson
    n b] and [DeceasedPerson(n, b, d)] is [new_person (DeceasedPerson d)
    n b]. *)
Definition new_person (c : klass) (name : string) (birth_date : date)
    : M pid :=
  ps <- new_list [] ;;
  cs <- new_list [] ;;
  λ σ, let p := fresh (dom (objs σ)) in
       Some (p, mkState (<[p := mkPerson c name birth_date ps cs None]>
                           (objs σ)) (lsts σ) (family_tree σ)).

(** The read-only properties. *)
Definition name (self : pid) : M string :=
  o <- get_obj self ;; ret (_name o).

Definition birth_date (self : pid) : M date :=
  o <- get_obj self ;; ret (_birth_date o).

Definition parents (self : pid) : M lid :=
  o <- get_obj self ;; ret (_parents o).

Definition children (self : pid) : M lid :=
  o <- get_obj self ;; ret (_children o).

Definition spouse (self : pid) : M (option pid) :=
  o <- get_obj self ;; ret (_spouse o).

(** [str(person)] *)
Definition __str__ (self : pid) : M string := name self.

(** The setter of the property [spouse]: [self.spouse = spouse]. *)
Definition spouse_setter (self spouse : pid) : M unit :=
  set_obj self (with_spouse (Some spouse)) ;;;
  set_obj spouse (with_spouse (Some self)).

Definition set_parents (fuel : nat) (self : pid) (parents : lid) : M unit :=
  set_obj self (with_parents parents) ;;;
  for_in fuel parents 0
    (λ parent, o <- get_obj parent ;; list_append (_children o) self).

Definition set_children (fuel : nat) (self : pid) (children : lid)
    : M unit :=
  set_obj self (with_children children) ;;;
  for_in fuel children 0
    (λ child, o <- get_obj child ;; list_append (_parents o) self).

Inductive exn := NotImplementedError (msg : string).

(** [display_details], dispatched on the class of [self]; the f-strings
    format the dates with [str]. *)
Definition display_details (self : pid) : M (exn + string) :=
  o <- get_obj self ;;
  match class_ o with
  | PersonBase =>
      ret (inl (NotImplementedError
                  "This method should be implemented in subclasses"))
  | LivingPerson =>
      ret (inr ("Name: " +:+ _name o +:+ ", Birth Date: "
                +:+ isoformat (_birth_date o) +:+ " (Alive)"))
  | DeceasedPerson death_date =>
      ret (inr ("Name: " +:+ _name o +:+ ", Birth Date: "
                +:+ isoformat (_birth_date o) +:+ ", Death Date: "
                +:+ isoformat death_date))
  end.

Definition isinstance_LivingPerson (o : Person) : bool :=
  match class_ o with LivingPerson => true | _ => false end.

Definition isinstance_DeceasedPerson (o : Person) : bool :=
  match class_ o with DeceasedPerson _ => true | _ => false end.

(** ** class [FamilyTree] *)

Definition get_person (name : string) : M (option pid) :=
  d <- get_members ;; ret (pydict.get d name).

(** [if person:] holds for every person object (the class defines
    neither [__bool__] nor [__len__]) and fails for [None]. *)
Definition get_member_details (name : string) : M (exn + string) :=
  person <- get_person name ;;
  match person with
  | Some p => display_details p
  | None => ret (inr "Person not found.")
  end.

(** Returns the list object [person._parents] itself. *)
Definition find_parents (person : pid) : M lid := parents person.

Definition find_grandparents (person : pid) : M (list pid) :=
  ps <- parents person ;;
  xs <- get_list ps ;;
  foldM (λ grandparents parent,
           pp <- parents parent ;;
           ys <- get_list pp ;;
           ret (grandparents ++ ys)) [] xs.

(** Persons are hashed and compared by identity, so the Python set is a
    set of references.  [list(siblings)] enumerates it in an order that
    Python leaves open; [elements] fixes one. *)
Definition find_siblings (person : pid) : M (list pid) :=
  ps <- parents person ;;
  xs <- get_list ps ;;
  siblings <- foldM (λ (siblings : gset pid) parent,
                       cs <- children parent ;;
                       ys <- get_list cs ;;
                       ret (siblings ∪ list_to_set ys)) ∅ xs ;;
  ret (elements (siblings ∖ {[person]})).

Definition find_cousins (person : pid) : M (list pid) :=
  ps <- parents person ;;
  xs <- get_list ps ;;
  foldM (λ cousins parent,
           sibs <- find_siblings parent ;;
           foldM (λ cousins sibling,
                    cs <- children sibling ;;
                    ys <- get_list cs ;;
                    ret (cousins ++ ys)) cousins sibs) [] xs.

Definition find_immediate_family (person : pid) : M (list pid) :=
  let immediate_family : gset pid := ∅ in
  ps <- parents person ;;
  xs <- get_list ps ;;
  let immediate_family := immediate_family ∪ list_to_set xs in
  sibs <- find_siblings person ;;
  let immediate_family := immediate_family ∪ list_to_set sibs in
  sp <- spouse person ;;
  immediate_family <-
    match sp with
    | Some _ => sp' <- spouse person ;;
                ret (immediate_family ∪ from_option singleton ∅ sp')
    | None => ret immediate_family
    end ;;
  cs <- children person ;;
  ys <- get_list cs ;;
  ret (elements (immediate_family ∪ list_to_set ys)).

Definition find_extended_family (person : pid) : M (list pid) :=
  let extended_family : gset pid := ∅ in
  imm <- find_immediate_family person ;;
  let extended_family := extended_family ∪ list_to_set imm in
  ps <- parents person ;;
  xs <- get_list ps ;;
  extended_family <-
    foldM (λ extended_family parent,
             sibs <- find_siblings parent ;;
             foldM (λ (extended_family : gset pid) sibling,
                      let extended_family := extended_family ∪ {[sibling]} in
                      cs <- children sibling ;;
                      ys <- get_list cs ;;
                      ret (extended_family ∪ list_to_set ys))
                   extended_family sibs) extended_family xs ;;
  foldM (λ out member,
           o <- get_obj member ;;
           ret (if isinstance_LivingPerson o then out ++ [member] else out))
        [] (elements extended_family).

(** Order on the keys [(month, day)]: Python's order on tuples. *)
Definition key_le (a b : Z * Z) : Prop :=
  a.1 < b.1 ∨ (a.1 = b.1 ∧ a.2 ≤ b.2).

Definition key_lt (a b : Z * Z) : Prop :=
  a.1 < b.1 ∨ (a.1 = b.1 ∧ a.2 < b.2).

#[global] Instance key_le_dec a b : Decision (key_le a b).
Proof. unfold key_le. apply _. Defined.

#[global] Instance key_lt_dec a b : Decision (key_lt a b).
Proof. unfold key_lt. apply _. Defined.

(** [sorted(d.items())].  Items are compared as tuples, first component
    first; the keys of a dictionary are pairwise different, so the
    comparison never reaches the second component. *)
Definition item_le {V} (x y : (Z * Z) * V) : Prop := key_le x.1 y.1.

#[global] Instance item_le_dec {V} (x y : (Z * Z) * V) : Decision (item_le x y).
Proof. unfold item_le. apply _. Defined.

Definition sorted_items {V} (items : list ((Z * Z) * V))
    : list ((Z * Z) * V) :=
  merge_sort item_le items.

Definition get_birthdays_calendar : M (list ((Z * Z) * list string)) :=
  d <- get_members ;;
  birthday_calendar <-
    foldM (λ birthday_calendar person,
             b <- birth_date person ;;
             if truthy b then
               m <- birth_date person ;;
               dd <- birth_date person ;;
               n <- name person ;;
               ret (pydict.dd_append (month m, day dd) n birthday_calendar)
             else ret birthday_calendar) [] (pydict.values d) ;;
  ret (pydict.of_items (sorted_items birthday_calendar)).

(** ** Numbers

    [total_age / count] and [total_children / num_people] are true
    divisions of two [int]s: Python returns a [float], the double
    nearest to the quotient.  The floats and this division are a
    parameter of the development; nothing is assumed about them.  Each
    of the two averages is such a float, or the [int] [0] of the [else]
    branch. *)
Class Arith := {
  float : Type;
  truediv : Z → Z → float
}.

Inductive number `{Arith} :=
  | Int (z : Z)
  | Float (x : float).

Definition calculate_average_age `{Arith} : M number :=
  d <- get_members ;;
  r <- foldM (λ (r : Z * Z) person,
                let '(total_age, count) := r in
                o <- get_obj person ;;
                match class_ o with
                | DeceasedPerson death_date =>
                    b <- birth_date person ;;
                    let age_at_death := sub_days death_date b / 365 in
                    ret (total_age + age_at_death, count + 1)
                | _ => ret (total_age, count)
                end) (0, 0) (pydict.values d) ;;
  let '(total_age, count) := r in
  ret (if 0 <? count then Float (truediv total_age count) else Int 0).

(** [children_data[person.name] = children_count] is an assignment to a
    dictionary key; the average is again a true division. *)
Definition calculate_children_statistics `{Arith}
    : M (list (string * Z) * number) :=
  let total_children := 0 in
  d <- get_members ;;
  let num_people := Z.of_nat (length d) in
  let children_data : list (string * Z) := [] in
  r <- foldM (λ (r : list (string * Z) * Z) person,
                let '(children_data, total_children) := r in
                cs <- children person ;;
                ys <- get_list cs ;;
                let children_count := Z.of_nat (length ys) in
                n <- name person ;;
                ret (pydict.setitem n children_count children_data,
                     total_children + children_count))
             (children_data, total_children) (pydict.values d) ;;
  let '(children_data, total_children) := r in
  let average_children :=
    if 0 <? num_people
    then Float (truediv total_children num_people) else Int 0 in
  ret (children_data, average_children).

(** ** The seed data set, as the module builds it at import time *)

Definition seed : M unit :=
  set_members [] ;;;
  cornelia <- new_person LivingPerson "Cornelia Emmersohn" (Date 1968 5 20) ;;
  otto <- new_person (DeceasedPerson (Date 2020 4 10)) "Otto Emmersohn"
            (Date 1965 8 15) ;;
  anna <- new_person (DeceasedPerson (Date 2015 3 20)) "Anna Singh"
            (Date 1945 4 10) ;;
  raj <- new_person (DeceasedPerson (Date 2010 11 5)) "Raj Singh"
           (Date 1942 6 5) ;;
  maria <- new_person (DeceasedPerson (Date 2005 9 15)) "Maria MÃ¼ller"
             (Date 1943 6 5) ;;
  hans <- new_person (DeceasedPerson (Date 2012 7 10)) "Hans Emmersohn"
            (Date 1940 3 22) ;;
  child1 <- new_person LivingPerson "Lucas Emmersohn" (Date 1992 11 12) ;;
  child2 <- new_person LivingPerson "Emma Emmersohn" (Date 1995 2 28) ;;
  l1 <- new_list [anna; raj] ;;
  set_parents 8 cornelia l1 ;;;
  l2 <- new_list [maria; hans] ;;
  set_parents 8 otto l2 ;;;
  l3 <- new_list [child1; child2] ;;
  set_children 8 cornelia l3 ;;;
  l4 <- new_list [child1; child2] ;;
  set_children 8 otto l4 ;;;
  spouse_setter cornelia otto ;;;
  n1 <- name cornelia ;; n2 <- name otto ;; n3 <- name anna ;;
  n4 <- name raj ;; n5 <- name maria ;; n6 <- name hans ;;
  n7 <- name child1 ;; n8 <- name child2 ;;
  set_members (pydict.of_items
    [(n1, cornelia); (n2, otto); (n3, anna); (n4, raj); (n5, maria);
     (n6, hans); (n7, child1); (n8, child2)]).

Definition empty_state : state := mkState ∅ ∅ (mkFamilyTree []).

Definition seed_state : state :=
  match seed empty_state with Some (_, σ) => σ | None => empty_state end.

(** ** The console: [display_menu], [handle_choice] and [main]

    The program reads lines with [input] and writes with [print].  The
    world is the store together with the lines still to be read and the
    pieces of text written so far; [input] raises [EOFError] when no line
    is left. *)

Record world := mkWorld {
  store : state;
  stdin : list string;
  stdout : list string
}.

Inductive raised := Error (e : exn) | EOFError.

Inductive outcome (A : Type) :=
  | Returns (a : A)
  | Raises (e : raised).
Arguments Returns {A} a.
Arguments Raises {A} e.

Definition IO (A : Type) : Type := world → option (outcome A * world).

Definition ioret {A} (a : A) : IO A := λ w, Some (Returns a, w).

Definition iobind {A B} (m : IO A) (k : A → IO B) : IO B :=
  λ w, match m w with
       | Some (Returns a, w') => k a w'
       | Some (Raises e, w') => Some (Raises e, w')
       | None => None
       end.

Notation "x <~ m ;; k" := (iobind m (λ x, k))
  (at level 100, m at next level, right associativity).
Notation "m ;;~ k" := (iobind m (λ _, k))
  (at level 100, right associativity).

(** A method call on the store. *)
Definition lift {A} (m : M A) : IO A :=
  λ w, match m (store w) with
       | Some (a, σ) => Some (Returns a, mkWorld σ (stdin w) (stdout w))
       | None => None
       end.

(** A method call that may raise. *)
Definition lift_exn {A} (m : M (exn + A)) : IO A :=
  λ w, match m (store w) with
       | Some (inr a, σ) => Some (Returns a, mkWorld σ (stdin w) (stdout w))
       | Some (inl e, σ) =>
           Some (Raises (Error e), mkWorld σ (stdin w) (stdout w))
       | None => None
       end.

Definition nl : string := String "010"%char EmptyString.

(** [print(s)] writes [s] and a newline. *)
Definition print (s : string) : IO unit :=
  λ w, Some (Returns tt, mkWorld (store w) (stdin w) (stdout w ++ [s +:+ nl])).

(** [input(prompt)] writes the prompt and returns the next line. *)
Definition input (prompt : string) : IO string :=
  λ w, match stdin w with
       | line :: rest =>
           Some (Returns line, mkWorld (store w) rest (stdout w ++ [prompt]))
       | [] =>
           Some (Raises EOFError,
                 mkWorld (store w) [] (stdout w ++ [prompt]))
       end.

(** [for x in xs: body(x)] over a list that is not written to. *)
Fixpoint for_each {A} (xs : list A) (body : A → IO unit) : IO unit :=
  match xs with
  | [] => ioret tt
  | x :: xs' => body x ;;~ for_each xs' body
  end.

(** [[str(x) for x in xs]] *)
Definition strs (xs : list pid) : M (list string) :=
  foldM (λ out x, s <- __str__ x ;; ret (out ++ [s])) [] xs.

Definition display_menu : IO unit :=
  print (nl +:+ "--- Family Tree Menu ---") ;;~
  print "1. View Member Details" ;;~
  print "2. View Parents" ;;~
  print "3. View Grandparents" ;;~
  print "4. View Immediate Family" ;;~
  print "5. View Extended Family" ;;~
  print "6. View Siblings" ;;~
  print "7. View Cousins" ;;~
  print "8. View Birthday Calendar" ;;~
  print "9. View Average Age at Death" ;;~
  print "10. View Number of Children and Average Children per Person" ;;~
  print "11. Exit".

Section console.
Context `{Arith}.

(** Two formats of Python are taken as given: [repr] of a string, with
    which a list of strings is shown inside an f-string, and the format
    [.2f] of a number, be it a [float] or an [int]. *)
Variable repr_str : string → string.
Variable format_2f : number → string.

(** [str] of a list of strings, as an f-string field shows it. *)
Definition list_str (xs : list string) : string :=
  "[" +:+ String.concat ", " (repr_str <$> xs) +:+ "]".

(** The patterns of the [match] statement are string literals, compared
    with [==], in the order of the cases. *)
Definition handle_choice (choice : string) : IO bool :=
  if decide (choice = "1") then
    name <~ input "Enter the name of the person: " ;;
    details <~ lift_exn (get_member_details name) ;;
    print details ;;~
    ioret true
  else if decide (choice = "2") then
    name <~ input "Enter the name of the person: " ;;
    person <~ lift (get_person name) ;;
    match person with
    | Some person =>
        parents <~ lift (find_parents person) ;;
        ps <~ lift (get_list parents) ;;
        ss <~ lift (strs ps) ;;
        print ("Parents of " +:+ name +:+ ": " +:+ list_str ss)
    | None => print "Person not found."
    end ;;~
    ioret true
  else if decide (choice = "3") then
    name <~ input "Enter the name of the person: " ;;
    person <~ lift (get_person name) ;;
    match person with
    | Some person =>
        grandparents <~ lift (find_grandparents person) ;;
        ss <~ lift (strs grandparents) ;;
        print ("Grandparents of " +:+ name +:+ ": " +:+ list_str ss)
    | None => print "Person not found."
    end ;;~
    ioret true
  else if decide (choice = "4") then
    name <~ input "Enter the name of the person: " ;;
    person <~ lift (get_person name) ;;
    match person with
    | Some person =>
        immediate_family <~ lift (find_immediate_family person) ;;
        ss <~ lift (strs immediate_family) ;;
        print ("Immediate Family of " +:+ name +:+ ": " +:+ list_str ss)
    | None => print "Person not found."
    end ;;~
    ioret true
  else if decide (choice = "5") then
    name <~ input "Enter the name of the person: " ;;
    person <~ lift (get_person name) ;;
    match person with
    | Some person =>
        extended_family <~ lift (find_extended_family person) ;;
        ss <~ lift (strs extended_family) ;;
        print ("Extended Family of " +:+ name +:+ ": " +:+ list_str ss)
    | None => print "Person not found."
    end ;;~
    ioret true
  else if decide (choice = "6") then
    name <~ input "Enter the name of the person: " ;;
    person <~ lift (get_person name) ;;
    match person with
    | Some person =>
        siblings <~ lift (find_siblings person) ;;
        ss <~ lift (strs siblings) ;;
        print ("Siblings of " +:+ name +:+ ": " +:+ list_str ss)
    | None => print "Person not found."
    end ;;~
    ioret true
  else if decide (choice = "7") then
    name <~ input "Enter the name of the person: " ;;
    person <~ lift (get_person name) ;;
    match person with
    | Some person =>
        cousins <~ lift (find_cousins person) ;;
        ss <~ lift (strs cousins) ;;
        print ("Cousins of " +:+ name +:+ ": " +:+ list_str ss)
    | None => print "Person not found."
    end ;;~
    ioret true
  else if decide (choice = "8") then
    print "Family Birthday Calendar:" ;;~
    birthday_calendar <~ lift get_birthdays_calendar ;;
    for_each birthday_calendar
      (λ '(date, names),
         print (zfill 2 (pretty date.2) +:+ "/" +:+ zfill 2 (pretty date.1)
                +:+ ": " +:+ String.concat ", " names)) ;;~
    ioret true
  else if decide (choice = "9") then
    avg_age <~ lift calculate_average_age ;;
    print ("The average age at death is: " +:+ format_2f avg_age
           +:+ " years") ;;~
    ioret true
  else if decide (choice = "10") then
    r <~ lift calculate_children_statistics ;;
    let '(children_data, avg_children) := r in
    print "Number of children per individual:" ;;~
    for_each children_data
      (λ '(name, count), print (name +:+ ": " +:+ pretty count)) ;;~
    print ("The average number of children per person is: "
           +:+ format_2f avg_children) ;;~
    ioret true
  else if decide (choice = "11") then
    print "Exiting the program. Goodbye!" ;;~
    ioret false
  else
    print "Invalid choice. Please try again." ;;~
    ioret true.

(** [while True: ...]; the fuel bounds the number of rounds. *)
Fixpoint main (fuel : nat) : IO unit :=
  match fuel with
  | O => λ _, None
  | S fuel' =>
      display_menu ;;~
      choice <~ input "Enter your choice: " ;;
      continue <~ handle_choice choice ;;
      if continue then main fuel' else ioret tt
  end.

End console.

(** ** Reading the graph off a store *)

(** The contents of the list objects behind [p.parents] and
    [p.children], and the value of [p.spouse]. *)
Definition parents_of (σ : state) (p : pid) : list pid :=
  default [] (o ← objs σ !! p; lsts σ !! _parents o).

Definition children_of (σ : state) (p : pid) : list pid :=
  default [] (o ← objs σ !! p; lsts σ !! _children o).

Definition spouse_of (σ : state) (p : pid) : option pid :=
  objs σ !! p ≫= _spouse.

Definition allocated (σ : state) (p : pid) : Prop := is_Some (objs σ !! p).

Definition is_living (σ : state) (p : pid) : Prop :=
  class_ <$> objs σ !! p = Some LivingPerson.

Definition is_deceased (σ : state) (p : pid) : Prop :=
  isinstance_DeceasedPerson <$> objs σ !! p = Some true.

(** A store is closed when every reference it holds points into it, as
    in every state of a Python program. *)
Definition closed_obj (σ : state) (o : Person) : Prop :=
  is_Some (lsts σ !! _parents o) ∧ is_Some (lsts σ !! _children o) ∧
  match _spouse o with Some s => allocated σ s | None => True end.

Definition wf (σ : state) : Prop :=
  map_Forall (λ _ o, closed_obj σ o) (objs σ) ∧
  map_Forall (λ _ xs, Forall (allocated σ) xs) (lsts σ) ∧
  Forall (λ kv, allocated σ kv.2) (members (family_tree σ)).

#[global] Instance allocated_dec σ p : Decision (allocated σ p).
Proof. unfold allocated. apply _. Defined.

#[global] Instance is_living_dec σ p : Decision (is_living σ p).
Proof. unfold is_living. apply _. Defined.

#[global] Instance is_deceased_dec σ p : Decision (is_deceased σ p).
Proof. unfold is_deceased. apply _. Defined.

#[global] Instance closed_obj_dec σ o : Decision (closed_obj σ o).
Proof. unfold closed_obj. destruct (_spouse o); apply _. Defined.

#[global] Instance wf_dec σ : Decision (wf σ).
Proof. unfold wf. apply _. Defined.

(** The result of a computation that returns a list, for use in
    statements about other computations. *)
Definition result_of {A} (m : M (list A)) (σ : state) : list A :=
  match m σ with Some (l, _) => l | None => [] end.

(** ** Definitions used in the statements and proofs *)

(** The set that [find_siblings] has built when it returns. *)
Definition siblings_set (σ : state) (p : pid) : gset pid :=
  foldl (λ s parent, s ∪ list_to_set (children_of σ parent)) ∅
        (parents_of σ p) ∖ {[p]}.

(** The set that [find_immediate_family] has built when it returns. *)
Definition immediate_set (σ : state) (p : pid) : gset pid :=
  ∅ ∪ list_to_set (parents_of σ p)
    ∪ list_to_set (elements (siblings_set σ p))
    ∪ from_option singleton ∅ (spouse_of σ p)
    ∪ list_to_set (children_of σ p).

(** The set that [find_extended_family] has built before it filters. *)
Definition extended_set (σ : state) (p : pid) : gset pid :=
  foldl (λ ext parent,
           foldl (λ ext sibling,
                    ext ∪ {[sibling]}
                        ∪ list_to_set (children_of σ sibling))
                 ext (elements (siblings_set σ parent)))
        (∅ ∪ list_to_set (elements (immediate_set σ p)))
        (parents_of σ p).

(** [isinstance(member, LivingPerson)] for a reference. *)
Definition living_b (σ : state) (p : pid) : bool :=
  from_option isinstance_LivingPerson false (objs σ !! p).

(** ** The relations of the family graph *)

(** [s] is a sibling of [x]: another person among the children of a
    parent of [x]. *)
Definition sibling_of (σ : state) (x s : pid) : Prop :=
  s ≠ x ∧ ∃ parent, parent ∈ parents_of σ x ∧ s ∈ children_of σ parent.

(** [q] is a parent, a sibling, the spouse or a child of [p]. *)
Definition immediate_rel (σ : state) (p q : pid) : Prop :=
  q ∈ parents_of σ p ∨ sibling_of σ p q ∨ spouse_of σ p = Some q
  ∨ q ∈ children_of σ p.

(** [q] is in the immediate family of [p], or is a sibling of a parent
    of [p], or a child of such a sibling. *)
Definition extended_rel (σ : state) (p q : pid) : Prop :=
  immediate_rel σ p q ∨
  ∃ parent aunt, parent ∈ parents_of σ p ∧ sibling_of σ parent aunt ∧
                 (q = aunt ∨ q ∈ children_of σ aunt).

(** A family in which the two parents of Xena are both half-siblings of
    Uwe: Uwe is a child of Ada and Ben, Pia of Ada, Paul of Ben. *)
Definition stepfamily : M unit :=
  ada <- new_person LivingPerson "Ada" (Date 1940 1 1) ;;
  ben <- new_person LivingPerson "Ben" (Date 1941 2 2) ;;
  uwe <- new_person LivingPerson "Uwe" (Date 1965 3 3) ;;
  pia <- new_person LivingPerson "Pia" (Date 1962 4 4) ;;
  paul <- new_person LivingPerson "Paul" (Date 1963 5 5) ;;
  cora <- new_person LivingPerson "Cora" (Date 1990 6 6) ;;
  xena <- new_person LivingPerson "Xena" (Date 1991 7 7) ;;
  l1 <- new_list [ada; ben] ;; set_parents 8 uwe l1 ;;;
  l2 <- new_list [ada] ;; set_parents 8 pia l2 ;;;
  l3 <- new_list [ben] ;; set_parents 8 paul l3 ;;;
  l4 <- new_list [uwe] ;; set_parents 8 cora l4 ;;;
  l5 <- new_list [pia; paul] ;; set_parents 8 xena l5.

Definition stepfamily_state : state :=
  match stepfamily empty_state with Some (_, σ) => σ | None => empty_state end.

(** The age the loop adds for one member: [(death - birth).days // 365]
    for an instance of [DeceasedPerson], nothing for any other. *)
Definition age_at_death (o : Person) : option Z :=
  match class_ o with
  | DeceasedPerson death_date =>
      Some (sub_days death_date (_birth_date o) / 365)
  | _ => None
  end.

(** The ages at death of the deceased members, in registry order. *)
Definition deceased_ages (σ : state) : list Z :=
  omap (λ p, objs σ !! p ≫= age_at_death)
       (pydict.values (members (family_tree σ))).

(** The sum of a list of integers. *)
Definition total (xs : list Z) : Z := foldr Z.add 0 xs.

(** The arithmetic mean of a list of integers as Python computes it:
    the true division of the sum by the number of entries. *)
Definition mean `{Arith} (xs : list Z) : float :=
  truediv (total xs) (Z.of_nat (length xs)).

(** IEEE 754 binary64 with the division of two integers converted to
    floats.  For integers below [2^53], which convert exactly, the
    result is the double nearest to the quotient, as in Python; the
    examples are evaluated with it. *)
Definition float_of_Z (z : Z) : PrimFloat.float :=
  match z with
  | Z0 => PrimFloat.zero
  | Zpos _ => PrimFloat.of_uint63 (Uint63.of_Z z)
  | Zneg p => PrimFloat.opp (PrimFloat.of_uint63 (Uint63.of_Z (Zpos p)))
  end.

Definition binary64 : Arith :=
  {| float := PrimFloat.float;
     truediv := λ a b, PrimFloat.div (float_of_Z a) (float_of_Z b) |}.

Section grouping_defs.
Context {K X : Type} `{EqDecision K}.

(** The values appended under [k] by a sequence of [dd[k'].append(x)]. *)
Definition vals (k : K) (es : list (K * X)) : list X :=
  (filter (λ e, e.1 = k) es).*2.

Definition group_into (d : list (K * list X)) (es : list (K * X))
    : list (K * list X) :=
  foldl (λ d e, pydict.dd_append e.1 e.2 d) d es.

End grouping_defs.

Definition birthday_key (o : Person) : Z * Z :=
  (month (_birth_date o), day (_birth_date o)).

(** Key and name of each member, in registry order. *)
Definition entries (σ : state) : list ((Z * Z) * string) :=
  omap (λ p, o ← objs σ !! p; Some (birthday_key o, _name o))
       (pydict.values (members (family_tree σ))).

(** The names of the members born on month and day [k], in registry
    order. *)
Definition names_born_on (σ : state) (k : Z * Z) : list string :=
  omap (λ p, o ← objs σ !! p;
             if decide (birthday_key o = k) then Some (_name o) else None)
       (pydict.values (members (family_tree σ))).

(** The statements a construction script is made of: creating a person,
    evaluating a list display for an argument, and the three
    link-establishing calls. *)
Inductive link_op :=
  | NewPerson (c : klass) (name : string) (birth_date : date)
  | NewList (xs : list pid)
  | SetParents (fuel : nat) (self : pid) (parents : lid)
  | SetChildren (fuel : nat) (self : pid) (children : lid)
  | SetSpouse (self spouse : pid).

Definition run_op (op : link_op) : M unit :=
  match op with
  | NewPerson c n b => new_person c n b ;;; ret tt
  | NewList xs => new_list xs ;;; ret tt
  | SetParents fuel self l => set_parents fuel self l
  | SetChildren fuel self l => set_children fuel self l
  | SetSpouse self sp => spouse_setter self sp
  end.

Fixpoint run_ops (ops : list link_op) : M unit :=
  match ops with
  | [] => ret tt
  | op :: ops' => run_op op ;;; run_ops ops'
  end.

(** If [p] has a spouse [s], then the spouse of [s] is [p]. *)
Definition spouse_symmetric (σ : state) : Prop :=
  ∀ p s, spouse_of σ p = Some s → spouse_of σ s = Some p.

(** Neither [a] nor [b] is linked to a third person. *)
Definition free_to_marry (σ : state) (a b : pid) : Prop :=
  (spouse_of σ a = None ∨ spouse_of σ a = Some b) ∧
  (spouse_of σ b = None ∨ spouse_of σ b = Some a).

Definition op_guard (op : link_op) (σ : state) : Prop :=
  match op with
  | SetSpouse a b => free_to_marry σ a b
  | _ => True
  end.

(** Every spouse assignment of the sequence is made between two persons
    who are free to marry in the state in which it is made. *)
Fixpoint guarded (ops : list link_op) (σ : state) : Prop :=
  match ops with
  | [] => True
  | op :: ops' =>
      op_guard op σ ∧
      match run_op op σ with
      | Some (_, σ') => guarded ops' σ'
      | None => True
      end
  end.

#[global] Instance op_guard_dec op σ : Decision (op_guard op σ).
Proof. destruct op; simpl; unfold free_to_marry; apply _. Defined.

#[global] Instance guarded_dec ops σ : Decision (guarded ops σ).
Proof.
  revert σ. induction ops as [|op ops IH]; intros σ; simpl; [apply _|].
  destruct (run_op op σ) as [[? σ']|]; apply _.
Defined.

(** The body of both loops: append [self] to the list that the visited
    person holds in attribute [attr]. *)
Definition append_self (attr : Person → lid) (self : pid) (x : pid)
    : M unit :=
  o <- get_obj x ;; list_append (attr o) self.

(** A list object that is no person's [_parents] or [_children], such
    as the value of a list display before it is passed on. *)
Definition unshared (σ : state) (l : lid) : Prop :=
  map_Forall (λ _ o, _parents o ≠ l ∧ _children o ≠ l) (objs σ).

#[global] Instance unshared_dec σ l : Decision (unshared σ l).
Proof. unfold unshared. apply _. Defined.

(** Every member of the registry is in the [children] list of each of
    its parents. *)
Definition members_back_linked (σ : state) : Prop :=
  Forall (λ kv, Forall (λ parent, kv.2 ∈ children_of σ parent)
                       (parents_of σ kv.2))
         (members (family_tree σ)).

#[global] Instance members_back_linked_dec σ :
  Decision (members_back_linked σ).
Proof. unfold members_back_linked. apply _. Defined.

(** Every member of the registry is in the [parents] list of each of
    its children. *)
Definition members_forward_linked (σ : state) : Prop :=
  Forall (λ kv, Forall (λ child, kv.2 ∈ parents_of σ child)
                       (children_of σ kv.2))
         (members (family_tree σ)).

#[global] Instance members_forward_linked_dec σ :
  Decision (members_forward_linked σ).
Proof. unfold members_forward_linked. apply _. Defined.

(** The seed store after evaluating one more list display. *)
Definition seed_with_list : state :=
  match new_list [3; 4]%positive seed_state with
  | Some (_, σ) => σ
  | None => seed_state
  end.

(** Decidable form of the symmetry, for evaluation on a given store. *)
Definition spouse_symmetric_b (σ : state) : Prop :=
  map_Forall (λ p o, match _spouse o with
                     | Some s => spouse_of σ s = Some p
                     | None => True
                     end) (objs σ).

#[global] Instance spouse_symmetric_b_dec σ : Decision (spouse_symmetric_b σ).
Proof.
  unfold spouse_symmetric_b. apply map_Forall_dec.
  intros p o. destruct (_spouse o); apply _.
Defined.

(** Three persons, the first of whom is linked to the second and then
    to the third. *)
Definition remarriage : list link_op :=
  [NewPerson LivingPerson "Anna" (Date 1970 1 1);
   NewPerson LivingPerson "Bert" (Date 1971 2 2);
   NewPerson LivingPerson "Carl" (Date 1972 3 3);
   SetSpouse 1 2; SetSpouse 1 3]%positive.

Definition remarried_state : state :=
  match run_ops remarriage empty_state with
  | Some (_, σ) => σ
  | None => empty_state
  end.

(** ** Definitions for further properties *)

(** Parents and children lists mirror each other, for every person of
    the store. *)
Definition links_consistent (σ : state) : Prop :=
  map_Forall (λ a _,
    Forall (λ b, a ∈ parents_of σ b) (children_of σ a) ∧
    Forall (λ b, a ∈ children_of σ b) (parents_of σ a)) (objs σ).

#[global] Instance links_consistent_dec σ : Decision (links_consistent σ).
Proof. unfold links_consistent. apply _. Defined.

(** The list object that person [x] holds in attribute [attr]. *)
Definition attr_lid (attr : Person → lid) (σ : state) (x : pid)
    : option lid :=
  attr <$> objs σ !! x.

(** How many entries of [xs] hold the list object [l0] in [attr]. *)
Definition hits (attr : Person → lid) (σ : state) (l0 : lid)
    (xs : list pid) : nat :=
  length (filter (λ x, attr_lid attr σ x = Some l0) xs).

(** The names of the members, in registry order. *)
Definition member_names (σ : state) : list string :=
  omap (λ p, _name <$> objs σ !! p)
       (pydict.values (members (family_tree σ))).

(** Name and number of children of each member, in registry order. *)
Definition name_counts (σ : state) : list (string * Z) :=
  omap (λ p, o ← objs σ !! p;
             Some (_name o, Z.of_nat (length (children_of σ p))))
       (pydict.values (members (family_tree σ))).

(** A registry that holds an instance of the base class itself. *)
Definition base_registry : state :=
  match (p <- new_person PersonBase "Nemo" (Date 2000 1 1) ;;
         set_members (pydict.of_items [("Nemo", p)])) empty_state with
  | Some (_, σ) => σ
  | None => empty_state
  end.

(** One world follows another in a run that leaves the store alone: the
    store is the same, some lines have been read and some text has been
    written. *)
Definition extends (w w' : world) : Prop :=
  store w' = store w ∧
  (∃ used, stdin w = used ++ stdin w') ∧
  (∃ out, stdout w' = stdout w ++ out).

(** [m], started in [w], ends; it has only read lines and written text,
    and if it returns a value, the value and the final world satisfy
    [Q]. *)
Definition io_ok {A} (m : IO A) (w : world) (Q : A → world → Prop) : Prop :=
  ∃ r w', m w = Some (r, w') ∧ extends w w' ∧ ∀ a, r = Returns a → Q a w'.

(** The choices that [handle_choice] knows. *)
Definition known_choices : list string :=
  ["1"; "2"; "3"; "4"; "5"; "6"; "7"; "8"; "9"; "10"; "11"].

(** A console session on the seed store: details of Otto, an unknown
    choice, then the exit; one more line is left unread. *)
Definition seed_session : world :=
  mkWorld seed_state ["1"; "Otto Emmersohn"; "x"; "11"; "2"] [].

(** A session in which a name is typed that the registry does not
    have. *)
Definition nobody_session : world := mkWorld seed_state ["Nobody"] [].

(** What a person is constructed with: class (with the death date of a
    [DeceasedPerson]), name and birth date. *)
Definition identity (o : Person) : klass * string * date :=
  (class_ o, _name o, _birth_date o).

(** The persons that a list display mentions exist, as the values of
    the names in a display do in a running program. *)
Definition op_closed (op : link_op) (σ : state) : Prop :=
  match op with
  | NewList xs => Forall (allocated σ) xs
  | _ => True
  end.

(** Every list display of the sequence mentions only persons that exist
    in the state in which it is evaluated. *)
Fixpoint ops_closed (ops : list link_op) (σ : state) : Prop :=
  match ops with
  | [] => True
  | op :: ops' =>
      op_closed op σ ∧
      match run_op op σ with
      | Some (_, σ') => ops_closed ops' σ'
      | None => True
      end
  end.

#[global] Instance op_closed_dec op σ : Decision (op_closed op σ).
Proof. destruct op; simpl; apply _. Defined.

#[global] Instance ops_closed_dec ops σ : Decision (ops_closed ops σ).
Proof.
  revert σ. induction ops as [|op ops IH]; intros σ; simpl; [apply _|].
  destruct (run_op op σ) as [[? σ']|]; apply _.
Defined.

(** A script in the manner of the seed construction: three persons, the
    third a child of the first two, who are linked as spouses; then the
    second is given the third as a child once more. *)
Definition small_family : list link_op :=
  [NewPerson LivingPerson "Eva" (Date 1960 1 1);
   NewPerson (DeceasedPerson (Date 2001 2 3)) "Adam" (Date 1958 2 2);
   NewPerson LivingPerson "Karl" (Date 1985 3 3);
   NewList [1; 2]; SetParents 3 3 7;
   SetSpouse 1 2;
   NewList [3]; SetChildren 2 2 8]%positive.

(** The names of the persons of a list, as [[str(x) for x in xs]] gives
    them. *)
Definition names_of (σ : state) (xs : list pid) : list string :=
  omap (λ x, _name <$> objs σ !! x) xs.

(** The label and the query behind each of the choices 2 to 7. *)
Definition query_of (choice : string)
    : option (string * (pid → M (list pid))) :=
  if decide (choice = "2") then
    Some ("Parents", λ p, l <- find_parents p ;; get_list l)
  else if decide (choice = "3") then Some ("Grandparents", find_grandparents)
  else if decide (choice = "4") then
    Some ("Immediate Family", find_immediate_family)
  else if decide (choice = "5") then
    Some ("Extended Family", find_extended_family)
  else if decide (choice = "6") then Some ("Siblings", find_siblings)
  else if decide (choice = "7") then Some ("Cousins", find_cousins)
  else None.

(** A session in which the siblings of Lucas are asked for. *)
Definition lucas_session : world :=
  mkWorld seed_state ["Lucas Emmersohn"; "11"] [].

(** One line of the birthday calendar as choice 8 writes it: the day
    before the month. *)
Definition calendar_line (e : (Z * Z) * list string) : string :=
  (zfill 2 (pretty e.1.2) +:+ "/" +:+ zfill 2 (pretty e.1.1) +:+ ": "
   +:+ String.concat ", " e.2) +:+ nl.

(** One line of the children counts as choice 10 writes it. *)
Definition count_line (e : string * Z) : string :=
  (e.1 +:+ ": " +:+ pretty e.2) +:+ nl.

(** A session on the registry that holds an instance of the base
    class. *)
Definition nemo_session : world := mkWorld base_registry ["Nemo"; "11"] [].

(** A session in which the details of a living member are asked for. *)
Definition emma_session : world := mkWorld seed_state ["Emma Emmersohn"] [].

(** No member of the registry is an instance of the base class
    itself. *)
Definition no_base_instance (σ : state) : Prop :=
  Forall (λ kv, class_ <$> objs σ !! kv.2 ≠ Some PersonBase)
         (members (family_tree σ)).

#[global] Instance no_base_instance_dec σ : Decision (no_base_instance σ).
Proof. unfold no_base_instance. apply _. Defined.

(** ** Dates as the constructor of [date] accepts them *)

(** [_days_in_month] *)
Definition days_in_month (y m : Z) : Z :=
  if (m =? 2) && is_leap y then 29
  else nth (Z.to_nat m) [-1; 31; 28; 31; 30; 31; 30; 31; 31; 30; 31; 30; 31] 0.

(** The checks of [date(year, month, day)], which raises [ValueError]
    for anything else. *)
Definition valid_date (d : date) : Prop :=
  1 ≤ year d ≤ 9999 ∧ 1 ≤ month d ≤ 12 ∧
  1 ≤ day d ≤ days_in_month (year d) (month d).

(** [b <= d] on dates: by year, then month, then day. *)
Definition date_le (b d : date) : Prop :=
  year b < year d ∨
  (year b = year d ∧
   (month b < month d ∨ (month b = month d ∧ day b ≤ day d))).

(** The age in whole years on day [d] of someone born on [b]: the
    difference of the years, less one if the birthday of year [d] is
    still to come. *)
Definition calendar_age (b d : date) : Z :=
  year d - year b
  - (if decide (month d < month b ∨ (month d = month b ∧ day d < day b))
     then 1 else 0).

(** The calendar ages at death of the deceased members, in registry
    order. *)
Definition calendar_ages (σ : state) : list Z :=
  omap (λ p, o ← objs σ !! p;
             match class_ o with
             | DeceasedPerson death_date =>
                 Some (calendar_age (_birth_date o) death_date)
             | _ => None
             end)
       (pydict.values (members (family_tree σ))).

(** Every deceased member has dates that [date] accepts, and has not
    died before being born. *)
Definition lifespans_valid (σ : state) : Prop :=
  Forall (λ kv, match objs σ !! kv.2 with
                | Some o =>
                    match class_ o with
                    | DeceasedPerson death_date =>
                        valid_date (_birth_date o) ∧ valid_date death_date ∧
                        date_le (_birth_date o) death_date
                    | _ => True
                    end
                | None => True
                end) (members (family_tree σ)).

#[global] Instance valid_date_dec d : Decision (valid_date d).
Proof. unfold valid_date. apply _. Defined.

#[global] Instance date_le_dec b d : Decision (date_le b d).
Proof. unfold date_le. apply _. Defined.

#[global] Instance lifespans_valid_dec σ : Decision (lifespans_valid σ).
Proof.
  unfold lifespans_valid. apply Forall_dec. intros kv.
  destruct (objs σ !! kv.2) as [o|]; [|apply _].
  destruct (class_ o); apply _.
Defined.

(** ** Back-links along a construction script *)

(** For every person [p] of the store and every parent in [p.parents],
    [p] is an element of [parent.children]. *)
Definition back_linked (σ : state) : Prop :=
  map_Forall (λ p _, Forall (λ parent, p ∈ children_of σ parent)
                            (parents_of σ p)) (objs σ).

#[global] Instance back_linked_dec σ : Decision (back_linked σ).
Proof. unfold back_linked. apply _. Defined.

(** The parents list of a person is a list object of its own: it is not
    the children list of any person, nor the parents list of another
    person.  This is so when every list comes from [__init__] or from a
    list display that is passed on once. *)
Definition lists_apart (σ : state) : Prop :=
  map_Forall (λ p o,
    map_Forall (λ q o', _parents o ≠ _children o' ∧
                        (p ≠ q → _parents o ≠ _parents o')) (objs σ))
    (objs σ).

#[global] Instance lists_apart_dec σ : Decision (lists_apart σ).
Proof. unfold lists_apart. apply _. Defined.

(** The condition under which an operation keeps the back-links: a list
    display mentions persons that exist; [set_parents] and
    [set_children] are called on a person that exists, with a list
    object that no person holds yet and that is shorter than the fuel;
    and [set_children] is called on [self] only if every person that
    has [self] among its parents is in the new list of children. *)
Definition link_guard (op : link_op) (σ : state) : Prop :=
  match op with
  | NewPerson _ _ _ => True
  | NewList xs => Forall (allocated σ) xs
  | SetParents fuel self l =>
      allocated σ self ∧ unshared σ l ∧
      match lsts σ !! l with
      | Some xs => (length xs < fuel)%nat
      | None => False
      end
  | SetChildren fuel self l =>
      allocated σ self ∧ unshared σ l ∧
      match lsts σ !! l with
      | Some xs =>
          (length xs < fuel)%nat ∧
          map_Forall (λ q _, self ∈ parents_of σ q → q ∈ xs) (objs σ)
      | None => False
      end
  | SetSpouse a b => allocated σ a ∧ allocated σ b
  end.

Fixpoint links_guarded (ops : list link_op) (σ : state) : Prop :=
  match ops with
  | [] => True
  | op :: ops' =>
      link_guard op σ ∧
      match run_op op σ with
      | Some (_, σ') => links_guarded ops' σ'
      | None => True
      end
  end.

#[global] Instance link_guard_dec op σ : Decision (link_guard op σ).
Proof.
  destruct op as [| |fuel self l|fuel self l|]; simpl; try apply _;
    destruct (lsts σ !! l); apply _.
Defined.

#[global] Instance links_guarded_dec ops σ : Decision (links_guarded ops σ).
Proof.
  revert σ. induction ops as [|op ops IH]; intros σ; simpl; [apply _|].
  destruct (run_op op σ) as [[? σ']|]; apply _.
Defined.





(** * Properties *)

(** ** The monad and the elementary reads *)

Lemma bind_Some {A B} (m : M A) (k : A → M B) σ a σ' :
  m σ = Some (a, σ') → bind m k σ = k a σ'.
Proof. intros H. unfold bind. by rewrite H. Qed.

Lemma bind_inv {A B} (m : M A) (k : A → M B) σ b σ'' :
  bind m k σ = Some (b, σ'') →
  ∃ a σ', m σ = Some (a, σ') ∧ k a σ' = Some (b, σ'').
Proof.
  unfold bind. destruct (m σ) as [[a σ']|] eqn:E; [|done].
  intros H. by exists a, σ'.
Qed.

Lemma get_obj_Some σ p o : objs σ !! p = Some o → get_obj p σ = Some (o, σ).
Proof. intros H. unfold get_obj. by rewrite H. Qed.

Lemma get_list_Some σ l xs :
  lsts σ !! l = Some xs → get_list l σ = Some (xs, σ).
Proof. intros H. unfold get_list. by rewrite H. Qed.

Lemma wf_obj σ p o :
  wf σ → objs σ !! p = Some o → closed_obj σ o.
Proof. intros (H & _ & _) Hp. exact (H p o Hp). Qed.

Lemma wf_list σ l xs x :
  wf σ → lsts σ !! l = Some xs → x ∈ xs → allocated σ x.
Proof.
  intros (_ & H & _) Hl Hx. specialize (H l xs Hl).
  rewrite Forall_forall in H. by apply H.
Qed.

Lemma wf_member σ n p :
  wf σ → (n, p) ∈ members (family_tree σ) → allocated σ p.
Proof.
  intros (_ & _ & H) Hm. rewrite Forall_forall in H. exact (H _ Hm).
Qed.

Lemma parents_of_alloc σ p q : wf σ → q ∈ parents_of σ p → allocated σ q.
Proof.
  intros Hwf. unfold parents_of.
  destruct (objs σ !! p) as [o|] eqn:Ho; simpl; [|by intros ?%elem_of_nil].
  destruct (lsts σ !! _parents o) as [xs|] eqn:Hl; simpl;
    [|by intros ?%elem_of_nil].
  eauto using wf_list.
Qed.

Lemma children_of_alloc σ p q : wf σ → q ∈ children_of σ p → allocated σ q.
Proof.
  intros Hwf. unfold children_of.
  destruct (objs σ !! p) as [o|] eqn:Ho; simpl; [|by intros ?%elem_of_nil].
  destruct (lsts σ !! _children o) as [xs|] eqn:Hl; simpl;
    [|by intros ?%elem_of_nil].
  eauto using wf_list.
Qed.

Lemma spouse_of_alloc σ p s : wf σ → spouse_of σ p = Some s → allocated σ s.
Proof.
  intros Hwf. unfold spouse_of.
  destruct (objs σ !! p) as [o|] eqn:Ho; simpl; [|done].
  intros Hs. destruct (wf_obj _ _ _ Hwf Ho) as (_ & _ & H).
  by rewrite Hs in H.
Qed.

(** Reading [p.parents] and then the list, in front of any
    continuation. *)
Lemma read_parents {B} σ p (k : list pid → M B) :
  wf σ → allocated σ p →
  (ps <- parents p ;; xs <- get_list ps ;; k xs) σ = k (parents_of σ p) σ.
Proof.
  intros Hwf [o Ho]. destruct (wf_obj _ _ _ Hwf Ho) as ([xs Hxs] & _ & _).
  unfold parents, parents_of.
  rewrite (bind_Some _ _ σ (_parents o) σ).
  - rewrite (bind_Some _ _ σ xs σ); [|by apply get_list_Some].
    by rewrite Ho; simpl; rewrite Hxs.
  - by rewrite (bind_Some _ _ σ o σ); [|by apply get_obj_Some].
Qed.

Lemma read_children {B} σ p (k : list pid → M B) :
  wf σ → allocated σ p →
  (cs <- children p ;; ys <- get_list cs ;; k ys) σ = k (children_of σ p) σ.
Proof.
  intros Hwf [o Ho]. destruct (wf_obj _ _ _ Hwf Ho) as (_ & [xs Hxs] & _).
  unfold children, children_of.
  rewrite (bind_Some _ _ σ (_children o) σ).
  - rewrite (bind_Some _ _ σ xs σ); [|by apply get_list_Some].
    by rewrite Ho; simpl; rewrite Hxs.
  - by rewrite (bind_Some _ _ σ o σ); [|by apply get_obj_Some].
Qed.

Lemma read_spouse {B} σ p (k : option pid → M B) :
  allocated σ p → (sp <- spouse p ;; k sp) σ = k (spouse_of σ p) σ.
Proof.
  intros [o Ho]. unfold spouse, spouse_of.
  rewrite (bind_Some _ _ σ (_spouse o) σ).
  - by rewrite Ho.
  - by rewrite (bind_Some _ _ σ o σ); [|by apply get_obj_Some].
Qed.

(** A loop whose body only reads the store computes a left fold and
    leaves the store as it was. *)
Lemma foldM_read {A B} (body : B → A → M B) (f : B → A → B) σ xs acc :
  (∀ b x, x ∈ xs → body b x σ = Some (f b x, σ)) →
  foldM body acc xs σ = Some (foldl f acc xs, σ).
Proof.
  revert acc. induction xs as [|x xs IH]; intros acc Hbody; simpl; [done|].
  rewrite (bind_Some _ _ σ (f acc x) σ).
  - apply IH. intros b y Hy. apply Hbody. by right.
  - apply Hbody. by left.
Qed.

(** ** Folds that build lists and sets *)

Lemma foldl_app_bind {A B} (g : A → list B) (xs : list A) (acc : list B) :
  foldl (λ acc x, acc ++ g x) acc xs = acc ++ (xs ≫= g).
Proof.
  revert acc. induction xs as [|x xs IH]; intros acc; simpl.
  - by rewrite app_nil_r.
  - by rewrite IH, app_assoc.
Qed.

Lemma elem_of_foldl_union {A} (g : A → gset positive) (xs : list A)
    (acc : gset positive) (q : positive) :
  q ∈ foldl (λ s x, s ∪ g x) acc xs ↔ q ∈ acc ∨ ∃ x, x ∈ xs ∧ q ∈ g x.
Proof.
  revert acc. induction xs as [|x xs IH]; intros acc; simpl.
  - split; [by left|]. intros [?|(x & Hx & _)]; [done|].
    by apply elem_of_nil in Hx.
  - rewrite IH, elem_of_union. split.
    + intros [[?|?]|(y & Hy & ?)]; [by left| |].
      * right. exists x. split; [by left|done].
      * right. exists y. split; [by right|done].
    + intros [?|(y & Hy & ?)]; [by left; left|].
      apply elem_of_cons in Hy as [->|Hy]; [by left; right|].
      right. by exists y.
Qed.

Lemma foldl_filter_snoc {A} (P : A → bool) (xs : list A) (acc : list A) :
  foldl (λ out x, if P x then out ++ [x] else out) acc xs
  = acc ++ List.filter P xs.
Proof.
  revert acc. induction xs as [|x xs IH]; intros acc; simpl.
  - by rewrite app_nil_r.
  - rewrite IH. destruct (P x); [|done]. by rewrite <- app_assoc.
Qed.

(** ** What the relationship methods compute *)

Lemma elem_of_siblings_set σ p q :
  q ∈ siblings_set σ p ↔
  q ≠ p ∧ ∃ parent, parent ∈ parents_of σ p ∧ q ∈ children_of σ parent.
Proof.
  unfold siblings_set.
  rewrite elem_of_difference, elem_of_foldl_union, elem_of_singleton.
  split.
  - intros [[H|(x & Hx & Hq)] Hne]; [by apply elem_of_empty in H|].
    split; [done|]. exists x. by rewrite elem_of_list_to_set in Hq.
  - intros [Hne (x & Hx & Hq)]. split; [|done].
    right. exists x. by rewrite elem_of_list_to_set.
Qed.

Lemma find_siblings_eq σ p :
  wf σ → allocated σ p →
  find_siblings p σ = Some (elements (siblings_set σ p), σ).
Proof.
  intros Hwf Hp. unfold find_siblings. rewrite read_parents by done.
  erewrite bind_Some; [reflexivity|].
  apply (foldM_read _
           (λ s parent, s ∪ list_to_set (children_of σ parent))).
  intros s parent Hin.
  by rewrite read_children by eauto using parents_of_alloc.
Qed.

Lemma siblings_alloc σ p q :
  wf σ → q ∈ siblings_set σ p → allocated σ q.
Proof.
  intros Hwf (_ & parent & _ & Hq)%elem_of_siblings_set.
  eauto using children_of_alloc.
Qed.

Lemma find_grandparents_eq σ p :
  wf σ → allocated σ p →
  find_grandparents p σ = Some (parents_of σ p ≫= parents_of σ, σ).
Proof.
  intros Hwf Hp. unfold find_grandparents. rewrite read_parents by done.
  rewrite (foldM_read _ (λ acc parent, acc ++ parents_of σ parent)).
  - by rewrite foldl_app_bind.
  - intros acc parent Hin.
    by rewrite read_parents by eauto using parents_of_alloc.
Qed.

Lemma find_cousins_eq σ p :
  wf σ → allocated σ p →
  find_cousins p σ
  = Some (parents_of σ p ≫= (λ parent,
            elements (siblings_set σ parent) ≫= children_of σ), σ).
Proof.
  intros Hwf Hp. unfold find_cousins. rewrite read_parents by done.
  rewrite (foldM_read _ (λ acc parent,
             acc ++ (elements (siblings_set σ parent) ≫= children_of σ))).
  - by rewrite foldl_app_bind.
  - intros acc parent Hin.
    erewrite bind_Some;
      [|apply find_siblings_eq; eauto using parents_of_alloc].
    rewrite (foldM_read _ (λ acc sibling, acc ++ children_of σ sibling)).
    + by rewrite foldl_app_bind.
    + intros acc' sibling Hs. rewrite read_children; [done|done|].
      apply elem_of_elements in Hs. eauto using siblings_alloc.
Qed.

Lemma elem_of_immediate_set σ p q :
  q ∈ immediate_set σ p ↔
  q ∈ parents_of σ p ∨ q ∈ siblings_set σ p ∨ spouse_of σ p = Some q
  ∨ q ∈ children_of σ p.
Proof.
  unfold immediate_set.
  rewrite !elem_of_union, !elem_of_list_to_set, elem_of_elements.
  destruct (spouse_of σ p) as [s|]; simpl.
  - rewrite elem_of_singleton. split.
    + intros [[[[H|?]|?]| -> ]|?]; auto. by apply elem_of_empty in H.
    + intros [?|[?|[ [= ->] |?]]]; auto.
  - split.
    + intros [[[[H|?]|?]|H]|?]; auto; by apply elem_of_empty in H.
    + intros [?|[?|[?|?]]]; auto. done.
Qed.

Lemma find_immediate_family_eq σ p :
  wf σ → allocated σ p →
  find_immediate_family p σ = Some (elements (immediate_set σ p), σ).
Proof.
  intros Hwf Hp. unfold find_immediate_family.
  rewrite read_parents by done.
  erewrite bind_Some; [|by apply find_siblings_eq].
  rewrite read_spouse by done.
  destruct (spouse_of σ p) as [s|] eqn:Hs.
  - erewrite bind_Some.
    + by rewrite read_children by done.
    + rewrite read_spouse by done. rewrite Hs. reflexivity.
  - erewrite bind_Some; [|reflexivity].
    rewrite read_children by done. unfold immediate_set.
    rewrite Hs. simpl. unfold ret. by rewrite (right_id_L ∅ (∪)).
Qed.

Lemma immediate_alloc σ p q :
  wf σ → q ∈ immediate_set σ p → allocated σ q.
Proof.
  intros Hwf [?|[?|[?|?]]]%elem_of_immediate_set;
    eauto using parents_of_alloc, siblings_alloc, spouse_of_alloc,
      children_of_alloc.
Qed.

Lemma elem_of_foldl_step {A} (F : gset positive → A → gset positive)
    (P : A → positive → Prop) (xs : list A) (acc : gset positive) q :
  (∀ s x q, q ∈ F s x ↔ q ∈ s ∨ P x q) →
  q ∈ foldl F acc xs ↔ q ∈ acc ∨ ∃ x, x ∈ xs ∧ P x q.
Proof.
  intros HF. revert acc. induction xs as [|x xs IH]; intros acc; simpl.
  - split; [by left|]. intros [?|(x & Hx & _)]; [done|].
    by apply elem_of_nil in Hx.
  - rewrite IH, HF. split.
    + intros [[?|?]|(y & Hy & ?)]; [by left| |].
      * right. exists x. split; [by left|done].
      * right. exists y. split; [by right|done].
    + intros [?|(y & Hy & ?)]; [by left; left|].
      apply elem_of_cons in Hy as [->|Hy]; [by left; right|].
      right. by exists y.
Qed.

Lemma elem_of_extended_set σ p q :
  q ∈ extended_set σ p ↔
  q ∈ immediate_set σ p ∨
  ∃ parent sibling, parent ∈ parents_of σ p ∧
    sibling ∈ siblings_set σ parent ∧
    (q = sibling ∨ q ∈ children_of σ sibling).
Proof.
  unfold extended_set.
  rewrite (elem_of_foldl_step _
    (λ parent q, ∃ sibling, sibling ∈ siblings_set σ parent ∧
                   (q = sibling ∨ q ∈ children_of σ sibling))).
  - rewrite elem_of_union, elem_of_list_to_set, elem_of_elements.
    split.
    + intros [[H|?]|(x & ? & y & ? & ?)];
        [by apply elem_of_empty in H|by left|right; by exists x, y].
    + intros [?|(x & y & ? & ? & ?)]; [left; by right|].
      right. exists x. split; [done|by exists y].
  - intros s parent r.
    rewrite (elem_of_foldl_step _
      (λ sibling q, q = sibling ∨ q ∈ children_of σ sibling)).
    + apply or_iff_compat_l. split.
      * intros (x & Hx%elem_of_elements & H). by exists x.
      * intros (x & Hx & H). exists x. by rewrite elem_of_elements.
    + intros s' x r'.
      rewrite !elem_of_union, elem_of_singleton, elem_of_list_to_set.
      tauto.
Qed.

Lemma extended_alloc σ p q :
  wf σ → q ∈ extended_set σ p → allocated σ q.
Proof.
  intros Hwf [?|(parent & sib & _ & Hs & [->|?])]%elem_of_extended_set;
    eauto using immediate_alloc, siblings_alloc, children_of_alloc.
Qed.

Lemma living_b_spec σ p : living_b σ p = true ↔ is_living σ p.
Proof.
  unfold living_b, is_living, isinstance_LivingPerson.
  destruct (objs σ !! p) as [o|]; simpl; [|done].
  destruct (class_ o); split; intros; by simplify_eq.
Qed.

Lemma living_not_deceased σ p : is_living σ p → ¬ is_deceased σ p.
Proof.
  unfold is_living, is_deceased, isinstance_DeceasedPerson.
  destruct (objs σ !! p) as [o|]; simpl; [|done].
  intros [= ->]. done.
Qed.

Lemma find_extended_family_eq σ p :
  wf σ → allocated σ p →
  find_extended_family p σ
  = Some (List.filter (living_b σ) (elements (extended_set σ p)), σ).
Proof.
  intros Hwf Hp. unfold find_extended_family.
  erewrite bind_Some; [|by apply find_immediate_family_eq].
  rewrite read_parents by done.
  erewrite bind_Some; cycle 1.
  { apply (foldM_read _ (λ ext parent,
             foldl (λ ext sibling,
                      ext ∪ {[sibling]}
                          ∪ list_to_set (children_of σ sibling))
                   ext (elements (siblings_set σ parent)))).
    intros ext parent Hin.
    erewrite bind_Some;
      [|apply find_siblings_eq; eauto using parents_of_alloc].
    apply (foldM_read _ (λ ext sibling,
             ext ∪ {[sibling]} ∪ list_to_set (children_of σ sibling))).
    intros ext' sibling Hs. rewrite read_children; [done|done|].
    apply elem_of_elements in Hs. eauto using siblings_alloc. }
  fold (extended_set σ p).
  rewrite (foldM_read _
             (λ out m, if living_b σ m then out ++ [m] else out)).
  - by rewrite foldl_filter_snoc.
  - intros out m Hm. apply elem_of_elements in Hm.
    destruct (extended_alloc _ _ _ Hwf Hm) as [o Ho].
    erewrite bind_Some; [|by apply get_obj_Some].
    unfold living_b. by rewrite Ho.
Qed.

(** Closed decidable facts are settled by evaluation. *)
Ltac by_compute := apply (bool_decide_unpack _); vm_compute; exact I.

Lemma wf_seed : wf seed_state.
Proof. by_compute. Qed.

Lemma result_of_find_siblings σ p :
  wf σ → allocated σ p →
  result_of (find_siblings p) σ = elements (siblings_set σ p).
Proof.
  intros Hwf Hp. unfold result_of. by rewrite find_siblings_eq.
Qed.

Lemma NoDup_List_filter {A} (f : A → bool) (l : list A) :
  NoDup l → NoDup (List.filter f l).
Proof.
  induction 1 as [|x l Hx _ IH]; simpl; [constructor|].
  destruct (f x); [|done]. constructor; [|done].
  rewrite list_elem_of_In, filter_In, <- list_elem_of_In. tauto.
Qed.

Lemma elem_of_immediate_rel σ p q :
  q ∈ immediate_set σ p ↔ immediate_rel σ p q.
Proof.
  unfold immediate_rel, sibling_of.
  by rewrite elem_of_immediate_set, elem_of_siblings_set.
Qed.

Lemma elem_of_extended_rel σ p q :
  q ∈ extended_set σ p ↔ extended_rel σ p q.
Proof.
  unfold extended_rel. rewrite elem_of_extended_set, elem_of_immediate_rel.
  apply or_iff_compat_l.
  split; intros (parent & aunt & Hpar & Hs & Hq); exists parent, aunt;
    (split; [done|]); (split; [|done]);
    by apply elem_of_siblings_set.
Qed.

(** C1: [find_extended_family] returns, without changing the store, a
    list without duplicates whose elements are exactly the persons that
    are instances of [LivingPerson] and are a parent, a sibling, the
    spouse or a child of [p], or a sibling of a parent of [p], or a child
    of such a sibling; so no instance of [DeceasedPerson] is in it,
    whatever its relationship to [p].  [find_immediate_family] returns,
    again without duplicates, exactly the parents, siblings, spouse and
    children of [p], whatever their class.  The relations are those of
    the parents and children lists and of the spouse attribute in the
    store. *)
Theorem find_extended_family_only_living σ p :
  wf σ → allocated σ p →
  ∃ ext imm,
    find_extended_family p σ = Some (ext, σ) ∧
    find_immediate_family p σ = Some (imm, σ) ∧
    NoDup ext ∧ NoDup imm ∧
    (∀ q, q ∈ ext ↔ is_living σ q ∧ extended_rel σ p q) ∧
    (∀ q, q ∈ ext → ¬ is_deceased σ q) ∧
    (∀ q, q ∈ imm ↔ immediate_rel σ p q).
Proof.
  intros Hwf Hp.
  exists (List.filter (living_b σ) (elements (extended_set σ p))),
    (elements (immediate_set σ p)).
  split; [by apply find_extended_family_eq|].
  split; [by apply find_immediate_family_eq|].
  assert (Hext : ∀ q,
    q ∈ List.filter (living_b σ) (elements (extended_set σ p)) ↔
    is_living σ q ∧ q ∈ extended_set σ p).
  { intros q. rewrite list_elem_of_In, filter_In, <- list_elem_of_In.
    rewrite elem_of_elements, living_b_spec. tauto. }
  split; [apply NoDup_List_filter, NoDup_elements|].
  split; [apply NoDup_elements|].
  split; [|split].
  - intros q. by rewrite Hext, elem_of_extended_rel.
  - intros q [Hq _]%Hext. by apply living_not_deceased.
  - intros q. by rewrite elem_of_elements, elem_of_immediate_rel.
Qed.

Lemma find_extended_family_only_living_witness :
  wf seed_state ∧ allocated seed_state 1%positive ∧
  ∃ ext imm,
    find_extended_family 1%positive seed_state = Some (ext, seed_state) ∧
    find_immediate_family 1%positive seed_state = Some (imm, seed_state) ∧
    ext ≡ₚ [7; 8]%positive ∧ imm ≡ₚ [2; 3; 4; 7; 8]%positive ∧
    is_deceased seed_state 2%positive ∧
    immediate_rel seed_state 1%positive 2%positive ∧
    (∀ q, q ∈ ext → ¬ is_deceased seed_state q).
Proof.
  assert (Ha : allocated seed_state 1%positive) by by_compute.
  split; [exact wf_seed|]. split; [exact Ha|].
  destruct (find_extended_family_only_living seed_state 1%positive
              wf_seed Ha) as (ext & imm & He & Hi & _ & _ & _ & Hd & Him).
  exists ext, imm. split; [exact He|]. split; [exact Hi|].
  assert (Hce : find_extended_family 1%positive seed_state
                = Some (result_of (find_extended_family 1%positive)
                                  seed_state, seed_state))
    by (vm_compute; reflexivity).
  assert (Hci : find_immediate_family 1%positive seed_state
                = Some (result_of (find_immediate_family 1%positive)
                                  seed_state, seed_state))
    by (vm_compute; reflexivity).
  assert (Hee : ext = result_of (find_extended_family 1%positive) seed_state)
    by exact (f_equal (λ r : option (list pid * state),
                         match r with Some (l, _) => l | None => [] end)
                      (eq_trans (eq_sym He) Hce)).
  assert (Hii : imm = result_of (find_immediate_family 1%positive) seed_state)
    by exact (f_equal (λ r : option (list pid * state),
                         match r with Some (l, _) => l | None => [] end)
                      (eq_trans (eq_sym Hi) Hci)).
  assert (H2 : 2%positive ∈ imm).
  { rewrite Hii. clear. by_compute. }
  split; [rewrite Hee; clear; by_compute|].
  split; [rewrite Hii; clear; by_compute|].
  split; [by_compute|].
  split; [exact (proj1 (Him 2%positive) H2)|exact Hd].
Defined.

(** C4: [find_siblings] returns, without changing the store, a list
    without duplicates that does not contain [p] and whose elements are
    exactly the persons other than [p] in the [children] list of some
    parent of [p] (one common parent is enough); where the children
    lists are mirrored by the parents lists, each of them has a parent in
    common with [p]. *)
Theorem find_siblings_spec σ p :
  wf σ → allocated σ p →
  ∃ sibs,
    find_siblings p σ = Some (sibs, σ) ∧
    NoDup sibs ∧
    (p ∉ sibs) ∧
    (∀ q, q ∈ sibs ↔
       q ≠ p ∧ ∃ parent, parent ∈ parents_of σ p ∧ q ∈ children_of σ parent) ∧
    ((∀ a b, b ∈ children_of σ a → a ∈ parents_of σ b) →
     ∀ q, q ∈ sibs →
       ∃ parent, parent ∈ parents_of σ p ∧ parent ∈ parents_of σ q).
Proof.
  intros Hwf Hp. exists (elements (siblings_set σ p)).
  split; [by apply find_siblings_eq|].
  split; [apply NoDup_elements|].
  assert (Hiff : ∀ q, q ∈ elements (siblings_set σ p) ↔
            q ≠ p ∧ ∃ parent, parent ∈ parents_of σ p
                              ∧ q ∈ children_of σ parent).
  { intros q. by rewrite elem_of_elements, elem_of_siblings_set. }
  split; [|split; [exact Hiff|]].
  - intros [Hne _]%Hiff. by apply Hne.
  - intros Hlinks q (_ & parent & Hpar & Hq)%Hiff.
    exists parent. split; [done|]. by apply Hlinks.
Qed.

Lemma find_siblings_spec_witness :
  wf seed_state ∧ allocated seed_state 7%positive ∧
  ∃ sibs, find_siblings 7%positive seed_state = Some (sibs, seed_state) ∧
          NoDup sibs ∧ 7%positive ∉ sibs.
Proof.
  assert (Ha : allocated seed_state 7%positive) by by_compute.
  split; [exact wf_seed|]. split; [exact Ha|].
  destruct (find_siblings_spec seed_state 7%positive wf_seed Ha)
    as (sibs & He & Hnd & Hp & _).
  exists sibs. split; [exact He|]. split; [exact Hnd|exact Hp].
Defined.

Lemma bind_ext_in {A B} (f g : A → list B) (l : list A) :
  (∀ x, x ∈ l → f x = g x) → l ≫= f = l ≫= g.
Proof.
  induction l as [|x l IH]; intros H; [done|].
  rewrite !bind_cons, (H x) by (by left).
  f_equal. apply IH. intros y Hy. apply H. by right.
Qed.

Lemma bind_twice {A B} (g : A → list B) (xs : list A) i j a b c :
  (i < j)%nat → xs !! i = Some a → xs !! j = Some b →
  c ∈ g a → c ∈ g b →
  ∃ l1 l2 l3, xs ≫= g = l1 ++ c :: l2 ++ c :: l3.
Proof.
  intros Hij Hi Hj Ha Hb.
  apply list_elem_of_split in Ha as (u1 & u2 & Ha).
  apply list_elem_of_split in Hb as (v1 & v2 & Hb).
  assert (Hj' : drop (S i) xs !! (j - S i)%nat = Some b).
  { rewrite lookup_drop. rewrite <- Hj. f_equal. lia. }
  rewrite <- (take_drop_middle xs i a Hi).
  rewrite <- (take_drop_middle _ _ b Hj').
  rewrite bind_app, bind_cons, bind_app, bind_cons, Ha, Hb.
  exists ((take i xs ≫= g) ++ u1),
    (u2 ++ (take (j - S i) (drop (S i) xs) ≫= g) ++ v1),
    (v2 ++ (drop (S (j - S i)) (drop (S i) xs) ≫= g)).
  rewrite <- ?app_assoc. simpl. by rewrite <- ?app_assoc.
Qed.

(** C5: [find_cousins] returns, without changing the store, the
    concatenation, over the parents of [p] in order and over the list
    that [find_siblings] returns for each parent, of the [children] list
    of each such sibling.  Nothing is removed: a child of a person who is
    a sibling of two entries of the parents list occurs at least twice. *)
Theorem find_cousins_spec σ p :
  wf σ → allocated σ p →
  find_cousins p σ
  = Some (parents_of σ p ≫= (λ parent,
            result_of (find_siblings parent) σ ≫= children_of σ), σ) ∧
  ∀ i j a b s c,
    i ≠ j →
    parents_of σ p !! i = Some a → parents_of σ p !! j = Some b →
    s ∈ result_of (find_siblings a) σ →
    s ∈ result_of (find_siblings b) σ →
    c ∈ children_of σ s →
    ∃ l1 l2 l3, result_of (find_cousins p) σ = l1 ++ c :: l2 ++ c :: l3.
Proof.
  intros Hwf Hp.
  assert (Heq : find_cousins p σ
    = Some (parents_of σ p ≫= (λ parent,
              result_of (find_siblings parent) σ ≫= children_of σ), σ)).
  { rewrite find_cousins_eq by done. do 2 f_equal.
    apply bind_ext_in. intros parent Hin.
    by rewrite result_of_find_siblings by eauto using parents_of_alloc. }
  split; [exact Heq|].
  intros i j a b s c Hij Hi Hj Hsa Hsb Hc.
  assert (Hr : result_of (find_cousins p) σ
    = parents_of σ p ≫= (λ parent,
        result_of (find_siblings parent) σ ≫= children_of σ))
    by (unfold result_of at 1; by rewrite Heq).
  rewrite Hr.
  assert (Hca : c ∈ result_of (find_siblings a) σ ≫= children_of σ)
    by (apply list_elem_of_bind; eauto).
  assert (Hcb : c ∈ result_of (find_siblings b) σ ≫= children_of σ)
    by (apply list_elem_of_bind; eauto).
  destruct (decide (i < j)%nat).
  - by eapply (bind_twice _ _ i j a b).
  - eapply (bind_twice _ _ j i b a); [lia|done..].
Qed.

Lemma find_cousins_spec_witness :
  find_cousins 7%positive stepfamily_state
  = Some ([6%positive; 6%positive], stepfamily_state) ∧
  ∃ l1 l2 l3, result_of (find_cousins 7%positive) stepfamily_state
              = l1 ++ 6%positive :: l2 ++ 6%positive :: l3.
Proof.
  assert (Hwf : wf stepfamily_state) by by_compute.
  assert (Ha : allocated stepfamily_state 7%positive) by by_compute.
  destruct (find_cousins_spec stepfamily_state 7%positive Hwf Ha)
    as [Heq Hdup].
  split.
  - rewrite Heq. vm_compute. reflexivity.
  - apply (Hdup 0%nat 1%nat 4%positive 5%positive 3%positive 6%positive);
      by_compute.
Defined.

(** C9: on a closed store, each of [find_parents], [find_grandparents],
    [find_siblings], [find_cousins], [find_immediate_family] and
    [find_extended_family] returns and the store after the call is the
    store before it: every person's attributes, every list and the
    registry are as they were.  What is returned holds references to
    person objects of that store. *)
Theorem relationship_methods_pure σ p :
  wf σ → allocated σ p →
  (∃ l, find_parents p σ = Some (l, σ) ∧
        lsts σ !! l = Some (parents_of σ p) ∧
        Forall (allocated σ) (parents_of σ p)) ∧
  (∃ r, find_grandparents p σ = Some (r, σ) ∧ Forall (allocated σ) r) ∧
  (∃ r, find_siblings p σ = Some (r, σ) ∧ Forall (allocated σ) r) ∧
  (∃ r, find_cousins p σ = Some (r, σ) ∧ Forall (allocated σ) r) ∧
  (∃ r, find_immediate_family p σ = Some (r, σ) ∧ Forall (allocated σ) r) ∧
  (∃ r, find_extended_family p σ = Some (r, σ) ∧ Forall (allocated σ) r).
Proof.
  intros Hwf Hp. repeat split.
  - destruct Hp as [o Ho].
    destruct (wf_obj _ _ _ Hwf Ho) as ([xs Hxs] & _ & _).
    exists (_parents o). unfold find_parents, parents.
    erewrite bind_Some; [|by apply get_obj_Some].
    assert (Hpo : parents_of σ p = xs)
      by (unfold parents_of; rewrite Ho; simpl; by rewrite Hxs).
    rewrite Hpo. split; [done|]. split; [done|].
    apply Forall_forall. intros q Hq. eauto using wf_list.
  - eexists. split; [by apply find_grandparents_eq|].
    apply Forall_forall. intros q (parent & Hq & _)%list_elem_of_bind.
    eauto using parents_of_alloc.
  - eexists. split; [by apply find_siblings_eq|].
    apply Forall_forall. intros q Hq%elem_of_elements.
    eauto using siblings_alloc.
  - eexists. split; [by apply find_cousins_eq|].
    apply Forall_forall.
    intros q (parent & (s & Hq & _)%list_elem_of_bind & _)%list_elem_of_bind.
    eauto using children_of_alloc.
  - eexists. split; [by apply find_immediate_family_eq|].
    apply Forall_forall. intros q Hq%elem_of_elements.
    eauto using immediate_alloc.
  - eexists. split; [by apply find_extended_family_eq|].
    apply Forall_forall. intros q Hq.
    apply list_elem_of_In, filter_In in Hq as [Hq _].
    apply list_elem_of_In, elem_of_elements in Hq.
    eauto using extended_alloc.
Qed.

Lemma relationship_methods_pure_witness :
  wf seed_state ∧ allocated seed_state 7%positive ∧
  find_grandparents 7%positive seed_state
  = Some ([3; 4; 5; 6]%positive, seed_state) ∧
  ∃ r, find_extended_family 7%positive seed_state = Some (r, seed_state).
Proof.
  assert (Ha : allocated seed_state 7%positive) by by_compute.
  split; [exact wf_seed|]. split; [exact Ha|].
  destruct (relationship_methods_pure seed_state 7%positive wf_seed Ha)
    as (_ & (g & Hg & _) & _ & _ & _ & (r & Hr & _)).
  split; [|exists r; exact Hr].
  vm_compute. reflexivity.
Defined.

(** ** Dictionaries as item lists *)

Section pydict_facts.
Context {K V : Type} `{EqDecision K}.

Lemma pydict_get_None_iff (d : list (K * V)) (k : K) :
  pydict.get d k = None ↔ k ∉ pydict.keys d.
Proof.
  unfold pydict.keys. induction d as [|[k' v] d IH]; simpl.
  - split; [intros _ H'; by apply elem_of_nil in H'|done].
  - destruct (decide (k' = k)) as [->|Hne].
    + split; [done|]. intros H'. exfalso. apply H'. by left.
    + rewrite IH, not_elem_of_cons.
      split; [intros H'; split; [congruence|done]|by intros [_ H']].
Qed.

Lemma pydict_get_Some (d : list (K * V)) (k : K) (v : V) :
  pydict.get d k = Some v → (k, v) ∈ d.
Proof.
  induction d as [|[k' w] d IH]; simpl; [done|].
  destruct (decide (k' = k)) as [->|Hne].
  - intros [= ->]. by left.
  - intros H'. right. by apply IH.
Qed.

Lemma pydict_get_elem_of (d : list (K * V)) (k : K) (v : V) :
  NoDup (pydict.keys d) → (k, v) ∈ d ↔ pydict.get d k = Some v.
Proof.
  unfold pydict.keys. induction d as [|[k' w] d IH]; simpl; intros Hnd.
  - split; [by intros ?%elem_of_nil|done].
  - apply NoDup_cons in Hnd as [Hk' Hnd].
    rewrite elem_of_cons, (IH Hnd).
    destruct (decide (k' = k)) as [->|Hne].
    + split.
      * intros [[= ->]|Hg]; [done|].
        apply pydict_get_None_iff in Hk'. congruence.
      * intros [= ->]. by left.
    + split; [intros [[= ? ?]|?]; [congruence|done]|by right].
Qed.

Lemma setitem_fresh (d : list (K * V)) (k : K) (v : V) :
  k ∉ pydict.keys d → pydict.setitem k v d = d ++ [(k, v)].
Proof.
  unfold pydict.keys. induction d as [|[k' w] d IH]; simpl; [done|].
  intros [Hne Hk]%not_elem_of_cons.
  destruct (decide (k' = k)); [congruence|]. by rewrite IH.
Qed.

(** Building a dictionary from items with pairwise different keys keeps
    the items as they are. *)
Lemma of_items_NoDup (items : list (K * V)) :
  NoDup (pydict.keys items) → pydict.of_items items = items.
Proof.
  unfold pydict.of_items. change items with ([] ++ items) at 1 3.
  generalize (@nil (K * V)) as d.
  induction items as [|[k v] items IH]; intros d; simpl.
  - by rewrite app_nil_r.
  - unfold pydict.keys. rewrite fmap_app, fmap_cons. simpl.
    intros Hnd. rewrite setitem_fresh.
    + rewrite (IH (d ++ [(k, v)])).
      * by rewrite <- app_assoc.
      * unfold pydict.keys. by rewrite <- app_assoc, fmap_app.
    + apply NoDup_app in Hnd as (_ & Hd & _).
      intros Hk. apply (Hd k Hk). by left.
Qed.

End pydict_facts.

(** ** Registry lookup *)

(** C8: for a name that is not a key of [members], [get_person] returns
    [None] and [get_member_details] returns the string
    ["Person not found."], both as normal results and with the store
    unchanged; for a name that is a key, [get_member_details] returns
    what [display_details] returns for the person stored under it, which
    for an instance of [LivingPerson] or [DeceasedPerson] is a string. *)
Theorem lookup_unknown_name σ n :
  wf σ →
  (n ∉ pydict.keys (members (family_tree σ)) →
   get_person n σ = Some (None, σ) ∧
   get_member_details n σ = Some (inr "Person not found.", σ)) ∧
  (n ∈ pydict.keys (members (family_tree σ)) →
   ∃ p o, get_person n σ = Some (Some p, σ) ∧
          objs σ !! p = Some o ∧
          get_member_details n σ = display_details p σ ∧
          (class_ o ≠ PersonBase →
           ∃ s, display_details p σ = Some (inr s, σ))).
Proof.
  intros Hwf. split.
  - intros Hn%pydict_get_None_iff.
    unfold get_member_details, get_person, get_members, bind, ret.
    by rewrite Hn.
  - intros Hn.
    destruct (pydict.get (members (family_tree σ)) n) as [p|] eqn:Hg;
      [|by apply pydict_get_None_iff in Hg].
    destruct (wf_member σ n p Hwf (pydict_get_Some _ _ _ Hg)) as [o Ho].
    exists p, o.
    split; [unfold get_person, get_members, bind, ret; by rewrite Hg|].
    split; [done|].
    split; [unfold get_member_details, get_person, get_members, bind, ret;
            by rewrite Hg|].
    intros Hc. unfold display_details.
    erewrite bind_Some; [|by apply get_obj_Some].
    destruct (class_ o); [done|by eexists..].
Qed.

Lemma lookup_unknown_name_witness :
  wf seed_state ∧
  get_person "Nobody" seed_state = Some (None, seed_state) ∧
  get_member_details "Nobody" seed_state
  = Some (inr "Person not found.", seed_state) ∧
  get_member_details "Otto Emmersohn" seed_state
  = Some (inr "Name: Otto Emmersohn, Birth Date: 1965-08-15, Death Date: 2020-04-10",
          seed_state).
Proof.
  destruct (lookup_unknown_name seed_state "Nobody" wf_seed) as [Habs _].
  destruct (lookup_unknown_name seed_state "Otto Emmersohn" wf_seed)
    as [_ Hpres].
  assert (Hn : "Nobody" ∉ pydict.keys (members (family_tree seed_state)))
    by by_compute.
  assert (Ho : "Otto Emmersohn"
               ∈ pydict.keys (members (family_tree seed_state)))
    by by_compute.
  destruct (Habs Hn) as [H1 H2].
  destruct (Hpres Ho) as (p & o & _ & _ & H3 & _).
  split; [exact wf_seed|]. split; [exact H1|]. split; [exact H2|].
  vm_compute. reflexivity.
Defined.

(** ** Average age at death *)

Lemma foldl_total_count (g : positive → option Z) (xs : list positive)
    (t c : Z) :
  foldl (λ (r : Z * Z) x,
           match g x with Some a => (r.1 + a, r.2 + 1) | None => r end)
        (t, c) xs
  = (t + foldr Z.add 0 (omap g xs), c + Z.of_nat (length (omap g xs))).
Proof.
  revert t c. induction xs as [|x xs IH]; intros t c; simpl.
  - f_equal; lia.
  - destruct (g x) as [a|]; simpl; rewrite IH; [|done].
    change (list_omap positive Z g xs) with (omap g xs).
    f_equal; lia.
Qed.

(** The value that [calculate_average_age] returns. *)
Lemma calculate_average_age_eq `{Arith} σ :
  wf σ →
  calculate_average_age σ
  = Some (if decide (deceased_ages σ = []) then Int 0
          else Float (mean (deceased_ages σ)), σ).
Proof.
  intros Hwf. unfold calculate_average_age.
  erewrite bind_Some; [|reflexivity].
  erewrite bind_Some; cycle 1.
  { apply (foldM_read _ (λ (r : Z * Z) x,
             match objs σ !! x ≫= age_at_death with
             | Some a => (r.1 + a, r.2 + 1)
             | None => r
             end)).
    intros [t c] person Hin.
    apply list_elem_of_fmap in Hin as ([n q] & -> & Hin).
    destruct (wf_member σ n q Hwf Hin) as [o Ho]. simpl.
    erewrite bind_Some; [|by apply get_obj_Some].
    rewrite Ho. simpl. unfold age_at_death.
    destruct (class_ o); [done|done|].
    unfold birth_date.
    erewrite bind_Some;
      [|erewrite bind_Some; [reflexivity|by apply get_obj_Some]].
    done. }
  rewrite foldl_total_count. fold (deceased_ages σ).
  unfold ret, mean, total. do 2 f_equal.
  destruct (deceased_ages σ) as [|a l]; simpl; [done|].
  destruct (0 <? 0 + Z.pos (Pos.of_succ_nat (length l))) eqn:E; [done|].
  apply Z.ltb_ge in E. lia.
Qed.

(** C6: [calculate_average_age] returns, without changing the store.
    When no member is an instance of [DeceasedPerson] it returns the
    [int] [0].  Otherwise it returns the arithmetic mean as Python's
    arithmetic gives it: the sum of [(death_date - birth_date).days //
    365] over the members that are instances of [DeceasedPerson], an
    integer, divided by their number with the true division [/], which
    yields a [float].  Members of the other classes add nothing to the
    sum or to the count. *)
Theorem calculate_average_age_spec `{Arith} σ :
  wf σ →
  calculate_average_age σ
  = Some (if decide (deceased_ages σ = []) then Int 0
          else Float (truediv (total (deceased_ages σ))
                              (Z.of_nat (length (deceased_ages σ)))), σ).
Proof. intros Hwf. by rewrite calculate_average_age_eq. Qed.

Lemma calculate_average_age_spec_witness :
  wf seed_state ∧
  deceased_ages seed_state = [54; 69; 68; 62; 72] ∧
  @calculate_average_age binary64 seed_state
  = Some (@Float binary64 65%float, seed_state).
Proof.
  assert (Hd : deceased_ages seed_state = [54; 69; 68; 62; 72])
    by (vm_compute; reflexivity).
  split; [exact wf_seed|]. split; [exact Hd|].
  rewrite (@calculate_average_age_spec binary64 seed_state wf_seed), Hd.
  vm_compute. reflexivity.
Defined.

(** ** Grouping under keys *)

Section grouping.
Context {K X : Type} `{EqDecision K}.

Lemma vals_cons (k : K) (e : K * X) (es : list (K * X)) :
  vals k (e :: es)
  = if decide (e.1 = k) then e.2 :: vals k es else vals k es.
Proof.
  unfold vals. rewrite filter_cons. by destruct (decide (e.1 = k)).
Qed.

Lemma get_dd_append (k k' : K) (x : X) (d : list (K * list X)) :
  pydict.get (pydict.dd_append k x d) k'
  = if decide (k = k') then Some (default [] (pydict.get d k) ++ [x])
    else pydict.get d k'.
Proof.
  induction d as [|[k0 xs] d IH]; simpl.
  - destruct (decide (k = k')); done.
  - destruct (decide (k0 = k)) as [->|Hne]; simpl.
    + destruct (decide (k = k')); done.
    + destruct (decide (k0 = k')) as [->|Hne'].
      * destruct (decide (k = k')); [congruence|done].
      * apply IH.
Qed.

Lemma keys_dd_append (k : K) (x : X) (d : list (K * list X)) :
  pydict.keys (pydict.dd_append k x d)
  = if decide (k ∈ pydict.keys d) then pydict.keys d
    else pydict.keys d ++ [k].
Proof.
  unfold pydict.keys. induction d as [|[k0 xs] d IH]; csimpl.
  - done.
  - destruct (decide (k0 = k)) as [->|Hne]; csimpl.
    + clear IH. destruct (decide (k ∈ k :: d.*1)) as [|Hn]; [done|].
      exfalso. apply Hn. by left.
    + rewrite IH. clear IH. destruct (decide (k ∈ d.*1)) as [Hin|Hn].
      * destruct (decide (k ∈ k0 :: d.*1)) as [|Hn']; [done|].
        exfalso. apply Hn'. by right.
      * destruct (decide (k ∈ k0 :: d.*1)) as [Hin'|]; [|done].
        apply elem_of_cons in Hin' as [->|?]; done.
Qed.

Lemma NoDup_dd_append (k : K) (x : X) (d : list (K * list X)) :
  NoDup (pydict.keys d) → NoDup (pydict.keys (pydict.dd_append k x d)).
Proof.
  intros Hnd. rewrite keys_dd_append.
  destruct (decide (k ∈ pydict.keys d)) as [|Hn]; [done|].
  apply NoDup_app. split; [done|]. split; [|apply NoDup_singleton].
  intros y Hy Hy'. apply list_elem_of_singleton in Hy' as ->. done.
Qed.

Lemma NoDup_group_into (d : list (K * list X)) (es : list (K * X)) :
  NoDup (pydict.keys d) → NoDup (pydict.keys (group_into d es)).
Proof.
  unfold group_into. revert d.
  induction es as [|e es IH]; intros d Hnd; simpl; [done|].
  apply IH. by apply NoDup_dd_append.
Qed.

Lemma get_group_into (d : list (K * list X)) (es : list (K * X)) (k : K) :
  pydict.get (group_into d es) k
  = match pydict.get d k with
    | Some xs => Some (xs ++ vals k es)
    | None => if decide (vals k es = []) then None else Some (vals k es)
    end.
Proof.
  unfold group_into. revert d.
  induction es as [|[k0 x] es IH]; intros d; simpl.
  - unfold vals. simpl. destruct (pydict.get d k); [|done].
    by rewrite app_nil_r.
  - rewrite IH, get_dd_append, vals_cons.
    simpl. destruct (decide (k0 = k)) as [->|Hne]; [|done].
    destruct (pydict.get d k) as [xs|]; simpl.
    + by rewrite <- app_assoc.
    + by destruct (decide (x :: vals k es = [])).
Qed.

End grouping.

(** ** Birthday calendar *)

#[global] Instance item_le_trans {V} : Transitive (@item_le V).
Proof. intros x y z. unfold item_le, key_le. lia. Qed.

#[global] Instance item_le_total {V} : Total (@item_le V).
Proof. intros x y. unfold item_le, key_le. lia. Qed.

Lemma key_le_lt (a b : Z * Z) : key_le a b → a ≠ b → key_lt a b.
Proof.
  destruct a as [a1 a2], b as [b1 b2]. unfold key_le, key_lt. simpl.
  intros H Hne. destruct (decide (a1 = b1 ∧ a2 = b2)) as [[-> ->]|]; [done|].
  lia.
Qed.

Lemma sorted_keys_lt {V} (l : list ((Z * Z) * V)) :
  StronglySorted item_le l → NoDup l.*1 → StronglySorted key_lt l.*1.
Proof.
  induction 1 as [|a l Hs IH Hall]; csimpl; intros Hnd.
  - constructor.
  - apply NoDup_cons in Hnd as [Ha Hnd]. constructor; [by apply IH|].
    apply Forall_fmap, Forall_forall. intros b Hb. simpl.
    rewrite Forall_forall in Hall. apply key_le_lt; [by apply Hall|].
    intros Heq. apply Ha. rewrite Heq. by apply list_elem_of_fmap_2.
Qed.

Lemma foldl_omap {A B C} (g : A → option B) (step : C → B → C)
    (xs : list A) (acc : C) :
  foldl (λ acc x, match g x with Some e => step acc e | None => acc end)
        acc xs
  = foldl step acc (omap g xs).
Proof.
  revert acc. induction xs as [|x xs IH]; intros acc; csimpl; [done|].
  rewrite IH. by destruct (g x).
Qed.

Lemma vals_entries σ k : vals k (entries σ) = names_born_on σ k.
Proof.
  unfold entries, names_born_on.
  induction (pydict.values (members (family_tree σ))) as [|p ps IH];
    csimpl; [done|].
  destruct (objs σ !! p) as [o|]; csimpl; [|done].
  rewrite vals_cons, IH. simpl. by destruct (decide (birthday_key o = k)).
Qed.

Lemma get_birthdays_calendar_eq σ :
  wf σ →
  get_birthdays_calendar σ
  = Some (pydict.of_items (sorted_items (group_into [] (entries σ))), σ).
Proof.
  intros Hwf. unfold get_birthdays_calendar.
  erewrite bind_Some; [|reflexivity].
  erewrite bind_Some; [reflexivity|].
  unfold group_into, entries. rewrite <- foldl_omap.
  apply (foldM_read _ (λ cal p,
           match o ← objs σ !! p; Some (birthday_key o, _name o) with
           | Some e => pydict.dd_append e.1 e.2 cal
           | None => cal
           end)).
  intros cal person Hin.
  apply list_elem_of_fmap in Hin as ([n q] & -> & Hin).
  destruct (wf_member σ n q Hwf Hin) as [o Ho]. simpl.
  assert (Hb : ∀ B (k : date → M B),
            (b <- birth_date q ;; k b) σ = k (_birth_date o) σ).
  { intros B k. unfold birth_date.
    erewrite bind_Some;
      [reflexivity|erewrite bind_Some; [reflexivity|by apply get_obj_Some]]. }
  rewrite Hb. unfold truthy. rewrite Hb, Hb. unfold name.
  erewrite bind_Some;
    [|erewrite bind_Some; [reflexivity|by apply get_obj_Some]].
  by rewrite Ho.
Qed.

(** C7: [get_birthdays_calendar] returns, without changing the store, a
    dictionary whose keys [(month, day)] are in strictly ascending order
    and in which the entry of a key lists the names of the members born
    on that month and day, in registry order; every member is listed
    under the key of its birth date.  For the seed data the keys of the
    members are 05/20, 08/15, 04/10, 06/05, 06/05, 03/22, 11/12, 02/28,
    the first key of the calendar is (2, 28) and the last (11, 12). *)
Theorem get_birthdays_calendar_spec σ :
  wf σ →
  (∃ cal,
     get_birthdays_calendar σ = Some (cal, σ) ∧
     StronglySorted key_lt (pydict.keys cal) ∧
     (∀ k names, (k, names) ∈ cal ↔
        names ≠ [] ∧ names = names_born_on σ k) ∧
     (∀ n p o, (n, p) ∈ members (family_tree σ) → objs σ !! p = Some o →
        ∃ names, (birthday_key o, names) ∈ cal ∧ _name o ∈ names)) ∧
  (∃ cal,
     get_birthdays_calendar seed_state = Some (cal, seed_state) ∧
     (entries seed_state).*1
     = [(5, 20); (8, 15); (4, 10); (6, 5); (6, 5); (3, 22); (11, 12);
        (2, 28)] ∧
     head (pydict.keys cal) = Some (2, 28) ∧
     last (pydict.keys cal) = Some (11, 12)).
Proof.
  intros Hwf. split.
  - set (g := group_into [] (entries σ)).
    assert (Hg : NoDup (pydict.keys g))
      by (apply NoDup_group_into; constructor).
    assert (Hperm : sorted_items g ≡ₚ g) by apply merge_sort_Permutation.
    assert (Hs : NoDup (pydict.keys (sorted_items g)))
      by (unfold pydict.keys; by rewrite Hperm).
    exists (sorted_items g).
    split; [rewrite get_birthdays_calendar_eq by done;
            fold g; by rewrite of_items_NoDup|].
    split; [apply sorted_keys_lt;
            [apply StronglySorted_merge_sort; apply _|done]|].
    assert (Hiff : ∀ k names, (k, names) ∈ sorted_items g ↔
              names ≠ [] ∧ names = names_born_on σ k).
    { intros k names. rewrite Hperm, (pydict_get_elem_of g k names Hg).
      unfold g. rewrite get_group_into, vals_entries. simpl.
      destruct (decide (names_born_on σ k = [])) as [He|Hne].
      - split; [done|]. intros [Hn ->]. done.
      - split; [by intros [= <-]|]. by intros [_ ->]. }
    split; [exact Hiff|].
    intros n p o Hin Ho. exists (names_born_on σ (birthday_key o)).
    assert (Hname : _name o ∈ names_born_on σ (birthday_key o)).
    { apply list_elem_of_omap. exists p. split.
      - apply list_elem_of_fmap. by exists (n, p).
      - rewrite Ho. simpl. by destruct (decide _). }
    split; [|done]. apply Hiff. split; [|done].
    intros He. rewrite He in Hname. by apply elem_of_nil in Hname.
  - eexists. split; [vm_compute; reflexivity|].
    split; [|split]; vm_compute; reflexivity.
Qed.

Lemma get_birthdays_calendar_spec_witness :
  wf seed_state ∧
  ∃ cal, get_birthdays_calendar seed_state = Some (cal, seed_state) ∧
         StronglySorted key_lt (pydict.keys cal) ∧
         ((6, 5), ["Raj Singh"; "Maria MÃ¼ller"]) ∈ cal.
Proof.
  split; [exact wf_seed|].
  destruct (get_birthdays_calendar_spec seed_state wf_seed)
    as [(cal & He & Hs & Hiff & _) _].
  exists cal. split; [exact He|]. split; [exact Hs|].
  apply Hiff. split; [done|]. vm_compute. reflexivity.
Defined.

(** ** The link-establishing operations *)

Lemma set_obj_Some σ p f o :
  objs σ !! p = Some o →
  set_obj p f σ
  = Some (tt, mkState (<[p := f o]> (objs σ)) (lsts σ) (family_tree σ)).
Proof. intros H. unfold set_obj. by rewrite H. Qed.

Lemma set_obj_inv σ σ' p f :
  set_obj p f σ = Some (tt, σ') →
  ∃ o, objs σ !! p = Some o ∧
       σ' = mkState (<[p := f o]> (objs σ)) (lsts σ) (family_tree σ).
Proof.
  unfold set_obj. destruct (objs σ !! p) as [o|]; [|done].
  intros [= <-]. by exists o.
Qed.

Lemma spouse_of_insert (m : gmap positive Person) p o q l ft :
  spouse_of (mkState (<[p := o]> m) l ft) q
  = if decide (p = q) then _spouse o else spouse_of (mkState m l ft) q.
Proof.
  unfold spouse_of. simpl. rewrite lookup_insert.
  by destruct (decide (p = q)).
Qed.

(** What one spouse assignment does to the store. *)
Lemma spouse_setter_spec σ a b :
  allocated σ a → allocated σ b →
  ∃ σ', spouse_setter a b σ = Some (tt, σ') ∧
    lsts σ' = lsts σ ∧ family_tree σ' = family_tree σ ∧
    (∀ q, spouse_of σ' q
          = if decide (q = b) then Some a
            else if decide (q = a) then Some b else spouse_of σ q) ∧
    (∀ q, q ≠ a → q ≠ b → objs σ' !! q = objs σ !! q) ∧
    (∀ q o, objs σ !! q = Some o →
       ∃ o', objs σ' !! q = Some o' ∧
             with_spouse None o' = with_spouse None o).
Proof.
  intros [oa Ha] [ob Hb]. unfold spouse_setter.
  set (σ1 := mkState (<[a := with_spouse (Some b) oa]> (objs σ)) (lsts σ)
                     (family_tree σ)).
  assert (H1 : ∃ ob', objs σ1 !! b = Some ob' ∧
                      with_spouse None ob' = with_spouse None ob).
  { unfold σ1. simpl. rewrite lookup_insert.
    destruct (decide (a = b)) as [->|]; [|by exists ob].
    exists (with_spouse (Some b) oa). split; [done|].
    rewrite Ha in Hb. by injection Hb as ->. }
  destruct H1 as (ob' & Hb' & Hsame).
  eexists. split.
  { erewrite bind_Some; [|by apply set_obj_Some]. by apply set_obj_Some. }
  simpl. split; [done|]. split; [done|]. split; [|split].
  - intros q. rewrite spouse_of_insert. simpl.
    destruct (decide (b = q)) as [->|];
      [by destruct (decide (q = q))|].
    destruct (decide (q = b)); [congruence|].
    rewrite spouse_of_insert. simpl.
    destruct (decide (a = q)) as [Heq|Hne];
      destruct (decide (q = a)); done || congruence.
  - intros q Hqa Hqb. by rewrite !lookup_insert_ne.
  - intros q o Hq. rewrite lookup_insert.
    destruct (decide (b = q)) as [->|].
    + eexists. split; [done|]. unfold with_spouse in *. simpl.
      rewrite Hq in Hb. injection Hb as ->. simpl in Hsame. congruence.
    + rewrite lookup_insert. destruct (decide (a = q)) as [->|].
      * eexists. split; [done|]. rewrite Hq in Ha. by injection Ha as ->.
      * by exists o.
Qed.

(** C10: the spouse setter returns; it leaves the lists, the registry
    and every person other than [p] and [c] as they were, and changes of
    [p] and [c] nothing but [_spouse].  Afterwards [p] and [c] are linked
    to each other, and a former spouse [b] of [p], other than [p] and
    [c], is still linked to [p] while [p] is no longer linked to [b]. *)
Theorem spouse_setter_remarriage σ p c :
  allocated σ p → allocated σ c →
  ∃ σ', spouse_setter p c σ = Some (tt, σ') ∧
    spouse_of σ' p = Some c ∧ spouse_of σ' c = Some p ∧
    lsts σ' = lsts σ ∧ family_tree σ' = family_tree σ ∧
    (∀ q, q ≠ p → q ≠ c → objs σ' !! q = objs σ !! q) ∧
    (∀ q o, objs σ !! q = Some o →
       ∃ o', objs σ' !! q = Some o' ∧
             with_spouse None o' = with_spouse None o) ∧
    (∀ b, b ≠ p → b ≠ c →
       spouse_of σ p = Some b → spouse_of σ b = Some p →
       spouse_of σ' b = Some p ∧ spouse_of σ' p ≠ Some b).
Proof.
  intros Hp Hc.
  destruct (spouse_setter_spec σ p c Hp Hc)
    as (σ' & Hrun & Hl & Hft & Hsp & Hother & Hsame).
  exists σ'. split; [done|].
  assert (Hpc : spouse_of σ' p = Some c).
  { rewrite Hsp. destruct (decide (p = c)) as [->|]; [done|].
    by destruct (decide (p = p)). }
  split; [done|].
  split; [rewrite Hsp; by destruct (decide (c = c))|].
  do 4 (split; [done|]).
  intros b Hbp Hbc Hpb Hbsp. split.
  - rewrite Hsp. destruct (decide (b = c)); [done|].
    by destruct (decide (b = p)).
  - rewrite Hpc. congruence.
Qed.

Lemma spouse_setter_remarriage_witness :
  spouse_of seed_state 1%positive = Some 2%positive ∧
  spouse_of seed_state 2%positive = Some 1%positive ∧
  ∃ σ', spouse_setter 1%positive 6%positive seed_state = Some (tt, σ') ∧
        spouse_of σ' 1%positive = Some 6%positive ∧
        spouse_of σ' 6%positive = Some 1%positive ∧
        spouse_of σ' 2%positive = Some 1%positive.
Proof.
  assert (H1 : allocated seed_state 1%positive) by by_compute.
  assert (H6 : allocated seed_state 6%positive) by by_compute.
  assert (H12 : spouse_of seed_state 1%positive = Some 2%positive)
    by (vm_compute; reflexivity).
  assert (H21 : spouse_of seed_state 2%positive = Some 1%positive)
    by (vm_compute; reflexivity).
  split; [exact H12|]. split; [exact H21|].
  destruct (spouse_setter_remarriage seed_state 1%positive 6%positive H1 H6)
    as (σ' & Hrun & Ha & Hb & _ & _ & _ & _ & Hold).
  exists σ'. split; [exact Hrun|]. split; [exact Ha|]. split; [exact Hb|].
  apply (Hold 2%positive); [discriminate|discriminate|exact H12|exact H21].
Defined.

(** ** The loops of [set_parents] and [set_children] *)

Lemma append_self_inv attr self x σ σ' :
  append_self attr self x σ = Some (tt, σ') →
  ∃ o cs, objs σ !! x = Some o ∧ lsts σ !! attr o = Some cs ∧
          σ' = mkState (objs σ) (<[attr o := cs ++ [self]]> (lsts σ))
                       (family_tree σ).
Proof.
  unfold append_self, bind, get_obj, list_append.
  destruct (objs σ !! x) as [o|] eqn:Ho; [|done].
  destruct (lsts σ !! attr o) as [cs|] eqn:Hcs; [|done].
  intros [= <-]. by exists o, cs.
Qed.

(** The loop only ever appends to lists; when it returns, every person
    at a position from [i] on in the list it walked holds [self] in its
    [attr] list. *)
Lemma for_in_append attr self l fuel :
  ∀ i σ σ',
    for_in fuel l i (append_self attr self) σ = Some (tt, σ') →
    objs σ' = objs σ ∧ family_tree σ' = family_tree σ ∧
    (∀ l0 xs, lsts σ !! l0 = Some xs →
       ∃ ys, lsts σ' !! l0 = Some (xs ++ ys)) ∧
    (∀ xs' j x, lsts σ' !! l = Some xs' → (i ≤ j)%nat → xs' !! j = Some x →
       ∃ o cs, objs σ !! x = Some o ∧ lsts σ' !! attr o = Some cs ∧
               self ∈ cs).
Proof.
  induction fuel as [|fuel IH]; intros i σ σ' Hrun; simpl in Hrun; [done|].
  apply bind_inv in Hrun as (xs0 & σ0 & Hget & Hrun).
  unfold get_list in Hget.
  destruct (lsts σ !! l) as [xs|] eqn:Hl; [|done].
  injection Hget as <- <-.
  destruct (xs !! i) as [x|] eqn:Hi.
  - apply bind_inv in Hrun as ([] & σ1 & Hbody & Hrun).
    apply append_self_inv in Hbody as (o & cs & Ho & Hcs & ->).
    destruct (IH _ _ _ Hrun) as (Hobjs & Hft & Happ & Hvis). simpl in *.
    assert (Happ' : ∀ l0 xs1, lsts σ !! l0 = Some xs1 →
              ∃ ys, lsts σ' !! l0 = Some (xs1 ++ ys)).
    { intros l0 xs1 Hl0. destruct (decide (attr o = l0)) as [<-|Hne].
      - destruct (Happ (attr o) (cs ++ [self])) as [ys Hys];
          [by rewrite lookup_insert_eq|].
        exists ([self] ++ ys). rewrite Hys. f_equal.
        rewrite Hcs in Hl0. injection Hl0 as ->. by rewrite <- app_assoc.
      - apply Happ. by rewrite lookup_insert_ne. }
    split; [done|]. split; [done|]. split; [exact Happ'|].
    intros xs' j y Hl' Hij Hj.
    destruct (decide (j = i)) as [->|Hne].
    + destruct (Happ' l xs Hl) as [ys Hys].
      rewrite Hl' in Hys. injection Hys as ->.
      rewrite lookup_app_l in Hj by eauto using lookup_lt_Some.
      rewrite Hi in Hj. injection Hj as <-.
      destruct (Happ (attr o) (cs ++ [self])) as [ys' Hys'];
        [by rewrite lookup_insert_eq|].
      exists o, ((cs ++ [self]) ++ ys'). split; [done|]. split; [done|].
      rewrite !elem_of_app, list_elem_of_singleton. auto.
    + apply (Hvis xs' j y Hl'); [lia|done].
  - injection Hrun as <-. split; [done|]. split; [done|]. split.
    + intros l0 xs1 Hl0. exists []. by rewrite app_nil_r.
    + intros xs' j y Hl' Hij Hj. rewrite Hl in Hl'. injection Hl' as <-.
      apply lookup_ge_None in Hi. apply lookup_lt_Some in Hj. lia.
Qed.

(** With enough fuel the loop returns, provided the list it walks is
    not one of the lists it appends to. *)
Lemma for_in_total attr self l xs fuel :
  ∀ i σ,
    lsts σ !! l = Some xs →
    (∀ x, x ∈ xs → ∃ o, objs σ !! x = Some o ∧ attr o ≠ l ∧
                        is_Some (lsts σ !! attr o)) →
    (length xs - i < fuel)%nat →
    ∃ σ', for_in fuel l i (append_self attr self) σ = Some (tt, σ') ∧
          lsts σ' !! l = Some xs.
Proof.
  induction fuel as [|fuel IH]; intros i σ Hl Hxs Hfuel; [lia|]. simpl.
  erewrite bind_Some; [|by apply get_list_Some].
  destruct (xs !! i) as [x|] eqn:Hi; [|by exists σ].
  destruct (Hxs x) as (o & Ho & Hne & [cs Hcs]);
    [by eapply list_elem_of_lookup_2|].
  erewrite bind_Some; cycle 1.
  { unfold append_self. erewrite bind_Some; [|by apply get_obj_Some].
    unfold list_append. by rewrite Hcs. }
  apply IH; simpl.
  - by rewrite lookup_insert_ne.
  - intros y Hy. destruct (Hxs y Hy) as (oy & Hoy & Hney & Hsy).
    exists oy. split; [done|]. split; [done|].
    rewrite lookup_insert. by destruct (decide _).
  - apply lookup_lt_Some in Hi. lia.
Qed.

Lemma parents_of_eq σ p o :
  objs σ !! p = Some o → parents_of σ p = default [] (lsts σ !! _parents o).
Proof. intros H. unfold parents_of. by rewrite H. Qed.

Lemma children_of_eq σ p o :
  objs σ !! p = Some o →
  children_of σ p = default [] (lsts σ !! _children o).
Proof. intros H. unfold children_of. by rewrite H. Qed.

(** When [set_parents] returns, [self] is in the [children] list of
    every element of its [parents] list, whatever lists were shared. *)
Lemma set_parents_links fuel self l σ σ' :
  set_parents fuel self l σ = Some (tt, σ') →
  ∀ parent, parent ∈ parents_of σ' self → self ∈ children_of σ' parent.
Proof.
  unfold set_parents. intros Hrun.
  apply bind_inv in Hrun as ([] & σ0 & Hset & Hrun).
  apply set_obj_inv in Hset as (o & Ho & ->).
  apply (for_in_append _children self) in Hrun
    as (Hobjs & _ & _ & Hvis). simpl in *.
  intros parent.
  rewrite (parents_of_eq σ' self (with_parents l o))
    by (by rewrite Hobjs, lookup_insert_eq). simpl.
  destruct (lsts σ' !! l) as [xs'|] eqn:Hl; simpl;
    [|by intros ?%elem_of_nil].
  intros (j & Hj)%list_elem_of_lookup_1.
  destruct (Hvis xs' j parent eq_refl (Nat.le_0_l j) Hj)
    as (op & cs & Hop & Hcs & Hin).
  rewrite (children_of_eq σ' parent op) by (by rewrite Hobjs).
  by rewrite Hcs.
Qed.

(** When [set_children] returns, [self] is in the [parents] list of
    every element of its [children] list. *)
Lemma set_children_links fuel self l σ σ' :
  set_children fuel self l σ = Some (tt, σ') →
  ∀ child, child ∈ children_of σ' self → self ∈ parents_of σ' child.
Proof.
  unfold set_children. intros Hrun.
  apply bind_inv in Hrun as ([] & σ0 & Hset & Hrun).
  apply set_obj_inv in Hset as (o & Ho & ->).
  apply (for_in_append _parents self) in Hrun
    as (Hobjs & _ & _ & Hvis). simpl in *.
  intros child.
  rewrite (children_of_eq σ' self (with_children l o))
    by (by rewrite Hobjs, lookup_insert_eq). simpl.
  destruct (lsts σ' !! l) as [xs'|] eqn:Hl; simpl;
    [|by intros ?%elem_of_nil].
  intros (j & Hj)%list_elem_of_lookup_1.
  destruct (Hvis xs' j child eq_refl (Nat.le_0_l j) Hj)
    as (oc & cs & Hoc & Hcs & Hin).
  rewrite (parents_of_eq σ' child oc) by (by rewrite Hobjs).
  by rewrite Hcs.
Qed.

Lemma set_parents_total fuel self l xs σ :
  wf σ → allocated σ self → lsts σ !! l = Some xs → unshared σ l →
  (length xs < fuel)%nat →
  ∃ σ', set_parents fuel self l σ = Some (tt, σ') ∧
        parents_of σ' self = xs.
Proof.
  intros Hwf [o Ho] Hl Hun Hfuel. unfold set_parents.
  erewrite bind_Some; [|by apply set_obj_Some].
  set (σ0 := mkState _ _ _).
  destruct (for_in_total _children self l xs fuel 0%nat σ0)
    as (σ' & Hrun & Hl'); [done| |lia|].
  - intros x Hx. destruct (wf_list σ l xs x Hwf Hl Hx) as [ox Hox].
    unfold σ0. simpl. rewrite lookup_insert.
    destruct (decide (self = x)) as [<-|].
    + exists (with_parents l o). split; [done|]. simpl.
      split; [apply (Hun self o Ho)|apply (wf_obj σ self o Hwf Ho)].
    + exists ox. split; [done|].
      split; [apply (Hun x ox Hox)|apply (wf_obj σ x ox Hwf Hox)].
  - exists σ'. split; [exact Hrun|].
    apply (for_in_append _children self) in Hrun as (Hobjs & _).
    rewrite (parents_of_eq σ' self (with_parents l o))
      by (rewrite Hobjs; unfold σ0; simpl; by rewrite lookup_insert_eq).
    simpl. by rewrite Hl'.
Qed.

Lemma set_children_total fuel self l xs σ :
  wf σ → allocated σ self → lsts σ !! l = Some xs → unshared σ l →
  (length xs < fuel)%nat →
  ∃ σ', set_children fuel self l σ = Some (tt, σ') ∧
        children_of σ' self = xs.
Proof.
  intros Hwf [o Ho] Hl Hun Hfuel. unfold set_children.
  erewrite bind_Some; [|by apply set_obj_Some].
  set (σ0 := mkState _ _ _).
  destruct (for_in_total _parents self l xs fuel 0%nat σ0)
    as (σ' & Hrun & Hl'); [done| |lia|].
  - intros x Hx. destruct (wf_list σ l xs x Hwf Hl Hx) as [ox Hox].
    unfold σ0. simpl. rewrite lookup_insert.
    destruct (decide (self = x)) as [<-|].
    + exists (with_children l o). split; [done|]. simpl.
      split; [apply (Hun self o Ho)|apply (wf_obj σ self o Hwf Ho)].
    + exists ox. split; [done|].
      split; [apply (Hun x ox Hox)|apply (wf_obj σ x ox Hwf Hox)].
  - exists σ'. split; [exact Hrun|].
    apply (for_in_append _parents self) in Hrun as (Hobjs & _).
    rewrite (children_of_eq σ' self (with_children l o))
      by (rewrite Hobjs; unfold σ0; simpl; by rewrite lookup_insert_eq).
    simpl. by rewrite Hl'.
Qed.

(** A single call of [set_parents] or [set_children] with a list that
    is not yet a person's list and fuel for its length returns, with
    that list as [self.parents] and [self] in the [children] list of
    each parent, respectively as [self.children] and [self] in the
    [parents] list of each child; and the links of the members of the
    seed registry mirror each other. *)
Lemma back_links_established fuel self l xs σ :
  wf σ → allocated σ self → lsts σ !! l = Some xs → unshared σ l →
  (length xs < fuel)%nat →
  (∃ σ', set_parents fuel self l σ = Some (tt, σ') ∧
         parents_of σ' self = xs ∧
         ∀ parent, parent ∈ parents_of σ' self →
                   self ∈ children_of σ' parent) ∧
  (∃ σ', set_children fuel self l σ = Some (tt, σ') ∧
         children_of σ' self = xs ∧
         ∀ child, child ∈ children_of σ' self →
                  self ∈ parents_of σ' child) ∧
  (∀ n p parent,
     (n, p) ∈ members (family_tree seed_state) →
     parent ∈ parents_of seed_state p →
     p ∈ children_of seed_state parent) ∧
  (∀ n p child,
     (n, p) ∈ members (family_tree seed_state) →
     child ∈ children_of seed_state p →
     p ∈ parents_of seed_state child).
Proof.
  intros Hwf Hself Hl Hun Hfuel. split; [|split; [|split]].
  - destruct (set_parents_total fuel self l xs σ) as (σ' & Hrun & Hp);
      [done..|].
    exists σ'. eauto using set_parents_links.
  - destruct (set_children_total fuel self l xs σ) as (σ' & Hrun & Hc);
      [done..|].
    exists σ'. eauto using set_children_links.
  - assert (Hseed : members_back_linked seed_state) by by_compute.
    intros n p parent Hin Hpar. unfold members_back_linked in Hseed.
    rewrite Forall_forall in Hseed. specialize (Hseed (n, p) Hin).
    rewrite Forall_forall in Hseed. by apply Hseed.
  - assert (Hseed : members_forward_linked seed_state) by by_compute.
    intros n p child Hin Hch. unfold members_forward_linked in Hseed.
    rewrite Forall_forall in Hseed. specialize (Hseed (n, p) Hin).
    rewrite Forall_forall in Hseed. by apply Hseed.
Qed.

Lemma back_links_established_witness :
  wf seed_with_list ∧
  lsts seed_with_list !! 21%positive = Some [3; 4]%positive ∧
  unshared seed_with_list 21%positive ∧
  (∃ σ', set_parents 3 8%positive 21%positive seed_with_list = Some (tt, σ')
         ∧ parents_of σ' 8%positive = [3; 4]%positive
         ∧ ∀ parent, parent ∈ parents_of σ' 8%positive →
                     8%positive ∈ children_of σ' parent) ∧
  (∀ parent, parent ∈ parents_of seed_state 7%positive →
             7%positive ∈ children_of seed_state parent).
Proof.
  assert (Hwf : wf seed_with_list) by by_compute.
  assert (Ha : allocated seed_with_list 8%positive) by by_compute.
  assert (Hl : lsts seed_with_list !! 21%positive = Some [3; 4]%positive)
    by (vm_compute; reflexivity).
  assert (Hun : unshared seed_with_list 21%positive) by by_compute.
  assert (Hf : (length [3; 4]%positive < 3)%nat) by (simpl; lia).
  assert (Hm : ("Lucas Emmersohn", 7%positive)
               ∈ members (family_tree seed_state)) by by_compute.
  destruct (back_links_established 3 8%positive 21%positive
              [3; 4]%positive seed_with_list Hwf Ha Hl Hun Hf)
    as (Hsp & _ & Hseed & _).
  split; [exact Hwf|]. split; [exact Hl|]. split; [exact Hun|].
  split; [exact Hsp|].
  intros parent. exact (Hseed "Lucas Emmersohn" 7%positive parent Hm).
Defined.

(** ** Spouse links along a construction script *)

Lemma spouse_of_objs σ σ' q :
  objs σ' = objs σ → spouse_of σ' q = spouse_of σ q.
Proof. intros H. unfold spouse_of. by rewrite H. Qed.

Lemma spouse_of_set_obj σ p f o q :
  objs σ !! p = Some o → _spouse (f o) = _spouse o →
  spouse_of (mkState (<[p := f o]> (objs σ)) (lsts σ) (family_tree σ)) q
  = spouse_of σ q.
Proof.
  intros Ho Hf. rewrite spouse_of_insert.
  destruct (decide (p = q)) as [<-|]; [|done].
  unfold spouse_of. by rewrite Ho, Hf.
Qed.

(** Creating persons and lists and linking parents and children leave
    every spouse link as it is. *)
Lemma run_op_spouse_of op σ σ' q :
  (∀ a b, op ≠ SetSpouse a b) →
  run_op op σ = Some (tt, σ') →
  spouse_of σ' q = spouse_of σ q.
Proof.
  intros Hop Hrun. destruct op as [c n b|xs|fuel self l|fuel self l|a b];
    simpl in Hrun.
  - unfold new_person, new_list, bind, ret in Hrun. simpl in Hrun.
    injection Hrun as <-. rewrite spouse_of_insert. simpl.
    destruct (decide _) as [<-|]; [|done].
    unfold spouse_of. symmetry.
    pose proof (is_fresh (dom (objs σ))) as Hf.
    apply not_elem_of_dom in Hf. by rewrite Hf.
  - unfold new_list, bind, ret in Hrun. by injection Hrun as <-.
  - unfold set_parents in Hrun.
    apply bind_inv in Hrun as ([] & σ0 & Hset & Hrun).
    apply set_obj_inv in Hset as (o & Ho & ->).
    apply (for_in_append _children self) in Hrun as (Hobjs & _).
    rewrite (spouse_of_objs _ _ q Hobjs). by apply spouse_of_set_obj.
  - unfold set_children in Hrun.
    apply bind_inv in Hrun as ([] & σ0 & Hset & Hrun).
    apply set_obj_inv in Hset as (o & Ho & ->).
    apply (for_in_append _parents self) in Hrun as (Hobjs & _).
    rewrite (spouse_of_objs _ _ q Hobjs). by apply spouse_of_set_obj.
  - by destruct (Hop a b).
Qed.

Lemma spouse_setter_allocated σ σ' a b :
  spouse_setter a b σ = Some (tt, σ') → allocated σ a ∧ allocated σ b.
Proof.
  unfold spouse_setter. intros Hrun.
  apply bind_inv in Hrun as ([] & σ0 & Hset & Hrun).
  apply set_obj_inv in Hset as (oa & Ha & ->).
  apply set_obj_inv in Hrun as (ob & Hb & _). simpl in Hb.
  split; [by exists oa|].
  rewrite lookup_insert in Hb.
  destruct (decide (a = b)) as [<-|]; [by exists oa|by exists ob].
Qed.

Lemma spouse_symmetric_step op σ σ' :
  spouse_symmetric σ → op_guard op σ → run_op op σ = Some (tt, σ') →
  spouse_symmetric σ'.
Proof.
  intros Hsym Hguard Hrun.
  destruct op as [c n b0|xs|fuel self l|fuel self l|a b].
  1-4: match type of Hrun with
       | run_op ?op _ = _ =>
           assert (Hop : ∀ a b, op ≠ SetSpouse a b) by (intros ? ?; discriminate);
           intros p s; rewrite !(run_op_spouse_of op σ σ' _ Hop Hrun);
           apply Hsym
       end.
  - simpl in Hrun, Hguard. destruct Hguard as [Hga Hgb].
    destruct (spouse_setter_allocated _ _ _ _ Hrun) as [Ha Hb].
    destruct (spouse_setter_spec σ a b Ha Hb) as (σ'' & Hrun' & _ & _ & Hsp & _).
    rewrite Hrun in Hrun'. injection Hrun' as <-.
    intros p s. rewrite !Hsp.
    destruct (decide (p = b)) as [->|Hpb].
    + intros [= <-]. destruct (decide (a = b)) as [->|]; [done|].
      by destruct (decide (a = a)).
    + destruct (decide (p = a)) as [->|Hpa].
      * intros [= <-]. by destruct (decide (b = b)).
      * intros Hps. pose proof (Hsym p s Hps) as Hsp'.
        destruct (decide (s = b)) as [->|];
          [destruct Hgb as [Hgb|Hgb]; congruence|].
        destruct (decide (s = a)) as [->|];
          [destruct Hga as [Hga|Hga]; congruence|done].
Qed.

Lemma spouse_symmetric_b_spec σ : spouse_symmetric_b σ → spouse_symmetric σ.
Proof.
  intros H p s Hps. unfold spouse_of in Hps.
  destruct (objs σ !! p) as [o|] eqn:Ho; [|done]. simpl in Hps.
  specialize (H p o Ho). simpl in H. by rewrite Hps in H.
Qed.

(** C2, as stated, fails: after Anna is linked to Bert and then to
    Carl, Bert's spouse is Anna and Anna's spouse is Carl. *)
Lemma spouse_symmetry_counterexample :
  ¬ (∀ ops σ', run_ops ops empty_state = Some (tt, σ') →
               spouse_symmetric σ').
Proof.
  intros H.
  assert (Hrun : run_ops remarriage empty_state = Some (tt, remarried_state))
    by (vm_compute; reflexivity).
  specialize (H remarriage remarried_state Hrun 2%positive 1%positive).
  assert (H21 : spouse_of remarried_state 2%positive = Some 1%positive)
    by (vm_compute; reflexivity).
  assert (H13 : spouse_of remarried_state 1%positive = Some 3%positive)
    by (vm_compute; reflexivity).
  specialize (H H21). rewrite H13 in H. clear -H. by injection H.
Qed.

(** C2, amended: along a sequence of link-establishing operations whose
    spouse assignments are each made between two persons neither of
    whom is linked to a third one, the symmetry of the spouse links is
    kept; after it a single spouse assignment returns and leaves the two
    persons linked to each other.  The spouse links of the seed store
    are symmetric. *)
Theorem spouse_symmetric_guarded ops σ σ' :
  spouse_symmetric σ → guarded ops σ →
  run_ops ops σ = Some (tt, σ') →
  spouse_symmetric σ' ∧
  (∀ a b, allocated σ' a → allocated σ' b →
     ∃ σ'', spouse_setter a b σ' = Some (tt, σ'') ∧
            spouse_of σ'' a = Some b ∧ spouse_of σ'' b = Some a) ∧
  spouse_symmetric seed_state.
Proof.
  intros Hsym Hg Hrun. split; [|split].
  - revert σ Hsym Hg Hrun.
    induction ops as [|op ops IH]; intros σ Hsym Hg Hrun; simpl in *.
    + by injection Hrun as <-.
    + apply bind_inv in Hrun as ([] & σ1 & Hop & Hrun).
      destruct Hg as [Hguard Hg]. rewrite Hop in Hg.
      eauto using spouse_symmetric_step.
  - intros a b Ha Hb.
    destruct (spouse_setter_spec σ' a b Ha Hb)
      as (σ'' & Hs & _ & _ & Hsp & _).
    exists σ''. split; [done|]. rewrite !Hsp. split.
    + destruct (decide (a = b)) as [->|]; [done|].
      by destruct (decide (a = a)).
    + by destruct (decide (b = b)).
  - apply spouse_symmetric_b_spec. by_compute.
Qed.

Lemma spouse_symmetric_guarded_witness :
  spouse_symmetric seed_state ∧
  ∃ σ', run_ops [NewPerson LivingPerson "Mia Weber" (Date 1993 1 9);
                 SetSpouse 7 9]%positive seed_state = Some (tt, σ') ∧
        spouse_symmetric σ' ∧
        spouse_of σ' 7%positive = Some 9%positive ∧
        spouse_of σ' 9%positive = Some 7%positive.
Proof.
  set (ops := [NewPerson LivingPerson "Mia Weber" (Date 1993 1 9);
               SetSpouse 7 9]%positive).
  assert (Hsym : spouse_symmetric seed_state)
    by (apply spouse_symmetric_b_spec; by_compute).
  assert (Hg : guarded ops seed_state) by by_compute.
  destruct (run_ops ops seed_state) as [[[] σ']|] eqn:Hrun;
    [|by vm_compute in Hrun].
  split; [exact Hsym|]. exists σ'. split; [reflexivity|].
  split; [exact (proj1 (spouse_symmetric_guarded ops seed_state σ'
                          Hsym Hg Hrun))|].
  split.
  - assert (H : (x ← run_ops ops seed_state; spouse_of x.2 7%positive)
                = Some 9%positive) by (vm_compute; reflexivity).
    by rewrite Hrun in H.
  - assert (H : (x ← run_ops ops seed_state; spouse_of x.2 9%positive)
                = Some 7%positive) by (vm_compute; reflexivity).
    by rewrite Hrun in H.
Defined.

(** * Further properties of the program *)

(** ** Relationship methods *)

Lemma parents_of_unallocated σ p : objs σ !! p = None → parents_of σ p = [].
Proof. intros H. unfold parents_of. by rewrite H. Qed.

Lemma children_of_unallocated σ p :
  objs σ !! p = None → children_of σ p = [].
Proof. intros H. unfold children_of. by rewrite H. Qed.

Lemma links_consistent_spec σ :
  links_consistent σ →
  (∀ a b, b ∈ children_of σ a → a ∈ parents_of σ b) ∧
  (∀ a b, a ∈ parents_of σ b → b ∈ children_of σ a).
Proof.
  intros H. split.
  - intros a b Hb. destruct (objs σ !! a) as [o|] eqn:Ho.
    + destruct (H a o Ho) as [Hc _]. rewrite Forall_forall in Hc. auto.
    + rewrite children_of_unallocated in Hb by done.
      by apply elem_of_nil in Hb.
  - intros a b Ha. destruct (objs σ !! b) as [o|] eqn:Ho.
    + destruct (H b o Ho) as [_ Hp]. rewrite Forall_forall in Hp. auto.
    + rewrite parents_of_unallocated in Ha by done.
      by apply elem_of_nil in Ha.
Qed.

(** X1: [find_grandparents] returns, without changing the store, the
    parents lists of the parents, one after the other in the order of
    the parents list; a person is in it exactly when it is a parent of a
    parent, and one that is a parent of two entries of the parents list
    occurs at least twice. *)
Theorem find_grandparents_spec σ p :
  wf σ → allocated σ p →
  find_grandparents p σ = Some (parents_of σ p ≫= parents_of σ, σ) ∧
  (∀ q, q ∈ result_of (find_grandparents p) σ ↔
        ∃ parent, parent ∈ parents_of σ p ∧ q ∈ parents_of σ parent) ∧
  (∀ i j a b g,
     i ≠ j →
     parents_of σ p !! i = Some a → parents_of σ p !! j = Some b →
     g ∈ parents_of σ a → g ∈ parents_of σ b →
     ∃ l1 l2 l3,
       result_of (find_grandparents p) σ = l1 ++ g :: l2 ++ g :: l3).
Proof.
  intros Hwf Hp.
  assert (Hr : result_of (find_grandparents p) σ
               = parents_of σ p ≫= parents_of σ)
    by (unfold result_of; by rewrite find_grandparents_eq).
  split; [by apply find_grandparents_eq|]. rewrite Hr. split.
  - intros q. rewrite list_elem_of_bind.
    split; intros (y & ? & ?); by exists y.
  - intros i j a b g Hij Hi Hj Ha Hb.
    destruct (decide (i < j)%nat).
    + by eapply (bind_twice _ _ i j a b).
    + eapply (bind_twice _ _ j i b a); [lia|done..].
Qed.

Lemma find_grandparents_spec_witness :
  wf seed_state ∧ allocated seed_state 7%positive ∧
  find_grandparents 7%positive seed_state
  = Some ([3; 4; 5; 6]%positive, seed_state).
Proof.
  assert (Ha : allocated seed_state 7%positive) by by_compute.
  split; [exact wf_seed|]. split; [exact Ha|].
  destruct (find_grandparents_spec seed_state 7%positive wf_seed Ha)
    as [He _].
  rewrite He. vm_compute. reflexivity.
Defined.

(** X2: for a person whose parents list is empty, [find_grandparents],
    [find_siblings] and [find_cousins] return the empty list, and
    [find_immediate_family] returns exactly the spouse, if any, and the
    children. *)
Theorem no_parents_no_relatives σ p :
  wf σ → allocated σ p → parents_of σ p = [] →
  find_grandparents p σ = Some ([], σ) ∧
  find_siblings p σ = Some ([], σ) ∧
  find_cousins p σ = Some ([], σ) ∧
  ∀ q, q ∈ result_of (find_immediate_family p) σ ↔
       spouse_of σ p = Some q ∨ q ∈ children_of σ p.
Proof.
  intros Hwf Hp Hno.
  assert (Hs : siblings_set σ p = ∅).
  { apply set_eq. intros q. rewrite elem_of_siblings_set, Hno.
    split; [intros (_ & x & Hx & _); by apply elem_of_nil in Hx|].
    by intros ?%elem_of_empty. }
  split; [by rewrite find_grandparents_eq, Hno|].
  split; [by rewrite find_siblings_eq, Hs, elements_empty|].
  split; [by rewrite find_cousins_eq, Hno|].
  intros q. unfold result_of. rewrite find_immediate_family_eq by done.
  rewrite elem_of_elements, elem_of_immediate_set, Hno, Hs.
  split; [intros [H|[H|H]]; [by apply elem_of_nil in H
                             |by apply elem_of_empty in H|done]|auto].
Qed.

Lemma no_parents_no_relatives_witness :
  wf seed_state ∧ parents_of seed_state 3%positive = [] ∧
  find_siblings 3%positive seed_state = Some ([], seed_state) ∧
  find_cousins 3%positive seed_state = Some ([], seed_state).
Proof.
  assert (Ha : allocated seed_state 3%positive) by by_compute.
  assert (Hn : parents_of seed_state 3%positive = [])
    by (vm_compute; reflexivity).
  destruct (no_parents_no_relatives seed_state 3%positive wf_seed Ha Hn)
    as (_ & Hs & Hc & _).
  split; [exact wf_seed|]. split; [exact Hn|]. split; [exact Hs|exact Hc].
Defined.

(** X3: where parents and children lists mirror each other, being a
    sibling is symmetric: [q] is in [find_siblings(p)] exactly when [p]
    is in [find_siblings(q)]. *)
Theorem find_siblings_symmetric σ p q :
  wf σ → links_consistent σ → allocated σ p → allocated σ q →
  q ∈ result_of (find_siblings p) σ ↔ p ∈ result_of (find_siblings q) σ.
Proof.
  intros Hwf [Hfwd Hbwd]%links_consistent_spec Hp Hq.
  rewrite !result_of_find_siblings, !elem_of_elements,
    !elem_of_siblings_set by done.
  split; intros (Hne & parent & Hpar & Hch);
    (split; [done|]); exists parent; auto.
Qed.

Lemma find_siblings_symmetric_witness :
  wf seed_state ∧ links_consistent seed_state ∧
  8%positive ∈ result_of (find_siblings 7%positive) seed_state ∧
  7%positive ∈ result_of (find_siblings 8%positive) seed_state.
Proof.
  assert (Hl : links_consistent seed_state) by by_compute.
  assert (H7 : allocated seed_state 7%positive) by by_compute.
  assert (H8 : allocated seed_state 8%positive) by by_compute.
  assert (H78 : 8%positive ∈ result_of (find_siblings 7%positive) seed_state)
    by by_compute.
  split; [exact wf_seed|]. split; [exact Hl|]. split; [exact H78|].
  exact (proj1 (find_siblings_symmetric seed_state 7%positive 8%positive
                  wf_seed Hl H7 H8) H78).
Defined.

(** X4: whoever [find_cousins] or [find_immediate_family] returns and is
    an instance of [LivingPerson] is returned by [find_extended_family];
    a person that is neither in the immediate family, nor a sibling of a
    parent, nor a child of such a sibling is never returned, living or
    not. *)
Theorem find_extended_family_covers σ p :
  wf σ → allocated σ p →
  (∀ q, is_living σ q →
        q ∈ result_of (find_cousins p) σ ∨
        q ∈ result_of (find_immediate_family p) σ →
        q ∈ result_of (find_extended_family p) σ) ∧
  (∀ q, q ∉ result_of (find_immediate_family p) σ →
        (∀ parent, parent ∈ parents_of σ p →
           (q ∉ result_of (find_siblings parent) σ) ∧
           ∀ s, s ∈ result_of (find_siblings parent) σ →
                q ∉ children_of σ s) →
        q ∉ result_of (find_extended_family p) σ).
Proof.
  intros Hwf Hp.
  assert (Hext : ∀ q, q ∈ result_of (find_extended_family p) σ ↔
                      is_living σ q ∧ q ∈ extended_set σ p).
  { intros q. unfold result_of. rewrite find_extended_family_eq by done.
    rewrite list_elem_of_In, filter_In, <- list_elem_of_In.
    rewrite elem_of_elements, living_b_spec. tauto. }
  assert (Himm : ∀ q, q ∈ result_of (find_immediate_family p) σ ↔
                      q ∈ immediate_set σ p).
  { intros q. unfold result_of. rewrite find_immediate_family_eq by done.
    apply elem_of_elements. }
  split.
  - intros q Hliv Hq. apply Hext. split; [done|].
    apply elem_of_extended_set. destruct Hq as [Hq|Hq].
    + right. unfold result_of in Hq. rewrite find_cousins_eq in Hq by done.
      apply list_elem_of_bind in Hq as (parent & Hq & Hpar).
      apply list_elem_of_bind in Hq as (s & Hq & Hs).
      apply elem_of_elements in Hs. exists parent, s. auto.
    + left. by apply Himm.
  - intros q Hnimm Hno [_ Hq]%Hext.
    apply elem_of_extended_set in Hq as [Hq|(parent & s & Hpar & Hs & Hq)].
    + by apply Hnimm, Himm.
    + destruct (Hno parent Hpar) as [Hq1 Hq2].
      assert (Hs' : s ∈ result_of (find_siblings parent) σ).
      { rewrite result_of_find_siblings by eauto using parents_of_alloc.
        by apply elem_of_elements. }
      destruct Hq as [->|Hq]; [done|]. by apply (Hq2 s Hs').
Qed.

Lemma find_extended_family_covers_witness :
  wf seed_state ∧ is_living seed_state 8%positive ∧
  8%positive ∈ result_of (find_immediate_family 7%positive) seed_state ∧
  8%positive ∈ result_of (find_extended_family 7%positive) seed_state.
Proof.
  assert (Ha : allocated seed_state 7%positive) by by_compute.
  assert (Hl : is_living seed_state 8%positive) by by_compute.
  assert (Hi : 8%positive
               ∈ result_of (find_immediate_family 7%positive) seed_state)
    by by_compute.
  split; [exact wf_seed|]. split; [exact Hl|]. split; [exact Hi|].
  exact (proj1 (find_extended_family_covers seed_state 7%positive
                  wf_seed Ha) 8%positive Hl (or_intror Hi)).
Defined.

(** X5: [find_parents] hands out the list object that the person holds
    as [_parents], not a copy: an [append] made through the returned
    reference is an append to the person's parents. *)
Theorem find_parents_returns_own_list σ p x :
  wf σ → allocated σ p →
  ∃ l σ', find_parents p σ = Some (l, σ) ∧
          list_append l x σ = Some (tt, σ') ∧
          parents_of σ' p = parents_of σ p ++ [x].
Proof.
  intros Hwf [o Ho].
  destruct (wf_obj _ _ _ Hwf Ho) as ([xs Hxs] & _ & _).
  exists (_parents o). eexists. split; [|split].
  - unfold find_parents, parents.
    erewrite bind_Some; [reflexivity|by apply get_obj_Some].
  - unfold list_append. rewrite Hxs. reflexivity.
  - unfold parents_of. simpl. rewrite Ho. simpl.
    by rewrite lookup_insert_eq, Hxs.
Qed.

Lemma find_parents_returns_own_list_witness :
  wf seed_state ∧ parents_of seed_state 1%positive = [3; 4]%positive ∧
  ∃ l σ', find_parents 1%positive seed_state = Some (l, seed_state) ∧
          list_append l 6%positive seed_state = Some (tt, σ') ∧
          parents_of σ' 1%positive = [3; 4; 6]%positive.
Proof.
  assert (Ha : allocated seed_state 1%positive) by by_compute.
  assert (Hp : parents_of seed_state 1%positive = [3; 4]%positive)
    by (vm_compute; reflexivity).
  destruct (find_parents_returns_own_list seed_state 1%positive 6%positive
              wf_seed Ha) as (l & σ' & Hf & Hl & Hr).
  split; [exact wf_seed|]. split; [exact Hp|].
  exists l, σ'. split; [exact Hf|]. split; [exact Hl|].
  rewrite Hr, Hp. reflexivity.
Defined.

(** ** What [set_parents] and [set_children] do to the store *)

Lemma hits_cons attr σ l0 x xs :
  hits attr σ l0 (x :: xs)
  = ((if decide (attr_lid attr σ x = Some l0) then 1 else 0)
     + hits attr σ l0 xs)%nat.
Proof.
  unfold hits. rewrite filter_cons.
  by destruct (decide (attr_lid attr σ x = Some l0)).
Qed.

Lemma hits_objs attr σ σ' l0 xs :
  (∀ x, attr_lid attr σ' x = attr_lid attr σ x) →
  hits attr σ' l0 xs = hits attr σ l0 xs.
Proof.
  intros H. induction xs as [|x xs IH]; [done|].
  by rewrite !hits_cons, H, IH.
Qed.

Lemma hits_pos attr σ l0 x xs :
  x ∈ xs → attr_lid attr σ x = Some l0 → (0 < hits attr σ l0 xs)%nat.
Proof.
  intros Hx Hl. induction xs as [|y xs IH]; [by apply elem_of_nil in Hx|].
  rewrite hits_cons. apply elem_of_cons in Hx as [<-|Hx].
  - destruct (decide _); [lia|done].
  - specialize (IH Hx). lia.
Qed.

(** The loop, run on a list that is not one of the lists it appends to:
    every list gets one [self] appended for each entry of the walked
    list that holds it in [attr], and nothing else changes. *)
Lemma for_in_effect attr self l xs fuel :
  ∀ i σ,
    lsts σ !! l = Some xs →
    (∀ x, x ∈ xs → ∃ o, objs σ !! x = Some o ∧ attr o ≠ l ∧
                        is_Some (lsts σ !! attr o)) →
    (length xs - i < fuel)%nat →
    ∃ σ', for_in fuel l i (append_self attr self) σ = Some (tt, σ') ∧
          objs σ' = objs σ ∧ family_tree σ' = family_tree σ ∧
          ∀ l0, lsts σ' !! l0
                = (λ ys, ys ++ replicate (hits attr σ l0 (drop i xs)) self)
                  <$> lsts σ !! l0.
Proof.
  induction fuel as [|fuel IH]; intros i σ Hl Hxs Hfuel; [lia|]. simpl.
  erewrite bind_Some; [|by apply get_list_Some].
  destruct (xs !! i) as [x|] eqn:Hi.
  - destruct (Hxs x) as (o & Ho & Hne & [cs Hcs]);
      [by eapply list_elem_of_lookup_2|].
    erewrite bind_Some; cycle 1.
    { unfold append_self. erewrite bind_Some; [|by apply get_obj_Some].
      unfold list_append. by rewrite Hcs. }
    set (σ1 := mkState _ _ _).
    destruct (IH (S i) σ1) as (σ' & Hrun & Hobjs & Hft & Hlsts).
    + unfold σ1. simpl. by rewrite lookup_insert_ne.
    + intros y Hy. destruct (Hxs y Hy) as (oy & Hoy & Hney & Hsy).
      exists oy. split; [done|]. split; [done|].
      unfold σ1. simpl. rewrite lookup_insert. by destruct (decide _).
    + apply lookup_lt_Some in Hi. lia.
    + exists σ'. split; [done|]. split; [done|]. split; [done|].
      intros l0. rewrite Hlsts.
      rewrite (hits_objs attr σ σ1) by done.
      rewrite (drop_S xs x i Hi), hits_cons.
      assert (Hx : attr_lid attr σ x = Some (attr o))
        by (unfold attr_lid; by rewrite Ho).
      unfold σ1. simpl. rewrite lookup_insert.
      destruct (decide (attr o = l0)) as [Heq|Hne0];
        destruct (decide (attr_lid attr σ x = Some l0)) as [He|He];
        rewrite Hx in He; try congruence.
      * subst l0. rewrite Hcs. simpl. by rewrite <- app_assoc.
      * done.
  - exists σ. split; [done|]. split; [done|]. split; [done|].
    intros l0. apply lookup_ge_None in Hi. rewrite drop_ge by done.
    destruct (lsts σ !! l0); simpl; [|done]. by rewrite app_nil_r.
Qed.

(** X6: [set_parents], called with a list that is not yet a person's list
    and with fuel for its length, returns; afterwards [self._parents] is
    that list object, every list object has got one [self] appended for
    each entry of the list that holds it as [_children], and nothing
    else in the store has changed.  In particular no list ever loses an
    element, and [self] is appended to a parent's children even when it
    is there already. *)
Theorem set_parents_effect fuel self l xs σ :
  wf σ → allocated σ self → lsts σ !! l = Some xs → unshared σ l →
  (length xs < fuel)%nat →
  ∃ o σ',
    objs σ !! self = Some o ∧
    set_parents fuel self l σ = Some (tt, σ') ∧
    objs σ' = <[self := with_parents l o]> (objs σ) ∧
    family_tree σ' = family_tree σ ∧
    (∀ l0, lsts σ' !! l0
           = (λ ys, ys ++ replicate (hits _children σ l0 xs) self)
             <$> lsts σ !! l0) ∧
    (∀ parent, parent ∈ xs → self ∈ children_of σ parent →
       ∃ l1 l2 l3, children_of σ' parent = l1 ++ self :: l2 ++ self :: l3).
Proof.
  intros Hwf [o Ho] Hl Hun Hfuel. exists o.
  set (σ0 := mkState (<[self := with_parents l o]> (objs σ)) (lsts σ)
                     (family_tree σ)).
  assert (Hattr : ∀ x, attr_lid _children σ0 x = attr_lid _children σ x).
  { intros x. unfold attr_lid, σ0. simpl. rewrite lookup_insert.
    destruct (decide (self = x)) as [<-|]; [|done]. by rewrite Ho. }
  destruct (for_in_effect _children self l xs fuel 0%nat σ0)
    as (σ' & Hrun & Hobjs & Hft & Hlsts); [done| |lia|].
  { intros x Hx. destruct (wf_list σ l xs x Hwf Hl Hx) as [ox Hox].
    unfold σ0. simpl. rewrite lookup_insert.
    destruct (decide (self = x)) as [<-|].
    - exists (with_parents l o). split; [done|]. simpl.
      split; [apply (Hun self o Ho)|apply (wf_obj σ self o Hwf Ho)].
    - exists ox. split; [done|].
      split; [apply (Hun x ox Hox)|apply (wf_obj σ x ox Hwf Hox)]. }
  assert (Hlsts' : ∀ l0, lsts σ' !! l0
            = (λ ys, ys ++ replicate (hits _children σ l0 xs) self)
              <$> lsts σ !! l0).
  { intros l0. rewrite Hlsts, drop_0. by rewrite (hits_objs _ σ σ0). }
  exists σ'. split; [done|]. split.
  { unfold set_parents. erewrite bind_Some; [|by apply set_obj_Some].
    exact Hrun. }
  split; [done|]. split; [done|]. split; [exact Hlsts'|].
  intros parent Hpar Hin.
  destruct (wf_list σ l xs parent Hwf Hl Hpar) as [op Hop].
  assert (Hop' : ∃ op', objs σ' !! parent = Some op' ∧
                        _children op' = _children op).
  { rewrite Hobjs. unfold σ0. simpl. rewrite lookup_insert.
    destruct (decide (self = parent)) as [<-|]; [|by exists op].
    exists (with_parents l o). split; [done|]. simpl. congruence. }
  destruct Hop' as (op' & Hop' & Hsame).
  rewrite (children_of_eq σ' parent op' Hop'), Hsame, Hlsts'.
  rewrite (children_of_eq σ parent op Hop) in Hin.
  destruct (lsts σ !! _children op) as [cs|] eqn:Hcs; simpl in *;
    [|by apply elem_of_nil in Hin].
  apply list_elem_of_split in Hin as (u1 & u2 & ->).
  pose proof (hits_pos _children σ (_children op) parent xs Hpar) as Hpos.
  unfold attr_lid in Hpos. rewrite Hop in Hpos. specialize (Hpos eq_refl).
  destruct (hits _children σ (_children op) xs) as [|n]; [lia|].
  exists u1, u2, (replicate n self). simpl. by rewrite <- app_assoc.
Qed.

Lemma set_parents_effect_witness :
  wf seed_with_list ∧ unshared seed_with_list 21%positive ∧
  children_of seed_with_list 3%positive = [1]%positive ∧
  ∃ σ', set_parents 3 1%positive 21%positive seed_with_list = Some (tt, σ') ∧
        ∃ l1 l2 l3,
          children_of σ' 3%positive
          = l1 ++ 1%positive :: l2 ++ 1%positive :: l3.
Proof.
  assert (Hwf : wf seed_with_list) by by_compute.
  assert (Ha : allocated seed_with_list 1%positive) by by_compute.
  assert (Hl : lsts seed_with_list !! 21%positive = Some [3; 4]%positive)
    by (vm_compute; reflexivity).
  assert (Hun : unshared seed_with_list 21%positive) by by_compute.
  assert (Hf : (length [3; 4]%positive < 3)%nat) by (simpl; lia).
  assert (Hc : children_of seed_with_list 3%positive = [1]%positive)
    by (vm_compute; reflexivity).
  assert (H3 : 3%positive ∈ [3; 4]%positive) by by_compute.
  assert (H1 : 1%positive ∈ children_of seed_with_list 3%positive)
    by by_compute.
  destruct (set_parents_effect 3 1%positive 21%positive [3; 4]%positive
              seed_with_list Hwf Ha Hl Hun Hf)
    as (o & σ' & _ & Hrun & _ & _ & _ & Hdup).
  split; [exact Hwf|]. split; [exact Hun|]. split; [exact Hc|].
  exists σ'. split; [exact Hrun|]. exact (Hdup 3%positive H3 H1).
Defined.

Lemma hits_unshared σ l xs : unshared σ l → hits _parents σ l xs = 0%nat.
Proof.
  intros Hun. induction xs as [|x xs IH]; [done|].
  rewrite hits_cons, IH. destruct (decide _) as [He|]; [|done].
  unfold attr_lid in He. destruct (objs σ !! x) as [o|] eqn:Ho; [|done].
  simpl in He. destruct (Hun x o Ho) as [Hp _]. congruence.
Qed.

(** X7: [set_children], called with a list that is not yet a person's
    list and with fuel for its length, returns; afterwards
    [self._children] is that list object with the contents it had, every
    list object has got one [self] appended for each entry that holds it
    as [_parents], and nothing else has changed.  The former contents of
    [self.children] are not carried over: a person that had [self] among
    its parents and is not in the new list still has, but is no longer
    among the children of [self]. *)
Theorem set_children_effect fuel self l xs σ :
  wf σ → allocated σ self → lsts σ !! l = Some xs → unshared σ l →
  (length xs < fuel)%nat →
  ∃ o σ',
    objs σ !! self = Some o ∧
    set_children fuel self l σ = Some (tt, σ') ∧
    objs σ' = <[self := with_children l o]> (objs σ) ∧
    family_tree σ' = family_tree σ ∧
    (∀ l0, lsts σ' !! l0
           = (λ ys, ys ++ replicate (hits _parents σ l0 xs) self)
             <$> lsts σ !! l0) ∧
    children_of σ' self = xs ∧
    (∀ q, self ∈ parents_of σ q → q ∉ xs →
          self ∈ parents_of σ' q ∧ q ∉ children_of σ' self).
Proof.
  intros Hwf [o Ho] Hl Hun Hfuel. exists o.
  set (σ0 := mkState (<[self := with_children l o]> (objs σ)) (lsts σ)
                     (family_tree σ)).
  assert (Hattr : ∀ x, attr_lid _parents σ0 x = attr_lid _parents σ x).
  { intros x. unfold attr_lid, σ0. simpl. rewrite lookup_insert.
    destruct (decide (self = x)) as [<-|]; [|done]. by rewrite Ho. }
  destruct (for_in_effect _parents self l xs fuel 0%nat σ0)
    as (σ' & Hrun & Hobjs & Hft & Hlsts); [done| |lia|].
  { intros x Hx. destruct (wf_list σ l xs x Hwf Hl Hx) as [ox Hox].
    unfold σ0. simpl. rewrite lookup_insert.
    destruct (decide (self = x)) as [<-|].
    - exists (with_children l o). split; [done|]. simpl.
      split; [apply (Hun self o Ho)|apply (wf_obj σ self o Hwf Ho)].
    - exists ox. split; [done|].
      split; [apply (Hun x ox Hox)|apply (wf_obj σ x ox Hwf Hox)]. }
  assert (Hlsts' : ∀ l0, lsts σ' !! l0
            = (λ ys, ys ++ replicate (hits _parents σ l0 xs) self)
              <$> lsts σ !! l0).
  { intros l0. rewrite Hlsts, drop_0. by rewrite (hits_objs _ σ σ0). }
  assert (Hch : children_of σ' self = xs).
  { rewrite (children_of_eq σ' self (with_children l o))
      by (rewrite Hobjs; unfold σ0; simpl; by rewrite lookup_insert_eq).
    simpl. rewrite Hlsts', Hl, hits_unshared by done. simpl.
    by rewrite app_nil_r. }
  exists σ'. split; [done|]. split.
  { unfold set_children. erewrite bind_Some; [|by apply set_obj_Some].
    exact Hrun. }
  split; [done|]. split; [done|]. split; [exact Hlsts'|].
  split; [exact Hch|].
  intros q Hq Hnq. split; [|by rewrite Hch].
  destruct (objs σ !! q) as [oq|] eqn:Hoq;
    [|rewrite parents_of_unallocated in Hq by done;
      by apply elem_of_nil in Hq].
  assert (Hoq' : ∃ oq', objs σ' !! q = Some oq' ∧ _parents oq' = _parents oq).
  { rewrite Hobjs. unfold σ0. simpl. rewrite lookup_insert.
    destruct (decide (self = q)) as [<-|]; [|by exists oq].
    exists (with_children l o). split; [done|]. simpl. congruence. }
  destruct Hoq' as (oq' & Hoq' & Hsame).
  rewrite (parents_of_eq σ' q oq' Hoq'), Hsame, Hlsts'.
  rewrite (parents_of_eq σ q oq Hoq) in Hq.
  destruct (lsts σ !! _parents oq) as [ps|]; simpl in *;
    [|by apply elem_of_nil in Hq].
  apply elem_of_app. by left.
Qed.

Lemma set_children_effect_witness :
  wf seed_with_list ∧ unshared seed_with_list 21%positive ∧
  1%positive ∈ parents_of seed_with_list 7%positive ∧
  ∃ σ', set_children 3 1%positive 21%positive seed_with_list = Some (tt, σ') ∧
        children_of σ' 1%positive = [3; 4]%positive ∧
        1%positive ∈ parents_of σ' 7%positive ∧
        7%positive ∉ children_of σ' 1%positive.
Proof.
  assert (Hwf : wf seed_with_list) by by_compute.
  assert (Ha : allocated seed_with_list 1%positive) by by_compute.
  assert (Hl : lsts seed_with_list !! 21%positive = Some [3; 4]%positive)
    by (vm_compute; reflexivity).
  assert (Hun : unshared seed_with_list 21%positive) by by_compute.
  assert (Hf : (length [3; 4]%positive < 3)%nat) by (simpl; lia).
  assert (H7 : 1%positive ∈ parents_of seed_with_list 7%positive)
    by by_compute.
  assert (Hn : 7%positive ∉ [3; 4]%positive) by by_compute.
  destruct (set_children_effect 3 1%positive 21%positive [3; 4]%positive
              seed_with_list Hwf Ha Hl Hun Hf)
    as (o & σ' & _ & Hrun & _ & _ & _ & Hch & Hstale).
  destruct (Hstale 7%positive H7 Hn) as [Hs1 Hs2].
  split; [exact Hwf|]. split; [exact Hun|]. split; [exact H7|].
  exists σ'. split; [exact Hrun|]. split; [exact Hch|].
  split; [exact Hs1|exact Hs2].
Defined.

(** ** The spouse setter *)

(** X8: the spouse setter does not depend on which of the two persons
    it is called on, and calling it a second time with the same two
    persons changes nothing. *)
Theorem spouse_setter_comm_idem σ a b :
  spouse_setter a b σ = spouse_setter b a σ ∧
  (spouse_setter a b ;;; spouse_setter a b) σ = spouse_setter a b σ.
Proof.
  split.
  - destruct (decide (a = b)) as [->|Hne]; [done|].
    unfold spouse_setter, bind, set_obj.
    destruct (objs σ !! a) as [oa|] eqn:Ha;
      destruct (objs σ !! b) as [ob|] eqn:Hb; simpl;
      rewrite ?lookup_insert_ne, ?Ha, ?Hb by done; try done.
    do 3 f_equal. by apply insert_insert_ne.
  - unfold spouse_setter, bind, set_obj.
    destruct (objs σ !! a) as [oa|] eqn:Ha; [|done]. simpl.
    rewrite lookup_insert.
    destruct (decide (a = b)) as [<-|Hne]; simpl.
    + repeat (rewrite lookup_insert_eq; simpl).
      by rewrite !insert_insert_eq.
    + destruct (objs σ !! b) as [ob|] eqn:Hb; [|done]. simpl.
      rewrite lookup_insert_ne, lookup_insert_eq by done. simpl.
      rewrite lookup_insert_ne, lookup_insert_eq by done. simpl.
      do 3 f_equal. apply map_eq. intros i.
      rewrite !lookup_insert.
      destruct (decide (b = i)); [done|]. by destruct (decide (a = i)).
Qed.

(** ** Construction of persons *)

Lemma allocated_mono σ σ' p :
  objs σ ⊆ objs σ' → allocated σ p → allocated σ' p.
Proof.
  intros Hsub [o Ho]. exists o. by eapply lookup_weaken.
Qed.

(** X9: the constructor returns a reference that was not in use; the
    new person has no spouse and holds two new, empty list objects, one
    for parents and another for children, that no other person holds.
    Persons, lists and registry that existed are left as they were, and
    the store stays closed. *)
Theorem new_person_fresh c n b σ :
  wf σ →
  ∃ p o σ',
    new_person c n b σ = Some (p, σ') ∧
    objs σ !! p = None ∧ objs σ' !! p = Some o ∧
    class_ o = c ∧ _name o = n ∧ _birth_date o = b ∧ _spouse o = None ∧
    _parents o ≠ _children o ∧
    lsts σ !! _parents o = None ∧ lsts σ !! _children o = None ∧
    lsts σ' !! _parents o = Some [] ∧ lsts σ' !! _children o = Some [] ∧
    (∀ q, q ≠ p → objs σ' !! q = objs σ !! q) ∧
    (∀ l0 ys, lsts σ !! l0 = Some ys → lsts σ' !! l0 = Some ys) ∧
    family_tree σ' = family_tree σ ∧
    unshared σ (_parents o) ∧ unshared σ (_children o) ∧
    wf σ'.
Proof.
  intros Hwf.
  set (l1 := fresh (dom (lsts σ))).
  set (l2 := fresh (dom (<[l1 := []]> (lsts σ)))).
  set (p := fresh (dom (objs σ))).
  set (o := mkPerson c n b l1 l2 None).
  set (σ' := mkState (<[p := o]> (objs σ))
                     (<[l2 := []]> (<[l1 := []]> (lsts σ))) (family_tree σ)).
  assert (Hl1 : lsts σ !! l1 = None)
    by (apply not_elem_of_dom, is_fresh).
  assert (Hl2' : <[l1 := []]> (lsts σ) !! l2 = None)
    by (apply not_elem_of_dom, is_fresh).
  assert (Hne : l1 ≠ l2).
  { intros Heq. rewrite <- Heq, lookup_insert_eq in Hl2'. done. }
  assert (Hl2 : lsts σ !! l2 = None)
    by (by rewrite lookup_insert_ne in Hl2').
  assert (Hp : objs σ !! p = None) by (apply not_elem_of_dom, is_fresh).
  assert (Hsub : objs σ ⊆ objs σ') by (by apply insert_subseteq).
  assert (Hkeep : ∀ l0 ys, lsts σ !! l0 = Some ys → lsts σ' !! l0 = Some ys).
  { intros l0 ys Hl0. unfold σ'. simpl.
    rewrite !lookup_insert_ne by congruence. done. }
  assert (Hun : ∀ l0, lsts σ !! l0 = None → unshared σ l0).
  { intros l0 Hl0 q oq Hq. destruct (wf_obj σ q oq Hwf Hq)
      as ([? H1] & [? H2] & _). split; congruence. }
  exists p, o, σ'. split; [done|]. split; [done|].
  split; [unfold σ'; simpl; by rewrite lookup_insert_eq|].
  do 5 (split; [done|]). do 2 (split; [done|]).
  split; [unfold σ'; simpl; by rewrite lookup_insert_ne, lookup_insert_eq|].
  split; [unfold σ'; simpl; by rewrite lookup_insert_eq|].
  split; [intros q Hq; unfold σ'; simpl; by rewrite lookup_insert_ne|].
  split; [exact Hkeep|]. split; [done|].
  split; [by apply Hun|]. split; [by apply Hun|].
  destruct Hwf as (Hobjs & Hlsts & Hmem). split; [|split].
  - intros q oq Hq. unfold σ' in Hq. simpl in Hq.
    rewrite lookup_insert in Hq. destruct (decide (p = q)) as [<-|].
    + injection Hq as <-. unfold closed_obj, o. simpl.
      split; [by rewrite lookup_insert_ne, lookup_insert_eq|].
      split; [by rewrite lookup_insert_eq|done].
    + destruct (Hobjs q oq Hq) as ([ys1 H1] & [ys2 H2] & Hs).
      split; [by rewrite (Hkeep _ _ H1)|].
      split; [by rewrite (Hkeep _ _ H2)|].
      destruct (_spouse oq); [|done]. by eapply allocated_mono.
  - intros l0 ys Hl0. unfold σ' in Hl0. simpl in Hl0.
    rewrite lookup_insert in Hl0. destruct (decide (l2 = l0)).
    { injection Hl0 as <-. constructor. }
    rewrite lookup_insert in Hl0. destruct (decide (l1 = l0)).
    { injection Hl0 as <-. constructor. }
    eapply Forall_impl; [exact (Hlsts l0 ys Hl0)|].
    intros x. by apply allocated_mono.
  - eapply Forall_impl; [exact Hmem|].
    intros x. by apply allocated_mono.
Qed.

Lemma new_person_fresh_witness :
  wf seed_state ∧
  ∃ p o σ', new_person LivingPerson "Mia Weber" (Date 1993 1 9) seed_state
            = Some (p, σ') ∧
            objs seed_state !! p = None ∧ objs σ' !! p = Some o ∧
            _parents o ≠ _children o ∧ wf σ'.
Proof.
  split; [exact wf_seed|].
  destruct (new_person_fresh LivingPerson "Mia Weber" (Date 1993 1 9)
              seed_state wf_seed)
    as (p & o & σ' & Hrun & Hp & Ho & _ & _ & _ & _ & Hne & H).
  exists p, o, σ'. split; [exact Hrun|]. split; [exact Hp|].
  split; [exact Ho|]. split; [exact Hne|]. apply H.
Defined.

(** ** Assignment to dictionary keys *)

Section setitem_facts.
Context {K V : Type} `{EqDecision K}.

Lemma get_setitem (k k' : K) (v : V) (d : list (K * V)) :
  pydict.get (pydict.setitem k v d) k'
  = if decide (k = k') then Some v else pydict.get d k'.
Proof.
  induction d as [|[k0 w] d IH]; simpl.
  - destruct (decide (k = k')); done.
  - destruct (decide (k0 = k)) as [->|Hne]; simpl.
    + destruct (decide (k = k')); done.
    + destruct (decide (k0 = k')) as [->|Hne'].
      * destruct (decide (k = k')); [congruence|done].
      * apply IH.
Qed.

Lemma keys_setitem (k : K) (v : V) (d : list (K * V)) :
  pydict.keys (pydict.setitem k v d)
  = if decide (k ∈ pydict.keys d) then pydict.keys d
    else pydict.keys d ++ [k].
Proof.
  unfold pydict.keys. induction d as [|[k0 w] d IH]; csimpl.
  - done.
  - destruct (decide (k0 = k)) as [->|Hne]; csimpl.
    + clear IH. destruct (decide (k ∈ k :: d.*1)) as [|Hn]; [done|].
      exfalso. apply Hn. by left.
    + rewrite IH. clear IH. destruct (decide (k ∈ d.*1)) as [Hin|Hn].
      * destruct (decide (k ∈ k0 :: d.*1)) as [|Hn']; [done|].
        exfalso. apply Hn'. by right.
      * destruct (decide (k ∈ k0 :: d.*1)) as [Hin'|]; [|done].
        apply elem_of_cons in Hin' as [->|?]; done.
Qed.

Lemma NoDup_setitem (k : K) (v : V) (d : list (K * V)) :
  NoDup (pydict.keys d) → NoDup (pydict.keys (pydict.setitem k v d)).
Proof.
  intros Hnd. rewrite keys_setitem.
  destruct (decide (k ∈ pydict.keys d)) as [|Hn]; [done|].
  apply NoDup_app. split; [done|]. split; [|apply NoDup_singleton].
  intros y Hy Hy'. apply list_elem_of_singleton in Hy' as ->. done.
Qed.

Lemma foldl_setitem (items : list (K * V)) (d : list (K * V)) (k : K) :
  NoDup (pydict.keys d) →
  NoDup (pydict.keys (foldl (λ d kv, pydict.setitem kv.1 kv.2 d) d items)) ∧
  pydict.get (foldl (λ d kv, pydict.setitem kv.1 kv.2 d) d items) k
  = match last (vals k items) with
    | Some v => Some v
    | None => pydict.get d k
    end.
Proof.
  revert d. induction items as [|[k0 v] items IH]; intros d Hnd; simpl.
  - done.
  - destruct (IH (pydict.setitem k0 v d)) as [Hnd' Hget];
      [by apply NoDup_setitem|].
    split; [done|]. rewrite Hget, get_setitem, vals_cons. simpl.
    destruct (decide (k0 = k)) as [->|]; [|done].
    rewrite last_cons. by destruct (last (vals k items)).
Qed.

End setitem_facts.

(** X10: a registry assigned from a dictionary display and then asked
    for a name answers with the person written last under that name, or
    with [None] if the name was never written; no name is kept twice. *)
Theorem registry_last_write_wins (items : list (string * pid)) n σ :
  (set_members (pydict.of_items items) ;;; get_person n) σ
  = Some (last (vals n items),
          mkState (objs σ) (lsts σ) (mkFamilyTree (pydict.of_items items))) ∧
  NoDup (pydict.keys (pydict.of_items items)).
Proof.
  destruct (foldl_setitem items [] n) as [Hnd Hget]; [constructor|].
  split; [|exact Hnd].
  unfold bind, set_members, get_person, get_members, ret, bind. simpl.
  unfold pydict.of_items. rewrite Hget. simpl.
  by destruct (last (vals n items)).
Qed.

(** ** More on the statistics *)

Lemma concat_Permutation {A} (l k : list (list A)) :
  l ≡ₚ k → concat l ≡ₚ concat k.
Proof.
  induction 1 as [|x l k _ IH|x y l|l k m _ IH1 _ IH2]; simpl.
  - done.
  - by rewrite IH.
  - rewrite !app_assoc. f_equiv. apply Permutation_app_comm.
  - by rewrite IH1.
Qed.

Lemma concat_dd_append {K X} `{EqDecision K} (k : K) (x : X)
    (d : list (K * list X)) :
  concat (pydict.dd_append k x d).*2 ≡ₚ x :: concat d.*2.
Proof.
  induction d as [|[k0 xs] d IH]; csimpl; [done|].
  destruct (decide (k0 = k)); csimpl.
  - rewrite <- app_assoc. simpl. symmetry. apply Permutation_middle.
  - rewrite IH. symmetry. apply Permutation_middle.
Qed.

Lemma concat_group_into {K X} `{EqDecision K} (es : list (K * X))
    (d : list (K * list X)) :
  concat (group_into d es).*2 ≡ₚ concat d.*2 ++ es.*2.
Proof.
  unfold group_into. revert d.
  induction es as [|[k x] es IH]; intros d; csimpl.
  - by rewrite app_nil_r.
  - rewrite IH, concat_dd_append. simpl. apply Permutation_middle.
Qed.

Lemma entries_names σ : (entries σ).*2 = member_names σ.
Proof.
  unfold entries, member_names.
  induction (pydict.values (members (family_tree σ))) as [|p ps IH];
    csimpl; [done|].
  destruct (objs σ !! p) as [o|]; csimpl; [|done]. by rewrite IH.
Qed.

Lemma member_names_length σ :
  wf σ → length (member_names σ) = length (members (family_tree σ)).
Proof.
  intros (_ & _ & Hm). unfold member_names, pydict.values.
  induction (members (family_tree σ)) as [|[n p] ms IH]; csimpl; [done|].
  apply Forall_cons in Hm as [[o Ho] Hm]. simpl in Ho.
  rewrite Ho. csimpl. by rewrite IH.
Qed.

(** X11: the names listed in the birthday calendar are the names of the
    members, each member once: nobody is left out or listed twice,
    whatever the birth dates and however many members share a name. *)
Theorem get_birthdays_calendar_names σ :
  wf σ →
  ∃ cal, get_birthdays_calendar σ = Some (cal, σ) ∧
         concat cal.*2 ≡ₚ member_names σ ∧
         length (concat cal.*2) = length (members (family_tree σ)).
Proof.
  intros Hwf.
  set (g := group_into [] (entries σ)).
  assert (Hg : NoDup (pydict.keys g))
    by (apply NoDup_group_into; constructor).
  assert (Hperm : sorted_items g ≡ₚ g) by apply merge_sort_Permutation.
  assert (Hs : NoDup (pydict.keys (sorted_items g)))
    by (unfold pydict.keys; by rewrite Hperm).
  assert (Hnames : concat (sorted_items g).*2 ≡ₚ member_names σ).
  { rewrite (concat_Permutation _ g.*2) by (by rewrite Hperm).
    unfold g. rewrite concat_group_into. simpl. by rewrite entries_names. }
  exists (sorted_items g).
  split; [rewrite get_birthdays_calendar_eq by done;
          fold g; by rewrite of_items_NoDup|].
  split; [exact Hnames|].
  by rewrite Hnames, member_names_length.
Qed.

Lemma get_birthdays_calendar_names_witness :
  wf seed_state ∧
  ∃ cal, get_birthdays_calendar seed_state = Some (cal, seed_state) ∧
         length (concat cal.*2) = 8%nat.
Proof.
  split; [exact wf_seed|].
  destruct (get_birthdays_calendar_names seed_state wf_seed)
    as (cal & He & _ & Hlen).
  exists cal. split; [exact He|]. rewrite Hlen. vm_compute. reflexivity.
Defined.

Lemma foldl_data_total (es : list (string * Z)) (d : list (string * Z))
    (t : Z) :
  foldl (λ (r : list (string * Z) * Z) e,
           (pydict.setitem e.1 e.2 r.1, r.2 + e.2)) (d, t) es
  = (foldl (λ d kv, pydict.setitem kv.1 kv.2 d) d es,
     t + foldr Z.add 0 es.*2).
Proof.
  revert d t. induction es as [|e es IH]; intros d t; csimpl.
  - f_equal. lia.
  - rewrite IH. f_equal. lia.
Qed.

Lemma name_counts_names σ : (name_counts σ).*1 = member_names σ.
Proof.
  unfold name_counts, member_names.
  induction (pydict.values (members (family_tree σ))) as [|p ps IH];
    csimpl; [done|].
  destruct (objs σ !! p) as [o|]; csimpl; [|done]. by rewrite IH.
Qed.

(** X12: [calculate_children_statistics] returns, without changing the
    store, a dictionary and an average.  The dictionary has each member
    name once and gives for a name the length of the children list of the
    last member of that name in registry order; where the names are
    pairwise different it lists every member with its number of children,
    in registry order.  The average is the [int] [0] for an empty
    registry; otherwise it is the [float] that the true division [/]
    gives for the sum of the numbers of children of all members, of
    whatever class, and the number of members. *)
Theorem calculate_children_statistics_spec `{Arith} σ :
  wf σ →
  ∃ data avg,
    calculate_children_statistics σ = Some ((data, avg), σ) ∧
    avg = (if decide (members (family_tree σ) = []) then Int 0
           else Float (truediv (total (name_counts σ).*2)
                               (Z.of_nat (length (members (family_tree σ)))))) ∧
    length (name_counts σ) = length (members (family_tree σ)) ∧
    NoDup (pydict.keys data) ∧
    (∀ n, pydict.get data n = last (vals n (name_counts σ))) ∧
    (NoDup (member_names σ) → data = name_counts σ).
Proof.
  intros Hwf.
  assert (Hlen : length (name_counts σ) = length (members (family_tree σ))).
  { rewrite <- (member_names_length σ Hwf), <- name_counts_names.
    by rewrite length_fmap. }
  set (data := pydict.of_items (name_counts σ)).
  eexists data, _. split; [|split; [reflexivity|]].
  - unfold calculate_children_statistics.
    erewrite bind_Some; [|reflexivity].
    erewrite bind_Some; cycle 1.
    { apply (foldM_read _ (λ (r : list (string * Z) * Z) p,
               match (o ← objs σ !! p;
                      Some (_name o, Z.of_nat (length (children_of σ p))))
               with
               | Some e => (pydict.setitem e.1 e.2 r.1, r.2 + e.2)
               | None => r
               end)).
      intros [d t] person Hin.
      apply list_elem_of_fmap in Hin as ([n q] & -> & Hin).
      pose proof (wf_member σ n q Hwf Hin) as Hq.
      destruct Hq as [o Ho]. simpl.
      rewrite read_children by (done || by exists o).
      unfold name. erewrite bind_Some;
        [|erewrite bind_Some; [reflexivity|by apply get_obj_Some]].
      by rewrite Ho. }
    rewrite (foldl_omap _ (λ (r : list (string * Z) * Z) e,
               (pydict.setitem e.1 e.2 r.1, r.2 + e.2))).
    fold (name_counts σ). rewrite foldl_data_total.
    unfold ret, total, data, pydict.of_items. do 3 f_equal.
    destruct (members (family_tree σ)) as [|m ms]; simpl; [done|].
    destruct (0 <? Z.pos (Pos.of_succ_nat (length ms))) eqn:E; [done|].
    apply Z.ltb_ge in E. lia.
  - split; [done|].
    destruct (foldl_setitem (name_counts σ) [] "") as [Hnd _];
      [constructor|].
    split; [exact Hnd|]. split.
    + intros n. destruct (foldl_setitem (name_counts σ) [] n) as [_ Hget];
        [constructor|].
      unfold data, pydict.of_items. rewrite Hget. simpl.
      by destruct (last (vals n (name_counts σ))).
    + intros Hnames. unfold data. apply of_items_NoDup.
      unfold pydict.keys. by rewrite name_counts_names.
Qed.

Lemma calculate_children_statistics_spec_witness :
  wf seed_state ∧
  ∃ data avg,
    @calculate_children_statistics binary64 seed_state
    = Some ((data, avg), seed_state)
    ∧ pydict.get data "Otto Emmersohn" = Some 2
    ∧ pydict.get data "Anna Singh" = Some 1
    ∧ (name_counts seed_state).*2 = [2; 2; 1; 1; 1; 1; 0; 0]
    ∧ avg = @Float binary64 1%float.
Proof.
  split; [exact wf_seed|].
  destruct (@calculate_children_statistics_spec binary64 seed_state wf_seed)
    as (data & avg & Hrun & Havg & _ & _ & Hget & _).
  exists data, avg. split; [exact Hrun|].
  split; [rewrite Hget; vm_compute; reflexivity|].
  split; [rewrite Hget; vm_compute; reflexivity|].
  split; [vm_compute; reflexivity|].
  rewrite Havg. vm_compute. reflexivity.
Defined.

(** X13: for a name registered for an instance of the base class
    itself, [get_member_details] does not answer with the not-found
    string: the [NotImplementedError] of [PersonBase.display_details]
    comes out of it, the store being unchanged. *)
Theorem get_member_details_base_class σ n p o :
  pydict.get (members (family_tree σ)) n = Some p →
  objs σ !! p = Some o → class_ o = PersonBase →
  get_member_details n σ
  = Some (inl (NotImplementedError
                 "This method should be implemented in subclasses"), σ).
Proof.
  intros Hg Ho Hc.
  unfold get_member_details, get_person, get_members, bind, ret.
  rewrite Hg. unfold display_details, bind, get_obj. by rewrite Ho, Hc.
Qed.

Lemma get_member_details_base_class_witness :
  get_member_details "Nemo" base_registry
  = Some (inl (NotImplementedError
                 "This method should be implemented in subclasses"),
          base_registry).
Proof.
  assert (Ho : ∃ o, objs base_registry !! 1%positive = Some o ∧
                    class_ o = PersonBase)
    by (eexists; split; vm_compute; reflexivity).
  destruct Ho as (o & Ho & Hc).
  apply (get_member_details_base_class base_registry "Nemo" 1%positive o);
    [vm_compute; reflexivity|exact Ho|exact Hc].
Defined.

(** ** Methods that only read, as the console calls them *)

Lemma find_parents_reads σ p :
  wf σ → allocated σ p →
  ∃ l, find_parents p σ = Some (l, σ) ∧
       get_list l σ = Some (parents_of σ p, σ) ∧
       Forall (allocated σ) (parents_of σ p).
Proof.
  intros Hwf [o Ho].
  destruct (wf_obj _ _ _ Hwf Ho) as ([xs Hxs] & _ & _).
  exists (_parents o). unfold find_parents, parents.
  erewrite bind_Some; [|by apply get_obj_Some].
  rewrite (parents_of_eq σ p o Ho), Hxs. simpl.
  split; [done|]. split; [by apply get_list_Some|].
  apply Forall_forall. intros q Hq. eauto using wf_list.
Qed.

Lemma find_grandparents_reads σ p :
  wf σ → allocated σ p →
  ∃ r, find_grandparents p σ = Some (r, σ) ∧ Forall (allocated σ) r.
Proof.
  intros Hwf Hp. eexists. split; [by apply find_grandparents_eq|].
  apply Forall_forall. intros q (parent & Hq & _)%list_elem_of_bind.
  eauto using parents_of_alloc.
Qed.

Lemma find_siblings_reads σ p :
  wf σ → allocated σ p →
  ∃ r, find_siblings p σ = Some (r, σ) ∧ Forall (allocated σ) r.
Proof.
  intros Hwf Hp. eexists. split; [by apply find_siblings_eq|].
  apply Forall_forall. intros q Hq%elem_of_elements.
  eauto using siblings_alloc.
Qed.

Lemma find_cousins_reads σ p :
  wf σ → allocated σ p →
  ∃ r, find_cousins p σ = Some (r, σ) ∧ Forall (allocated σ) r.
Proof.
  intros Hwf Hp. eexists. split; [by apply find_cousins_eq|].
  apply Forall_forall.
  intros q (parent & (s & Hq & _)%list_elem_of_bind & _)%list_elem_of_bind.
  eauto using children_of_alloc.
Qed.

Lemma find_immediate_family_reads σ p :
  wf σ → allocated σ p →
  ∃ r, find_immediate_family p σ = Some (r, σ) ∧ Forall (allocated σ) r.
Proof.
  intros Hwf Hp. eexists. split; [by apply find_immediate_family_eq|].
  apply Forall_forall. intros q Hq%elem_of_elements.
  eauto using immediate_alloc.
Qed.

Lemma find_extended_family_reads σ p :
  wf σ → allocated σ p →
  ∃ r, find_extended_family p σ = Some (r, σ) ∧ Forall (allocated σ) r.
Proof.
  intros Hwf Hp. eexists. split; [by apply find_extended_family_eq|].
  apply Forall_forall. intros q Hq.
  apply list_elem_of_In, filter_In in Hq as [Hq _].
  apply list_elem_of_In, elem_of_elements in Hq.
  eauto using extended_alloc.
Qed.

Lemma strs_reads σ xs :
  Forall (allocated σ) xs → ∃ ss, strs xs σ = Some (ss, σ).
Proof.
  intros Hxs. eexists. unfold strs.
  apply (foldM_read _
           (λ out x, out ++ [from_option _name "" (objs σ !! x)])).
  intros out x Hx. rewrite Forall_forall in Hxs.
  destruct (Hxs x Hx) as [o Ho]. unfold __str__, name.
  erewrite bind_Some;
    [|erewrite bind_Some; [reflexivity|by apply get_obj_Some]].
  by rewrite Ho.
Qed.

Lemma get_person_reads σ n :
  get_person n σ = Some (pydict.get (members (family_tree σ)) n, σ).
Proof. done. Qed.

Lemma get_member_details_reads σ n :
  wf σ → ∃ r, get_member_details n σ = Some (r, σ).
Proof.
  intros Hwf. unfold get_member_details.
  erewrite bind_Some; [|apply get_person_reads].
  destruct (pydict.get (members (family_tree σ)) n) as [p|] eqn:Hg;
    [|by eexists].
  destruct (wf_member σ n p Hwf (pydict_get_Some _ _ _ Hg)) as [o Ho].
  unfold display_details. erewrite bind_Some; [|by apply get_obj_Some].
  destruct (class_ o); by eexists.
Qed.

Lemma calculate_average_age_reads `{Arith} σ :
  wf σ → ∃ q, calculate_average_age σ = Some (q, σ).
Proof. intros Hwf. eexists. by apply calculate_average_age_eq. Qed.

Lemma calculate_children_statistics_eq `{Arith} σ :
  wf σ →
  calculate_children_statistics σ
  = Some ((pydict.of_items (name_counts σ),
           if 0 <? Z.of_nat (length (members (family_tree σ)))
           then Float (truediv (0 + total (name_counts σ).*2)
                               (Z.of_nat (length (members (family_tree σ)))))
           else Int 0), σ).
Proof.
  intros Hwf. unfold calculate_children_statistics.
  erewrite bind_Some; [|reflexivity].
  erewrite bind_Some; cycle 1.
  { apply (foldM_read _ (λ (r : list (string * Z) * Z) p,
             match (o ← objs σ !! p;
                    Some (_name o, Z.of_nat (length (children_of σ p))))
             with
             | Some e => (pydict.setitem e.1 e.2 r.1, r.2 + e.2)
             | None => r
             end)).
    intros [d t] person Hin.
    apply list_elem_of_fmap in Hin as ([n q] & -> & Hin).
    pose proof (wf_member σ n q Hwf Hin) as Hq.
    destruct Hq as [o Ho]. simpl.
    rewrite read_children by (done || by exists o).
    unfold name. erewrite bind_Some;
      [|erewrite bind_Some; [reflexivity|by apply get_obj_Some]].
    by rewrite Ho. }
  rewrite (foldl_omap _ (λ (r : list (string * Z) * Z) e,
             (pydict.setitem e.1 e.2 r.1, r.2 + e.2))).
  fold (name_counts σ). by rewrite foldl_data_total.
Qed.

(** ** Rules for console runs *)

Lemma extends_refl w : extends w w.
Proof.
  split; [done|]. split; [by exists []|]. exists []. by rewrite app_nil_r.
Qed.

Lemma extends_trans w1 w2 w3 : extends w1 w2 → extends w2 w3 → extends w1 w3.
Proof.
  intros (Hs1 & [u1 Hu1] & [o1 Ho1]) (Hs2 & [u2 Hu2] & [o2 Ho2]).
  split; [congruence|]. split.
  - exists (u1 ++ u2). by rewrite Hu1, Hu2, app_assoc.
  - exists (o1 ++ o2). by rewrite Ho2, Ho1, app_assoc.
Qed.

Lemma io_ok_ret {A} (a : A) w (Q : A → world → Prop) :
  Q a w → io_ok (ioret a) w Q.
Proof.
  intros HQ. exists (Returns a), w. split; [done|].
  split; [apply extends_refl|]. by intros ? [= <-].
Qed.

Lemma io_ok_bind {A B} (m : IO A) (k : A → IO B) w Q R :
  io_ok m w Q →
  (∀ a w', extends w w' → Q a w' → io_ok (k a) w' R) →
  io_ok (iobind m k) w R.
Proof.
  intros (r & w' & Hm & Hext & HQ) Hk. unfold io_ok, iobind. rewrite Hm.
  destruct r as [a|e].
  - destruct (Hk a w' Hext (HQ a eq_refl)) as (r' & w'' & Hk' & Hext' & HR).
    exists r', w''. split; [done|]. split; [|done].
    by eapply extends_trans.
  - exists (Raises e), w'. split; [done|]. split; [done|]. by intros ? [=].
Qed.

Lemma io_ok_weaken {A} (m : IO A) w (Q R : A → world → Prop) :
  io_ok m w Q → (∀ a w', extends w w' → Q a w' → R a w') → io_ok m w R.
Proof.
  intros (r & w' & Hm & Hext & HQ) HQR. exists r, w'.
  split; [done|]. split; [done|]. intros a ->. eauto.
Qed.

Lemma io_ok_print s w :
  io_ok (print s) w (λ _ w', stdin w' = stdin w).
Proof.
  eexists _, _. split; [reflexivity|]. split; [|done].
  split; [done|]. split; [by exists []|]. by eexists.
Qed.

Lemma io_ok_input prompt w :
  io_ok (input prompt) w (λ line w', stdin w = line :: stdin w').
Proof.
  unfold io_ok, input. destruct (stdin w) as [|line rest] eqn:Hin.
  - eexists _, _. split; [reflexivity|]. split; [|by intros ? [=]].
    split; [done|]. split; [by exists []|]. by eexists.
  - eexists _, _. split; [reflexivity|]. split; [|by intros ? [= <-]].
    split; [done|]. split; [by exists [line]|]. by eexists.
Qed.

Lemma io_ok_lift {A} (m : M A) (a : A) w :
  m (store w) = Some (a, store w) →
  io_ok (lift m) w (λ a' w', a' = a ∧ stdin w' = stdin w).
Proof.
  intros Hm. unfold io_ok, lift. rewrite Hm.
  eexists _, _. split; [reflexivity|]. split; [|by intros ? [= <-]].
  split; [done|]. split; [by exists []|]. exists []. by rewrite app_nil_r.
Qed.

Lemma io_ok_lift_exn {A} (m : M (exn + A)) r w :
  m (store w) = Some (r, store w) →
  io_ok (lift_exn m) w (λ _ w', stdin w' = stdin w).
Proof.
  intros Hm. unfold io_ok, lift_exn. rewrite Hm.
  destruct r as [e|a]; eexists _, _; (split; [reflexivity|]);
    (split; [|by intros ? [=]]);
    (split; [done|]); (split; [by exists []|]);
    exists []; by rewrite app_nil_r.
Qed.

Lemma io_ok_for_each {A} (xs : list A) (body : A → IO unit) w :
  (∀ x w0, io_ok (body x) w0 (λ _ w', stdin w' = stdin w0)) →
  io_ok (for_each xs body) w (λ _ w', stdin w' = stdin w).
Proof.
  intros Hbody. revert w. induction xs as [|x xs IH]; intros w; simpl.
  - by apply io_ok_ret.
  - eapply io_ok_bind; [apply Hbody|].
    intros [] w1 _ H1. eapply io_ok_weaken; [apply IH|].
    simpl. intros _ w2 _ H2. congruence.
Qed.

Lemma io_ok_display_menu w :
  io_ok display_menu w (λ _ w', stdin w' = stdin w).
Proof.
  unfold display_menu.
  repeat (eapply io_ok_bind; [apply io_ok_print|];
          intros [] ? _ ?; simpl in *).
  eapply io_ok_weaken; [apply io_ok_print|]. simpl. intros. congruence.
Qed.

Lemma io_ok_lift_bind {A B} (m : M A) (k : A → IO B) (a : A) w R :
  m (store w) = Some (a, store w) →
  (∀ w0, store w0 = store w → stdin w0 = stdin w → io_ok (k a) w0 R) →
  io_ok (iobind (lift m) k) w R.
Proof.
  intros Hm Hk. eapply io_ok_bind; [by apply io_ok_lift|].
  simpl. intros a' w' (Hs & _) [-> Hin]. by apply Hk.
Qed.

(** Showing a list of persons: [print(f"...{[str(x) for x in xs]}")]. *)
Lemma io_ok_show_names (f : list string → string) xs w :
  Forall (allocated (store w)) xs →
  io_ok (ss <~ lift (strs xs) ;; print (f ss)) w (λ _ _, True).
Proof.
  intros Hxs. destruct (strs_reads _ xs Hxs) as [ss Hss].
  eapply io_ok_lift_bind; [exact Hss|].
  intros w0 _ _. eapply io_ok_weaken; [apply io_ok_print|done].
Qed.

(** The cases 2 to 7, once the name has been read: look the person up,
    run the query and show its result, or report that there is no such
    person. *)
Lemma io_ok_relatives {A} (query : pid → M A) (P : A → Prop)
    (show : A → IO unit) (n : string) w :
  wf (store w) →
  (∀ p, allocated (store w) p →
        ∃ a, query p (store w) = Some (a, store w) ∧ P a) →
  (∀ a w0, store w0 = store w → P a → io_ok (show a) w0 (λ _ _, True)) →
  io_ok (person <~ lift (get_person n) ;;
         match person with
         | Some person => a <~ lift (query person) ;; show a
         | None => print "Person not found."
         end ;;~ ioret true) w (λ b _, b = true).
Proof.
  intros Hwf Hq Hshow.
  eapply io_ok_lift_bind; [apply get_person_reads|].
  intros w0 Hs0 _.
  eapply io_ok_bind with (Q := λ _ _, True);
    [|intros; by apply io_ok_ret].
  destruct (pydict.get (members (family_tree (store w))) n) as [p|] eqn:Hg.
  - assert (Hp : allocated (store w) p)
      by eauto using wf_member, pydict_get_Some.
    destruct (Hq p Hp) as (a & Ha & HP).
    eapply io_ok_lift_bind; [by rewrite Hs0|].
    intros w1 Hs1 _. apply Hshow; [congruence|done].
  - eapply io_ok_weaken; [apply io_ok_print|done].
Qed.

Section console_facts.
Context `{Arith}.
Variable repr_str : string → string.
Variable format_2f : number → string.

(** What every call of [handle_choice] does on a closed store. *)
Lemma handle_choice_ok choice w :
  wf (store w) →
  io_ok (handle_choice repr_str format_2f choice) w
        (λ b w', (b = false ↔ choice = "11") ∧
                 (choice = "11" → stdin w' = stdin w)).
Proof.
  intros Hwf. unfold handle_choice.
  assert (Hname : ∀ (k : string → IO bool),
            choice ≠ "11" →
            (∀ n w0, store w0 = store w → io_ok (k n) w0 (λ b _, b = true)) →
            io_ok (name <~ input "Enter the name of the person: " ;; k name)
                  w (λ b w', (b = false ↔ choice = "11") ∧
                             (choice = "11" → stdin w' = stdin w))).
  { intros k Hne Hk. eapply io_ok_bind; [apply io_ok_input|].
    simpl. intros n w0 (Hs0 & _) _.
    eapply io_ok_weaken; [by apply Hk|].
    simpl. intros b w' _ ->. split; [|done]. split; [done|by intros ->]. }
  assert (Hwf0 : ∀ w0, store w0 = store w → wf (store w0))
    by (by intros w0 ->).
  repeat case_decide; subst.
  - apply Hname; [done|]. intros n w0 Hs0.
    destruct (get_member_details_reads (store w0) n (Hwf0 _ Hs0)) as [r Hr].
    eapply io_ok_bind; [by eapply io_ok_lift_exn|].
    simpl. intros details w1 _ _.
    eapply io_ok_bind; [apply io_ok_print|].
    intros. by apply io_ok_ret.
  - apply Hname; [done|]. intros n w0 Hs0.
    apply (io_ok_relatives find_parents
             (λ l, ∃ xs, get_list l (store w0) = Some (xs, store w0) ∧
                         Forall (allocated (store w0)) xs));
      [by apply Hwf0| |].
    + intros p Hp. destruct (find_parents_reads _ p (Hwf0 _ Hs0) Hp)
        as (l & Hl & Hg & Hall). eauto.
    + intros l w1 Hs1 (xs & Hg & Hall).
      eapply io_ok_lift_bind; [by rewrite Hs1|].
      intros w2 Hs2 _. apply io_ok_show_names. by rewrite Hs2, Hs1.
  - apply Hname; [done|]. intros n w0 Hs0.
    apply (io_ok_relatives find_grandparents
             (λ r, Forall (allocated (store w0)) r));
      [by apply Hwf0|intros; by apply find_grandparents_reads; auto|].
    intros r w1 Hs1 Hall. apply io_ok_show_names. by rewrite Hs1.
  - apply Hname; [done|]. intros n w0 Hs0.
    apply (io_ok_relatives find_immediate_family
             (λ r, Forall (allocated (store w0)) r));
      [by apply Hwf0|intros; by apply find_immediate_family_reads; auto|].
    intros r w1 Hs1 Hall. apply io_ok_show_names. by rewrite Hs1.
  - apply Hname; [done|]. intros n w0 Hs0.
    apply (io_ok_relatives find_extended_family
             (λ r, Forall (allocated (store w0)) r));
      [by apply Hwf0|intros; by apply find_extended_family_reads; auto|].
    intros r w1 Hs1 Hall. apply io_ok_show_names. by rewrite Hs1.
  - apply Hname; [done|]. intros n w0 Hs0.
    apply (io_ok_relatives find_siblings
             (λ r, Forall (allocated (store w0)) r));
      [by apply Hwf0|intros; by apply find_siblings_reads; auto|].
    intros r w1 Hs1 Hall. apply io_ok_show_names. by rewrite Hs1.
  - apply Hname; [done|]. intros n w0 Hs0.
    apply (io_ok_relatives find_cousins
             (λ r, Forall (allocated (store w0)) r));
      [by apply Hwf0|intros; by apply find_cousins_reads; auto|].
    intros r w1 Hs1 Hall. apply io_ok_show_names. by rewrite Hs1.
  - eapply io_ok_bind; [apply io_ok_print|].
    simpl. intros [] w0 (Hs0 & _) _.
    eapply io_ok_lift_bind;
      [rewrite Hs0; by apply get_birthdays_calendar_eq|].
    intros w1 _ _. eapply io_ok_bind.
    + apply io_ok_for_each. intros [date names] w2. apply io_ok_print.
    + intros. apply io_ok_ret. split; [|done]. split; done.
  - destruct (calculate_average_age_reads _ Hwf) as [q Hq].
    eapply io_ok_lift_bind; [exact Hq|].
    intros w0 _ _. eapply io_ok_bind; [apply io_ok_print|].
    intros. apply io_ok_ret. split; [|done]. split; done.
  - eapply io_ok_lift_bind; [by apply calculate_children_statistics_eq|].
    intros w0 _ _. eapply io_ok_bind; [apply io_ok_print|].
    intros [] w1 _ _. eapply io_ok_bind.
    + apply io_ok_for_each. intros [name count] w2. apply io_ok_print.
    + intros [] w2 _ _. eapply io_ok_bind; [apply io_ok_print|].
      intros. apply io_ok_ret. split; [|done]. split; done.
  - eapply io_ok_bind; [apply io_ok_print|].
    simpl. intros [] w0 _ Hin. apply io_ok_ret. split; done.
  - eapply io_ok_bind; [apply io_ok_print|].
    intros. apply io_ok_ret. split; [|done]. split; done.
Qed.

End console_facts.

Section console_properties.
Context `{Arith}.
Variable repr_str : string → string.
Variable format_2f : number → string.

(** X14: on a closed store every call of [handle_choice] ends, by
    returning or by raising; it leaves the store as it was, takes the
    lines it reads from the front of the input and only adds to the
    output; and what it returns is [False] exactly when the choice is
    ["11"]. *)
Theorem handle_choice_reads_only choice w :
  wf (store w) →
  ∃ r w',
    handle_choice repr_str format_2f choice w = Some (r, w') ∧
    store w' = store w ∧
    (∃ used, stdin w = used ++ stdin w') ∧
    (∃ out, stdout w' = stdout w ++ out) ∧
    (∀ b, r = Returns b → (b = false ↔ choice = "11")).
Proof.
  intros Hwf.
  destruct (handle_choice_ok repr_str format_2f choice w Hwf)
    as (r & w' & Hrun & (Hs & Hin & Hout) & HQ).
  exists r, w'. do 4 (split; [done|]). intros b Hb. by apply HQ.
Qed.

(** What choices 1 to 7 answer to a name that the registry does not have. *)
Lemma unknown_name_answer choice n rest w :
  choice ∈ ["1"; "2"; "3"; "4"; "5"; "6"; "7"] →
  stdin w = n :: rest →
  n ∉ pydict.keys (members (family_tree (store w))) →
  handle_choice repr_str format_2f choice w
  = Some (Returns true,
          mkWorld (store w) rest
                  (stdout w ++ ["Enter the name of the person: ";
                                "Person not found." +:+ nl])).
Proof.
  intros Hc Hin Hn%pydict_get_None_iff.
  repeat (apply elem_of_cons in Hc as [->|Hc]);
    [..|by apply elem_of_nil in Hc];
    unfold handle_choice, iobind, input, lift, lift_exn, print, ioret,
      get_member_details, get_person, get_members, bind, ret; simpl;
    rewrite Hin; simpl; rewrite Hn; simpl; by rewrite <- app_assoc.
Qed.

(** X15: for the choices 1 to 7, a name that is not in the registry is
    answered with the line ["Person not found."]: the call reads that one
    line, writes the prompt and the answer, raises nothing and returns
    [True]. *)
Theorem handle_choice_unknown_name choice n rest w :
  choice ∈ ["1"; "2"; "3"; "4"; "5"; "6"; "7"] →
  stdin w = n :: rest →
  n ∉ pydict.keys (members (family_tree (store w))) →
  handle_choice repr_str format_2f choice w
  = Some (Returns true,
          mkWorld (store w) rest
                  (stdout w ++ ["Enter the name of the person: ";
                                "Person not found." +:+ nl])).
Proof. exact (unknown_name_answer choice n rest w). Qed.

(** What an unknown choice is answered with. *)
Lemma invalid_choice_answer choice w :
  choice ∉ known_choices →
  handle_choice repr_str format_2f choice w
  = Some (Returns true,
          mkWorld (store w) (stdin w)
                  (stdout w ++ ["Invalid choice. Please try again." +:+ nl])).
Proof.
  intros Hc. unfold handle_choice.
  repeat (case_decide; [exfalso; apply Hc; subst; by_compute|]).
  reflexivity.
Qed.

(** X16: a choice that is none of ["1"] to ["11"] is answered with the
    line ["Invalid choice. Please try again."]; no line is read, nothing
    is raised, and the call returns [True]. *)
Theorem handle_choice_invalid choice w :
  choice ∉ known_choices →
  handle_choice repr_str format_2f choice w
  = Some (Returns true,
          mkWorld (store w) (stdin w)
                  (stdout w ++ ["Invalid choice. Please try again." +:+ nl])).
Proof. exact (invalid_choice_answer choice w). Qed.

(** [main] on a finite input, with more fuel than there are lines. *)
Lemma main_ok fuel w :
  wf (store w) → (length (stdin w) < fuel)%nat →
  io_ok (main repr_str format_2f fuel) w
        (λ _ w', ∃ used, stdin w = used ++ "11" :: stdin w').
Proof.
  revert w.
  induction fuel as [|fuel IH]; intros w Hwf Hfuel; [lia|]. simpl.
  eapply io_ok_bind; [apply io_ok_display_menu|].
  simpl. intros [] w1 (Hs1 & _) Hin1.
  eapply io_ok_bind; [apply io_ok_input|].
  simpl. intros choice w2 (Hs2 & _) Hin2.
  assert (Hwf2 : wf (store w2)) by (by rewrite Hs2, Hs1).
  eapply io_ok_bind; [by apply handle_choice_ok|].
  simpl. intros continue w3 (Hs3 & [used Hused] & _) [Hb H11].
  destruct continue.
  - eapply io_ok_weaken.
    + apply IH; [by rewrite Hs3|].
      rewrite <- Hin1, Hin2, Hused in Hfuel. simpl in Hfuel.
      rewrite length_app in Hfuel. lia.
    + simpl. intros _ w' _ [used' Hused'].
      exists (choice :: used ++ used').
      rewrite <- Hin1, Hin2, Hused, Hused'. simpl. by rewrite <- app_assoc.
  - apply io_ok_ret. exists []. simpl.
    assert (choice = "11") as -> by (by apply Hb).
    rewrite <- Hin1, Hin2. by rewrite (H11 eq_refl).
Qed.

(** X17: [main] cannot go round for ever on a finite input: with more
    fuel than there are lines it ends, with the store as it was.  It
    returns only after reading ["11"] as a choice, which is then the
    last line it has read; otherwise it ends by raising. *)
Theorem main_ends fuel w :
  wf (store w) → (length (stdin w) < fuel)%nat →
  ∃ r w',
    main repr_str format_2f fuel w = Some (r, w') ∧
    store w' = store w ∧
    (∀ u, r = Returns u → ∃ used, stdin w = used ++ "11" :: stdin w').
Proof.
  intros Hwf Hfuel.
  destruct (main_ok fuel w Hwf Hfuel) as (r & w' & Hrun & (Hs & _) & HQ).
  exists r, w'. eauto.
Qed.

End console_properties.

Lemma handle_choice_reads_only_witness :
  wf (store seed_session) ∧
  ∃ r w', @handle_choice binary64 (λ s, s) (λ _, "") "11" seed_session = Some (r, w') ∧
          store w' = store seed_session ∧
          ∀ b, r = Returns b → b = false.
Proof.
  assert (Hwf : wf (store seed_session)) by exact wf_seed.
  destruct (@handle_choice_reads_only binary64 (λ s, s) (λ _, "") "11"
              seed_session Hwf) as (r & w' & Hrun & Hs & _ & _ & Hb).
  split; [exact Hwf|]. exists r, w'.
  split; [exact Hrun|]. split; [exact Hs|].
  intros b Hr. exact (proj2 (Hb b Hr) eq_refl).
Defined.

Lemma handle_choice_unknown_name_witness :
  @handle_choice binary64 (λ s, s) (λ _, "") "6" nobody_session
  = Some (Returns true,
          mkWorld (store nobody_session) []
                  (stdout nobody_session
                   ++ ["Enter the name of the person: ";
                       "Person not found." +:+ nl])).
Proof.
  apply (@handle_choice_unknown_name binary64 (λ s, s) (λ _, "") "6" "Nobody" []
           nobody_session).
  - by_compute.
  - reflexivity.
  - by_compute.
Defined.

Lemma handle_choice_invalid_witness :
  @handle_choice binary64 (λ s, s) (λ _, "") "x" nobody_session
  = Some (Returns true,
          mkWorld (store nobody_session) (stdin nobody_session)
                  (stdout nobody_session
                   ++ ["Invalid choice. Please try again." +:+ nl])).
Proof.
  apply (@handle_choice_invalid binary64 (λ s, s) (λ _, "") "x" nobody_session).
  by_compute.
Defined.

Lemma main_ends_witness :
  wf (store seed_session) ∧
  ∃ r w', @main binary64 (λ s, s) (λ _, "") 6 seed_session = Some (r, w') ∧
          store w' = store seed_session ∧
          ∀ u, r = Returns u →
               ∃ used, stdin seed_session = used ++ "11" :: stdin w'.
Proof.
  assert (Hwf : wf (store seed_session)) by exact wf_seed.
  assert (Hf : (length (stdin seed_session) < 6)%nat) by (simpl; lia).
  split; [exact Hwf|].
  exact (@main_ends binary64 (λ s, s) (λ _, "") 6 seed_session Hwf Hf).
Defined.

(** ** The store under the link-establishing operations *)

Lemma wf_insert_obj σ p o :
  wf σ → closed_obj σ o →
  wf (mkState (<[p := o]> (objs σ)) (lsts σ) (family_tree σ)).
Proof.
  intros (Hobjs & Hlsts & Hmem) Ho.
  assert (Hal : ∀ q, allocated σ q →
            allocated (mkState (<[p := o]> (objs σ)) (lsts σ)
                               (family_tree σ)) q).
  { intros q [oq Hq]. unfold allocated. simpl. rewrite lookup_insert.
    destruct (decide (p = q)); eauto. }
  assert (Hcl : ∀ o', closed_obj σ o' →
            closed_obj (mkState (<[p := o]> (objs σ)) (lsts σ)
                                (family_tree σ)) o').
  { intros o' (H1 & H2 & H3). split; [done|]. split; [done|].
    destruct (_spouse o'); [by apply Hal|done]. }
  split; [|split].
  - intros q oq Hq. simpl in Hq. rewrite lookup_insert in Hq.
    destruct (decide (p = q)).
    + injection Hq as <-. by apply Hcl.
    + apply Hcl. by apply (Hobjs q).
  - intros l xs Hl. eapply Forall_impl; [exact (Hlsts l xs Hl)|exact Hal].
  - eapply Forall_impl; [exact Hmem|]. intros kv. apply Hal.
Qed.

Lemma wf_insert_list σ l ys :
  wf σ → Forall (allocated σ) ys →
  wf (mkState (objs σ) (<[l := ys]> (lsts σ)) (family_tree σ)).
Proof.
  intros (Hobjs & Hlsts & Hmem) Hys.
  assert (Hsome : ∀ l0, is_Some (lsts σ !! l0) →
            is_Some (<[l := ys]> (lsts σ) !! l0)).
  { intros l0 H0. rewrite lookup_insert. by destruct (decide (l = l0)). }
  split; [|split].
  - intros q oq Hq. destruct (Hobjs q oq Hq) as (H1 & H2 & H3).
    split; [by apply Hsome|]. split; [by apply Hsome|exact H3].
  - intros l0 xs Hl0. simpl in Hl0. rewrite lookup_insert in Hl0.
    destruct (decide (l = l0)).
    + by injection Hl0 as <-.
    + exact (Hlsts l0 xs Hl0).
  - exact Hmem.
Qed.

(** The loops of [set_parents] and [set_children] keep the store
    closed, whatever list they walk. *)
Lemma for_in_wf attr self l fuel :
  ∀ i σ σ',
    wf σ → allocated σ self →
    for_in fuel l i (append_self attr self) σ = Some (tt, σ') → wf σ'.
Proof.
  induction fuel as [|fuel IH]; intros i σ σ' Hwf Hself Hrun;
    simpl in Hrun; [done|].
  apply bind_inv in Hrun as (xs0 & σ0 & Hget & Hrun).
  unfold get_list in Hget.
  destruct (lsts σ !! l) as [xs|] eqn:Hl; [|done].
  injection Hget as <- <-.
  destruct (xs !! i) as [x|] eqn:Hi; [|by injection Hrun as <-].
  apply bind_inv in Hrun as ([] & σ1 & Hbody & Hrun).
  apply append_self_inv in Hbody as (o & cs & Ho & Hcs & ->).
  apply (IH _ _ _) in Hrun; [done| |done].
  apply wf_insert_list; [done|].
  apply Forall_app. split; [exact (proj1 (proj2 Hwf) _ _ Hcs)|].
  by constructor.
Qed.

(** Assigning a list to an attribute of [self] and walking it. *)
Lemma set_attr_keeps attr (upd : Person → Person) self l fuel σ σ' o :
  wf σ → objs σ !! self = Some o →
  (is_Some (lsts σ !! l) → closed_obj σ (upd o)) →
  identity (upd o) = identity o →
  for_in fuel l 0 (append_self attr self)
    (mkState (<[self := upd o]> (objs σ)) (lsts σ) (family_tree σ))
  = Some (tt, σ') →
  wf σ' ∧
  (∀ p op, objs σ !! p = Some op →
     ∃ op', objs σ' !! p = Some op' ∧ identity op' = identity op) ∧
  (∀ l xs, lsts σ !! l = Some xs → ∃ ys, lsts σ' !! l = Some (xs ++ ys)) ∧
  family_tree σ' = family_tree σ.
Proof.
  intros Hwf Ho Hupd Hid Hrun.
  assert (Hl : is_Some (lsts σ !! l)).
  { destruct fuel as [|fuel]; [done|]. simpl in Hrun.
    apply bind_inv in Hrun as (xs0 & σ0 & Hget & _).
    unfold get_list in Hget. simpl in Hget.
    by destruct (lsts σ !! l). }
  set (σ0 := mkState (<[self := upd o]> (objs σ)) (lsts σ) (family_tree σ))
    in *.
  assert (Hwf0 : wf σ0) by (apply wf_insert_obj; auto).
  assert (Hself : allocated σ0 self).
  { unfold allocated, σ0. simpl. by rewrite lookup_insert_eq. }
  split; [by eapply for_in_wf|].
  apply for_in_append in Hrun as (Hobjs & Hft & Happ & _).
  split; [|split; [exact Happ|exact Hft]].
  intros q oq Hq. rewrite Hobjs. unfold σ0. simpl. rewrite lookup_insert.
  destruct (decide (self = q)) as [<-|]; [|by exists oq].
  exists (upd o). split; [done|]. congruence.
Qed.

Lemma new_person_store c n b σ :
  wf σ →
  ∃ p σ', new_person c n b σ = Some (p, σ') ∧ wf σ' ∧
          objs σ ⊆ objs σ' ∧
          (∀ l0 ys, lsts σ !! l0 = Some ys → lsts σ' !! l0 = Some ys) ∧
          family_tree σ' = family_tree σ.
Proof.
  intros Hwf.
  set (l1 := fresh (dom (lsts σ))).
  set (σ1 := mkState (objs σ) (<[l1 := []]> (lsts σ)) (family_tree σ)).
  set (l2 := fresh (dom (lsts σ1))).
  set (σ2 := mkState (objs σ1) (<[l2 := []]> (lsts σ1)) (family_tree σ1)).
  set (p := fresh (dom (objs σ2))).
  set (o := mkPerson c n b l1 l2 None).
  assert (Hl1 : lsts σ !! l1 = None) by (apply not_elem_of_dom, is_fresh).
  assert (Hl2' : lsts σ1 !! l2 = None) by (apply not_elem_of_dom, is_fresh).
  assert (Hne : l1 ≠ l2).
  { intros Heq. unfold σ1 in Hl2'. simpl in Hl2'.
    rewrite <- Heq, lookup_insert_eq in Hl2'. done. }
  assert (Hp : objs σ !! p = None) by (apply not_elem_of_dom, is_fresh).
  exists p, (mkState (<[p := o]> (objs σ2)) (lsts σ2) (family_tree σ2)).
  split; [done|]. split; [|split; [|split; [|done]]].
  - apply wf_insert_obj.
    + apply wf_insert_list; [|constructor].
      apply wf_insert_list; [done|constructor].
    + unfold closed_obj, o, σ2, σ1. simpl.
      split; [by rewrite lookup_insert_ne, lookup_insert_eq|].
      split; [by rewrite lookup_insert_eq|done].
  - simpl. by apply insert_subseteq.
  - intros l0 ys Hl0. simpl.
    assert (Hl2 : lsts σ !! l2 = None).
    { unfold σ1 in Hl2'. simpl in Hl2'.
      by rewrite lookup_insert_ne in Hl2'. }
    rewrite !lookup_insert_ne by congruence. done.
Qed.

(** What one operation of a construction script keeps. *)
Lemma run_op_keeps op σ σ' :
  wf σ → op_closed op σ → run_op op σ = Some (tt, σ') →
  wf σ' ∧
  (∀ p o, objs σ !! p = Some o →
     ∃ o', objs σ' !! p = Some o' ∧ identity o' = identity o) ∧
  (∀ l xs, lsts σ !! l = Some xs → ∃ ys, lsts σ' !! l = Some (xs ++ ys)) ∧
  family_tree σ' = family_tree σ.
Proof.
  intros Hwf Hop Hrun. destruct op as [c n b|xs|fuel self l|fuel self l|a b];
    simpl in Hrun, Hop.
  - apply bind_inv in Hrun as (p & σ1 & Hnew & Hret).
    injection Hret as <-.
    destruct (new_person_store c n b σ Hwf)
      as (p' & σ2 & Hnew' & Hwf' & Hsub & Hkeep & Hft).
    rewrite Hnew in Hnew'. injection Hnew' as <- <-.
    split; [done|].
    split; [intros q oq Hq; exists oq; split;
            [by eapply lookup_weaken|done]|].
    split; [|done]. intros l0 xs Hl0. exists []. rewrite app_nil_r. eauto.
  - apply bind_inv in Hrun as (l & σ1 & Hnew & Hret).
    injection Hret as <-. unfold new_list in Hnew. injection Hnew as <- <-.
    assert (Hfresh : lsts σ !! fresh (dom (lsts σ)) = None)
      by (apply not_elem_of_dom, is_fresh).
    split; [by apply wf_insert_list|]. split; [by eauto|]. split; [|done].
    intros l0 ys Hl0. exists []. simpl. rewrite app_nil_r.
    rewrite lookup_insert_ne; [done|congruence].
  - unfold set_parents in Hrun.
    apply bind_inv in Hrun as ([] & σ0 & Hset & Hrun).
    apply set_obj_inv in Hset as (o & Ho & ->).
    apply (set_attr_keeps _children (with_parents l) self l fuel σ σ' o);
      [done|done| |done|exact Hrun].
    intros Hl. destruct (wf_obj σ self o Hwf Ho) as (_ & H2 & H3).
    by split.
  - unfold set_children in Hrun.
    apply bind_inv in Hrun as ([] & σ0 & Hset & Hrun).
    apply set_obj_inv in Hset as (o & Ho & ->).
    apply (set_attr_keeps _parents (with_children l) self l fuel σ σ' o);
      [done|done| |done|exact Hrun].
    intros Hl. destruct (wf_obj σ self o Hwf Ho) as (H1 & _ & H3).
    by split.
  - unfold spouse_setter in Hrun.
    apply bind_inv in Hrun as ([] & σ0 & Hset & Hrun).
    apply set_obj_inv in Hset as (oa & Ha & ->).
    apply set_obj_inv in Hrun as (ob & Hb & ->). simpl in *.
    assert (Hsa : allocated σ a) by (by exists oa).
    assert (Hsb : allocated σ b).
    { rewrite lookup_insert in Hb. destruct (decide (a = b)) as [<-|];
        [done|by exists ob]. }
    destruct (wf_obj σ a oa Hwf Ha) as (Ha1 & Ha2 & _).
    set (σ0 := mkState (<[a := with_spouse (Some b) oa]> (objs σ)) (lsts σ)
                       (family_tree σ)).
    assert (Hwf0 : wf σ0) by (by apply wf_insert_obj).
    assert (Hal0 : ∀ q, allocated σ q → allocated σ0 q).
    { intros q [oq Hq]. unfold allocated, σ0. simpl. rewrite lookup_insert.
      destruct (decide (a = q)); eauto. }
    destruct (wf_obj σ0 b ob Hwf0 Hb) as (Hb1 & Hb2 & _).
    split; [|split; [|split; [|done]]].
    + apply (wf_insert_obj σ0 b (with_spouse (Some a) ob) Hwf0).
      split; [done|]. split; [done|]. simpl. by apply Hal0.
    + intros q oq Hq. simpl. rewrite lookup_insert.
      destruct (decide (b = q)) as [<-|].
      * exists (with_spouse (Some a) ob). split; [done|].
        rewrite lookup_insert in Hb. destruct (decide (a = b)) as [<-|].
        -- injection Hb as <-. rewrite Ha in Hq. by injection Hq as <-.
        -- rewrite Hb in Hq. by injection Hq as <-.
      * rewrite lookup_insert. destruct (decide (a = q)) as [<-|].
        -- exists (with_spouse (Some b) oa). split; [done|].
           rewrite Ha in Hq. by injection Hq as <-.
        -- by exists oq.
    + intros l0 xs Hl0. exists []. by rewrite app_nil_r.
Qed.

(** X18: no operation of a construction script takes anything away.
    When a sequence of constructor calls, list displays and calls of
    [set_parents], [set_children] and the spouse setter has run on a
    closed store, the store is closed again; every person that existed
    still exists, with the class, name and birth date it was constructed
    with; every list object still exists and has its former elements, in
    order, at its front; and the registry is as it was. *)
Theorem link_ops_keep_store ops :
  ∀ σ σ',
    wf σ → ops_closed ops σ → run_ops ops σ = Some (tt, σ') →
    wf σ' ∧
    (∀ p o, objs σ !! p = Some o →
       ∃ o', objs σ' !! p = Some o' ∧ identity o' = identity o) ∧
    (∀ l xs, lsts σ !! l = Some xs → ∃ ys, lsts σ' !! l = Some (xs ++ ys)) ∧
    family_tree σ' = family_tree σ.
Proof.
  induction ops as [|op ops IH]; intros σ σ' Hwf Hcl Hrun; simpl in *.
  - injection Hrun as <-. split; [done|]. split; [by eauto|].
    split; [|done]. intros l xs Hl. exists []. by rewrite app_nil_r.
  - apply bind_inv in Hrun as ([] & σ1 & Hop & Hrun).
    destruct Hcl as [Hcl1 Hcl]. rewrite Hop in Hcl.
    destruct (run_op_keeps op σ σ1 Hwf Hcl1 Hop)
      as (Hwf1 & Hid1 & Hl1 & Hft1).
    destruct (IH σ1 σ' Hwf1 Hcl Hrun) as (Hwf' & Hid' & Hl' & Hft').
    split; [done|]. split; [|split; [|congruence]].
    + intros p o Ho. destruct (Hid1 p o Ho) as (o1 & Ho1 & Heq1).
      destruct (Hid' p o1 Ho1) as (o' & Ho' & Heq').
      exists o'. split; [done|congruence].
    + intros l xs Hl. destruct (Hl1 l xs Hl) as (ys1 & Hys1).
      destruct (Hl' l _ Hys1) as (ys' & Hys').
      exists (ys1 ++ ys'). by rewrite app_assoc.
Qed.

Lemma link_ops_keep_store_witness :
  wf empty_state ∧ ops_closed small_family empty_state ∧
  ∃ σ', run_ops small_family empty_state = Some (tt, σ') ∧ wf σ' ∧
        parents_of σ' 3%positive = [1; 2; 2]%positive.
Proof.
  assert (Hwf : wf empty_state) by by_compute.
  assert (Hcl : ops_closed small_family empty_state) by by_compute.
  split; [exact Hwf|]. split; [exact Hcl|].
  eexists. split; [vm_compute; reflexivity|].
  split; [|vm_compute; reflexivity].
  eapply (link_ops_keep_store small_family empty_state _ Hwf Hcl).
  vm_compute; reflexivity.
Defined.

(** ** What the console shows *)

Lemma iobind_assoc {A B C} (m : IO A) (k : A → IO B) (k' : B → IO C) w :
  iobind (iobind m k) k' w = iobind m (λ a, iobind (k a) k') w.
Proof. unfold iobind. by destruct (m w) as [[[a|e] w']|]. Qed.

Lemma iobind_input {B} prompt (k : string → IO B) w line rest :
  stdin w = line :: rest →
  iobind (input prompt) k w
  = k line (mkWorld (store w) rest (stdout w ++ [prompt])).
Proof. intros Hin. unfold iobind, input. by rewrite Hin. Qed.

Lemma iobind_lift {A B} (m : M A) (k : A → IO B) a w :
  m (store w) = Some (a, store w) → iobind (lift m) k w = k a w.
Proof. intros Hm. unfold iobind, lift. rewrite Hm. by destruct w. Qed.

Lemma iobind_print {B} s (k : unit → IO B) w :
  iobind (print s) k w
  = k tt (mkWorld (store w) (stdin w) (stdout w ++ [s +:+ nl])).
Proof. done. Qed.

Lemma strs_eq σ xs :
  Forall (allocated σ) xs → strs xs σ = Some (names_of σ xs, σ).
Proof.
  intros Hxs. unfold strs.
  rewrite (foldM_read _
             (λ out x, out ++ [from_option _name "" (objs σ !! x)])).
  - f_equal. f_equal. unfold names_of.
    assert (H : ∀ acc,
              foldl (λ out x, out ++ [from_option _name "" (objs σ !! x)])
                    acc xs
              = acc ++ omap (λ x, _name <$> objs σ !! x) xs);
      [|by rewrite H].
    induction Hxs as [|x xs [o Ho] _ IH]; intros acc; csimpl.
    + by rewrite app_nil_r.
    + rewrite IH, Ho. csimpl. by rewrite <- app_assoc.
  - intros out x Hx. rewrite Forall_forall in Hxs.
    destruct (Hxs x Hx) as [o Ho]. unfold __str__, name.
    erewrite bind_Some;
      [|erewrite bind_Some; [reflexivity|by apply get_obj_Some]].
    by rewrite Ho.
Qed.

(** Each query of the choices 2 to 7 returns on a closed store, leaves
    it as it is and returns persons of the store. *)
Lemma query_of_reads choice label query σ p :
  wf σ → allocated σ p → query_of choice = Some (label, query) →
  ∃ rel, query p σ = Some (rel, σ) ∧ Forall (allocated σ) rel.
Proof.
  intros Hwf Hp Hq. unfold query_of in Hq.
  repeat (destruct (decide (choice = _)) as [_|_];
          [injection Hq as <- <-|]); [..|done].
  - destruct (find_parents_reads σ p Hwf Hp) as (l & Hl & Hg & Hall).
    exists (parents_of σ p). split; [|done]. by erewrite bind_Some.
  - by apply find_grandparents_reads.
  - by apply find_immediate_family_reads.
  - by apply find_extended_family_reads.
  - by apply find_siblings_reads.
  - by apply find_cousins_reads.
Qed.

(** Deciding the comparisons of a [match] on a given choice. *)
Ltac pick_case :=
  repeat match goal with
         | |- context [decide (?a = ?b)] =>
             let Hd := fresh in
             destruct (decide (a = b)) as [Hd|Hd];
             [try discriminate Hd|try (exfalso; apply Hd; reflexivity)];
             try clear Hd
         end.

Section console_output.
Context `{Arith}.
Variable repr_str : string → string.
Variable format_2f : number → string.

(** What choices 2 to 7 write for a registered name. *)
Lemma relatives_answer choice label query n p rest w :
  wf (store w) →
  query_of choice = Some (label, query) →
  stdin w = n :: rest →
  pydict.get (members (family_tree (store w))) n = Some p →
  ∃ rel,
    query p (store w) = Some (rel, store w) ∧
    handle_choice repr_str format_2f choice w
    = Some (Returns true,
            mkWorld (store w) rest
              (stdout w ++ ["Enter the name of the person: ";
                            (label +:+ " of " +:+ n +:+ ": "
                             +:+ list_str repr_str (names_of (store w) rel))
                            +:+ nl])).
Proof.
  intros Hwf Hq Hin Hg.
  assert (Hp : allocated (store w) p)
    by eauto using wf_member, pydict_get_Some.
  destruct (query_of_reads choice label query (store w) p Hwf Hp Hq)
    as (rel & Hrel & Hall).
  exists rel. split; [exact Hrel|].
  pose proof (strs_eq (store w) rel Hall) as Hstrs.
  set (w1 := mkWorld (store w) rest
                     (stdout w ++ ["Enter the name of the person: "])).
  assert (Hout : ∀ s, Some (Returns true,
                   mkWorld (store w1) (stdin w1) (stdout w1 ++ [s]))
                 = Some (Returns true,
                   mkWorld (store w) rest
                     (stdout w ++ ["Enter the name of the person: "; s]))).
  { intros s. unfold w1. simpl. by rewrite <- app_assoc. }
  assert (Hgp : get_person n (store w) = Some (Some p, store w))
    by (by rewrite get_person_reads, Hg).
  unfold query_of in Hq.
  repeat (destruct (decide (choice = _)) as [->|?];
          [injection Hq as <- <-|]); [..|done];
    unfold handle_choice; pick_case;
    rewrite (iobind_input _ _ w n rest Hin); fold w1;
    rewrite (iobind_lift _ _ (Some p) w1) by exact Hgp;
    rewrite !iobind_assoc.
  - apply bind_inv in Hrel as (l & σ0 & Hl & Hget).
    assert (σ0 = store w) as ->.
    { unfold find_parents, parents in Hl.
      apply bind_inv in Hl as (o & σ1 & Hl & Hret).
      unfold get_obj in Hl. destruct (objs (store w) !! p); [|done].
      injection Hl as <- <-. by injection Hret as <- <-. }
    rewrite (iobind_lift _ _ l w1) by exact Hl.
    rewrite !iobind_assoc.
    rewrite (iobind_lift _ _ rel w1) by exact Hget.
    rewrite !iobind_assoc.
    rewrite (iobind_lift _ _ _ w1) by exact Hstrs.
    rewrite iobind_print. apply Hout.
  - rewrite (iobind_lift _ _ rel w1) by exact Hrel.
    rewrite !iobind_assoc.
    rewrite (iobind_lift _ _ _ w1) by exact Hstrs.
    rewrite iobind_print. apply Hout.
  - rewrite (iobind_lift _ _ rel w1) by exact Hrel.
    rewrite !iobind_assoc.
    rewrite (iobind_lift _ _ _ w1) by exact Hstrs.
    rewrite iobind_print. apply Hout.
  - rewrite (iobind_lift _ _ rel w1) by exact Hrel.
    rewrite !iobind_assoc.
    rewrite (iobind_lift _ _ _ w1) by exact Hstrs.
    rewrite iobind_print. apply Hout.
  - rewrite (iobind_lift _ _ rel w1) by exact Hrel.
    rewrite !iobind_assoc.
    rewrite (iobind_lift _ _ _ w1) by exact Hstrs.
    rewrite iobind_print. apply Hout.
  - rewrite (iobind_lift _ _ rel w1) by exact Hrel.
    rewrite !iobind_assoc.
    rewrite (iobind_lift _ _ _ w1) by exact Hstrs.
    rewrite iobind_print. apply Hout.
Qed.

(** X19: for each of the choices 2 to 7 and a name under which the
    registry has a person, [handle_choice] reads the name, runs the query
    of that choice on the person, which returns and leaves the store as
    it is, and writes after the prompt one line: the label of the choice,
    the name as it was typed, and the list of the names of the persons
    returned, in the order in which the query returned them.  It raises
    nothing and returns [True]. *)
Theorem handle_choice_shows_relatives choice label query n p rest w :
  wf (store w) →
  query_of choice = Some (label, query) →
  stdin w = n :: rest →
  pydict.get (members (family_tree (store w))) n = Some p →
  ∃ rel,
    query p (store w) = Some (rel, store w) ∧
    handle_choice repr_str format_2f choice w
    = Some (Returns true,
            mkWorld (store w) rest
              (stdout w ++ ["Enter the name of the person: ";
                            (label +:+ " of " +:+ n +:+ ": "
                             +:+ list_str repr_str (names_of (store w) rel))
                            +:+ nl])).
Proof. exact (relatives_answer choice label query n p rest w). Qed.

End console_output.

Lemma handle_choice_shows_relatives_witness :
  wf (store lucas_session) ∧
  @handle_choice binary64 (λ s, "'" +:+ s +:+ "'") (λ _, "") "6" lucas_session
  = Some (Returns true,
          mkWorld (store lucas_session) ["11"]
            ["Enter the name of the person: ";
             "Siblings of Lucas Emmersohn: ['Emma Emmersohn']" +:+ nl]).
Proof.
  assert (Hwf : wf (store lucas_session)) by exact wf_seed.
  split; [exact Hwf|].
  assert (Hq : query_of "6" = Some ("Siblings", find_siblings))
    by reflexivity.
  assert (Hin : stdin lucas_session = ["Lucas Emmersohn"; "11"])
    by reflexivity.
  assert (Hg : pydict.get (members (family_tree (store lucas_session)))
                 "Lucas Emmersohn" = Some 7%positive)
    by (vm_compute; reflexivity).
  pose proof (@handle_choice_shows_relatives binary64 (λ s, "'" +:+ s +:+ "'")
                (λ _, "") "6" "Siblings" find_siblings "Lucas Emmersohn"
                7%positive ["11"] lucas_session Hwf Hq Hin Hg) as H.
  destruct H as (rel & Hrel & Hrun).
  assert (Hc : find_siblings 7%positive (store lucas_session)
               = Some ([8%positive], store lucas_session))
    by (vm_compute; reflexivity).
  assert (Heq : rel = [8%positive])
    by exact (f_equal (λ r : option (list pid * state),
                         match r with Some (l, _) => l | None => [] end)
                      (eq_trans (eq_sym Hrel) Hc)).
  clear Hc Hrel. subst rel.
  refine (eq_trans Hrun _).
  vm_compute. reflexivity.
Defined.

Lemma for_each_print {A} (f : A → string) (body : A → IO unit) xs w :
  (∀ x, body x = print (f x)) →
  for_each xs body w
  = Some (Returns tt,
          mkWorld (store w) (stdin w)
                  (stdout w ++ ((λ x, f x +:+ nl) <$> xs))).
Proof.
  intros Hbody. revert w. induction xs as [|x xs IH]; intros w; csimpl.
  - rewrite app_nil_r. by destruct w.
  - rewrite Hbody, iobind_print, IH. simpl. by rewrite <- app_assoc.
Qed.

Lemma iobind_returns {A B} (m : IO A) (k : A → IO B) a w w' :
  m w = Some (Returns a, w') → iobind m k w = k a w'.
Proof. intros Hm. unfold iobind. by rewrite Hm. Qed.

Section console_statistics.
Context `{Arith}.
Variable repr_str : string → string.
Variable format_2f : number → string.

(** What choices 8, 9 and 10 write. *)
Lemma statistics_answer w :
  wf (store w) →
  (∃ cal,
     get_birthdays_calendar (store w) = Some (cal, store w) ∧
     handle_choice repr_str format_2f "8" w
     = Some (Returns true,
             mkWorld (store w) (stdin w)
               (stdout w ++ ("Family Birthday Calendar:" +:+ nl)
                            :: (calendar_line <$> cal)))) ∧
  (∃ avg_age,
     calculate_average_age (store w) = Some (avg_age, store w) ∧
     handle_choice repr_str format_2f "9" w
     = Some (Returns true,
             mkWorld (store w) (stdin w)
               (stdout w ++ [("The average age at death is: "
                              +:+ format_2f avg_age +:+ " years") +:+ nl]))) ∧
  (∃ children_data avg_children,
     calculate_children_statistics (store w)
     = Some ((children_data, avg_children), store w) ∧
     handle_choice repr_str format_2f "10" w
     = Some (Returns true,
             mkWorld (store w) (stdin w)
               (stdout w ++ ("Number of children per individual:" +:+ nl)
                            :: (count_line <$> children_data)
                            ++ [("The average number of children per person is: "
                                 +:+ format_2f avg_children) +:+ nl]))).
Proof.
  intros Hwf. split; [|split].
  - eexists. split; [by apply get_birthdays_calendar_eq|].
    unfold handle_choice. pick_case.
    rewrite iobind_print.
    set (w1 := mkWorld _ _ _).
    rewrite (iobind_lift _ _ _ w1) by (by apply get_birthdays_calendar_eq).
    erewrite iobind_returns; cycle 1.
    { apply (for_each_print
               (λ e : (Z * Z) * list string,
                  zfill 2 (pretty e.1.2) +:+ "/" +:+ zfill 2 (pretty e.1.1)
                  +:+ ": " +:+ String.concat ", " e.2)).
      by intros [date names]. }
    unfold ioret, w1. simpl. by rewrite <- app_assoc.
  - destruct (calculate_average_age_reads _ Hwf) as [q Hq].
    exists q. split; [exact Hq|].
    unfold handle_choice. pick_case.
    rewrite (iobind_lift _ _ _ w Hq). by rewrite iobind_print.
  - pose proof (calculate_children_statistics_eq _ Hwf) as Hs.
    eexists _, _. split; [exact Hs|].
    unfold handle_choice. pick_case.
    rewrite (iobind_lift _ _ _ w Hs). rewrite iobind_print.
    erewrite iobind_returns; cycle 1.
    { apply (for_each_print (λ e : string * Z, e.1 +:+ ": " +:+ pretty e.2)).
      by intros [name count]. }
    rewrite iobind_print. unfold ioret. simpl.
    by rewrite <- !app_assoc.
Qed.

(** X20: on a closed store the choices 8, 9 and 10 read no line, raise
    nothing and return [True]; the method behind each returns and leaves
    the store as it is, and what is written is its result: for 8 the
    heading and one line for each entry of the calendar, in its order,
    with the day before the month; for 9 one line with the average age;
    for 10 the heading, one line for each entry of the dictionary, in
    its order, and the line with the average. *)
Theorem handle_choice_statistics w :
  wf (store w) →
  (∃ cal,
     get_birthdays_calendar (store w) = Some (cal, store w) ∧
     handle_choice repr_str format_2f "8" w
     = Some (Returns true,
             mkWorld (store w) (stdin w)
               (stdout w ++ ("Family Birthday Calendar:" +:+ nl)
                            :: (calendar_line <$> cal)))) ∧
  (∃ avg_age,
     calculate_average_age (store w) = Some (avg_age, store w) ∧
     handle_choice repr_str format_2f "9" w
     = Some (Returns true,
             mkWorld (store w) (stdin w)
               (stdout w ++ [("The average age at death is: "
                              +:+ format_2f avg_age +:+ " years") +:+ nl]))) ∧
  (∃ children_data avg_children,
     calculate_children_statistics (store w)
     = Some ((children_data, avg_children), store w) ∧
     handle_choice repr_str format_2f "10" w
     = Some (Returns true,
             mkWorld (store w) (stdin w)
               (stdout w ++ ("Number of children per individual:" +:+ nl)
                            :: (count_line <$> children_data)
                            ++ [("The average number of children per person is: "
                                 +:+ format_2f avg_children) +:+ nl]))).
Proof. exact (statistics_answer w). Qed.

(** What choice 1 does for a registered name. *)
Lemma details_answer n p o rest w :
  stdin w = n :: rest →
  pydict.get (members (family_tree (store w))) n = Some p →
  objs (store w) !! p = Some o →
  handle_choice repr_str format_2f "1" w
  = match class_ o with
    | PersonBase =>
        Some (Raises (Error (NotImplementedError
                "This method should be implemented in subclasses")),
              mkWorld (store w) rest
                      (stdout w ++ ["Enter the name of the person: "]))
    | LivingPerson =>
        Some (Returns true,
              mkWorld (store w) rest
                (stdout w ++ ["Enter the name of the person: ";
                              ("Name: " +:+ _name o +:+ ", Birth Date: "
                               +:+ isoformat (_birth_date o) +:+ " (Alive)")
                              +:+ nl]))
    | DeceasedPerson death_date =>
        Some (Returns true,
              mkWorld (store w) rest
                (stdout w ++ ["Enter the name of the person: ";
                              ("Name: " +:+ _name o +:+ ", Birth Date: "
                               +:+ isoformat (_birth_date o)
                               +:+ ", Death Date: " +:+ isoformat death_date)
                              +:+ nl]))
    end.
Proof.
  intros Hin Hg Ho. unfold handle_choice. pick_case.
  rewrite (iobind_input _ _ w n rest Hin).
  unfold iobind, lift_exn, get_member_details, get_person, get_members,
    bind, ret. simpl. rewrite Hg.
  unfold display_details, bind, get_obj. rewrite Ho.
  destruct (class_ o); simpl; [done| |]; by rewrite <- app_assoc.
Qed.

(** X21: choice 1 for a name under which the registry has a person.
    For an instance of [LivingPerson] or [DeceasedPerson] the call reads
    the name and writes, after the prompt, one line with the name the
    person was constructed with, the birth date as [YYYY-MM-DD], and
    either [(Alive)] or the death date; it returns [True].  For an
    instance of the base class nothing but the prompt is written and the
    [NotImplementedError] comes out of [handle_choice]. *)
Theorem handle_choice_shows_details n p o rest w :
  stdin w = n :: rest →
  pydict.get (members (family_tree (store w))) n = Some p →
  objs (store w) !! p = Some o →
  handle_choice repr_str format_2f "1" w
  = match class_ o with
    | PersonBase =>
        Some (Raises (Error (NotImplementedError
                "This method should be implemented in subclasses")),
              mkWorld (store w) rest
                      (stdout w ++ ["Enter the name of the person: "]))
    | LivingPerson =>
        Some (Returns true,
              mkWorld (store w) rest
                (stdout w ++ ["Enter the name of the person: ";
                              ("Name: " +:+ _name o +:+ ", Birth Date: "
                               +:+ isoformat (_birth_date o) +:+ " (Alive)")
                              +:+ nl]))
    | DeceasedPerson death_date =>
        Some (Returns true,
              mkWorld (store w) rest
                (stdout w ++ ["Enter the name of the person: ";
                              ("Name: " +:+ _name o +:+ ", Birth Date: "
                               +:+ isoformat (_birth_date o)
                               +:+ ", Death Date: " +:+ isoformat death_date)
                              +:+ nl]))
    end.
Proof. exact (details_answer n p o rest w). Qed.

End console_statistics.

Lemma handle_choice_statistics_witness :
  wf (store nobody_session) ∧
  @handle_choice binary64 (λ s, s) (λ _, "") "8" nobody_session
  = Some (Returns true,
          mkWorld (store nobody_session) ["Nobody"]
            (((λ s, s +:+ nl) <$>
              ["Family Birthday Calendar:";
               "28/02: Emma Emmersohn";
               "22/03: Hans Emmersohn";
               "10/04: Anna Singh";
               "20/05: Cornelia Emmersohn";
               "05/06: Raj Singh, Maria MÃ¼ller";
               "15/08: Otto Emmersohn";
               "12/11: Lucas Emmersohn"]))).
Proof.
  assert (Hwf : wf (store nobody_session)) by exact wf_seed.
  split; [exact Hwf|].
  pose proof (@handle_choice_statistics binary64 (λ s, s) (λ _, "") nobody_session Hwf)
    as H.
  destruct H as ((cal & Hcal & Hrun) & _).
  assert (Heq : cal = match get_birthdays_calendar (store nobody_session)
                      with Some (c, _) => c | None => [] end)
    by exact (f_equal (λ r : option (list (Z * Z * list string) * state),
                         match r with Some (c, _) => c | None => [] end)
                      (eq_sym Hcal)).
  clear Hcal. subst cal.
  refine (eq_trans Hrun _).
  vm_compute. reflexivity.
Defined.

Lemma handle_choice_shows_details_witness :
  @handle_choice binary64 (λ s, s) (λ _, "") "1" emma_session
  = Some (Returns true,
          mkWorld (store emma_session) []
            ["Enter the name of the person: ";
             "Name: Emma Emmersohn, Birth Date: 1995-02-28 (Alive)" +:+ nl])
  ∧ @handle_choice binary64 (λ s, s) (λ _, "") "1" nemo_session
    = Some (Raises (Error (NotImplementedError
              "This method should be implemented in subclasses")),
            mkWorld (store nemo_session) ["11"]
              ["Enter the name of the person: "]).
Proof.
  split.
  - assert (Ho : ∃ o, objs (store emma_session) !! 8%positive = Some o ∧
                      class_ o = LivingPerson ∧
                      _name o = "Emma Emmersohn" ∧
                      _birth_date o = Date 1995 2 28)
      by (eexists; split; [|split; [|split]]; vm_compute; reflexivity).
    destruct Ho as (o & Ho & Hc & Hn & Hb).
    assert (Hin : stdin emma_session = ["Emma Emmersohn"]) by reflexivity.
    assert (Hg : pydict.get (members (family_tree (store emma_session)))
                   "Emma Emmersohn" = Some 8%positive)
      by (vm_compute; reflexivity).
    pose proof (@handle_choice_shows_details binary64 (λ s, s) (λ _, "")
                  "Emma Emmersohn" 8%positive o [] emma_session Hin Hg Ho)
      as H.
    rewrite Hc, Hn, Hb in H. refine (eq_trans H _).
    vm_compute. reflexivity.
  - assert (Ho : ∃ o, objs (store nemo_session) !! 1%positive = Some o ∧
                      class_ o = PersonBase)
      by (eexists; split; vm_compute; reflexivity).
    destruct Ho as (o & Ho & Hc).
    assert (Hin : stdin nemo_session = ["Nemo"; "11"]) by reflexivity.
    assert (Hg : pydict.get (members (family_tree (store nemo_session)))
                   "Nemo" = Some 1%positive)
      by (vm_compute; reflexivity).
    pose proof (@handle_choice_shows_details binary64 (λ s, s) (λ _, "")
                  "Nemo" 1%positive o ["11"] nemo_session Hin Hg Ho) as H.
    rewrite Hc in H. refine (eq_trans H _).
    vm_compute. reflexivity.
Defined.

(** ** How the console can end *)

Lemma display_menu_returns w :
  ∃ w1, display_menu w = Some (Returns tt, w1) ∧
        store w1 = store w ∧ stdin w1 = stdin w.
Proof.
  unfold display_menu.
  do 10 (rewrite iobind_print; cbn [store stdin stdout]).
  unfold print. cbn [store stdin stdout]. eexists. split; [reflexivity|].
  split; reflexivity.
Qed.

Section console_end.
Context `{Arith}.
Variable repr_str : string → string.
Variable format_2f : number → string.

(** On a closed store without instances of the base class,
    [handle_choice] raises only when it asks for a name and no line is
    left. *)
Lemma handle_choice_raises choice w e w' :
  wf (store w) → no_base_instance (store w) →
  handle_choice repr_str format_2f choice w = Some (Raises e, w') →
  e = EOFError ∧ stdin w' = [].
Proof.
  intros Hwf Hnb Hrun.
  destruct (decide (choice ∈ known_choices)) as [Hk|Hk];
    [|by rewrite invalid_choice_answer in Hrun].
  destruct (decide (choice ∈ ["1"; "2"; "3"; "4"; "5"; "6"; "7"]))
    as [H17|H17].
  - destruct (stdin w) as [|n rest] eqn:Hin.
    { revert Hrun. clear Hk.
      repeat (apply elem_of_cons in H17 as [->|H17]);
        [..|by apply elem_of_nil in H17];
        unfold handle_choice; pick_case; unfold iobind at 1, input;
        rewrite Hin; by intros [= <- <-]. }
    destruct (pydict.get (members (family_tree (store w))) n) as [p|] eqn:Hg;
      [|rewrite (unknown_name_answer repr_str format_2f choice n rest w)
          in Hrun; [done|done|done|by apply pydict_get_None_iff]].
    pose proof (pydict_get_Some _ _ _ Hg) as Hmem.
    destruct (wf_member _ _ _ Hwf Hmem) as [o Ho].
    destruct (decide (choice = "1")) as [->|H1].
    + rewrite (details_answer repr_str format_2f n p o rest w Hin Hg Ho)
        in Hrun.
      unfold no_base_instance in Hnb. rewrite Forall_forall in Hnb.
      specialize (Hnb _ Hmem). simpl in Hnb. rewrite Ho in Hnb.
      simpl in Hnb. by destruct (class_ o).
    + assert (Hq : is_Some (query_of choice)).
      { clear -H17 H1.
        repeat (apply elem_of_cons in H17 as [->|H17]);
          [done|by eexists..|by apply elem_of_nil in H17]. }
      destruct Hq as [[label query] Hq].
      destruct (relatives_answer repr_str format_2f choice label query
                  n p rest w Hwf Hq Hin Hg) as (rel & _ & Heq).
      by rewrite Heq in Hrun.
  - destruct (statistics_answer repr_str format_2f w Hwf)
      as ((? & _ & H8) & (? & _ & H9) & (? & ? & _ & H10)).
    unfold known_choices in Hk.
    repeat (apply elem_of_cons in Hk as [->|Hk]);
      [..|by apply elem_of_nil in Hk];
      try (exfalso; apply H17; by_compute);
      [by rewrite H8 in Hrun|by rewrite H9 in Hrun|by rewrite H10 in Hrun|].
    revert Hrun. unfold handle_choice. pick_case. by rewrite iobind_print.
Qed.

(** X22: with a closed store in which no member is an instance of the
    base class, and more fuel than there are lines of input, [main]
    ends in one of two ways: it returns, having read the choice ["11"]
    as its last line, or [input] finds no line left and the [EOFError]
    comes out of [main].  Nothing else is ever raised, and the store is
    as it was. *)
Theorem main_returns_or_eof fuel w :
  wf (store w) → no_base_instance (store w) →
  (length (stdin w) < fuel)%nat →
  ∃ r w',
    main repr_str format_2f fuel w = Some (r, w') ∧
    store w' = store w ∧
    ((r = Returns tt ∧ ∃ used, stdin w = used ++ "11" :: stdin w') ∨
     (r = Raises EOFError ∧ stdin w' = [])).
Proof.
  intros Hwf Hnb Hfuel.
  destruct (main_ok repr_str format_2f fuel w Hwf Hfuel)
    as (r & w' & Hrun & (Hs & _) & HQ).
  exists r, w'. split; [exact Hrun|]. split; [exact Hs|].
  destruct r as [[]|e]; [left; split; [done|by apply (HQ tt)]|right].
  clear HQ Hs Hfuel.
  cut (e = EOFError ∧ stdin w' = []); [by intros [-> ?]|].
  revert w Hwf Hnb Hrun.
  induction fuel as [|fuel IH]; intros w Hwf Hnb Hrun; [done|].
  simpl in Hrun.
  destruct (display_menu_returns w) as (w1 & Hmenu & Hs1 & Hin1).
  rewrite (iobind_returns _ _ _ _ _ Hmenu) in Hrun.
  destruct (stdin w1) as [|choice rest] eqn:Hin.
  { unfold iobind at 1, input in Hrun. rewrite Hin in Hrun.
    by injection Hrun as <- <-. }
  rewrite (iobind_input _ _ w1 choice rest Hin) in Hrun.
  set (w2 := mkWorld _ _ _) in Hrun.
  assert (Hs2 : store w2 = store w) by exact Hs1.
  assert (Hwf2 : wf (store w2)) by (by rewrite Hs2).
  assert (Hnb2 : no_base_instance (store w2)) by (by rewrite Hs2).
  destruct (handle_choice_ok repr_str format_2f choice w2 Hwf2)
    as (r3 & w3 & Hrun3 & (Hs3 & _) & _).
  unfold iobind at 1 in Hrun. rewrite Hrun3 in Hrun.
  destruct r3 as [a|e3].
  - destruct a.
    + apply (IH w3); [by rewrite Hs3|by rewrite Hs3|exact Hrun].
    + done.
  - injection Hrun as <- <-.
    by apply (handle_choice_raises choice w2 e3 w3).
Qed.

End console_end.

Lemma main_returns_or_eof_witness :
  wf (store lucas_session) ∧ no_base_instance (store lucas_session) ∧
  ∃ r w', @main binary64 (λ s, s) (λ _, "") 4 lucas_session = Some (r, w') ∧
          (r = Returns tt ∨ r = Raises EOFError).
Proof.
  assert (Hwf : wf (store lucas_session)) by exact wf_seed.
  assert (Hnb : no_base_instance (store lucas_session)) by by_compute.
  assert (Hf : (length (stdin lucas_session) < 4)%nat) by (simpl; lia).
  split; [exact Hwf|]. split; [exact Hnb|].
  pose proof (@main_returns_or_eof binary64 (λ s, s) (λ _, "") 4 lucas_session
                Hwf Hnb Hf) as H.
  destruct H as (r & w' & Hrun & _ & Hr).
  exists r, w'. split; [exact Hrun|].
  destruct Hr as [[Hr _]|[Hr _]]; [left|right]; exact Hr.
Defined.

(** ** The age at death and the calendar *)

Lemma days_before_year_step y :
  days_before_year (y + 1)
  = days_before_year y + 365 + (if is_leap y then 1 else 0).
Proof.
  unfold days_before_year, is_leap. cbv zeta.
  replace (y + 1 - 1) with y by lia.
  destruct (Z.eqb_spec (y mod 4) 0), (Z.eqb_spec (y mod 100) 0),
    (Z.eqb_spec (y mod 400) 0); simpl; Z.div_mod_to_equations; lia.
Qed.

Lemma days_before_year_mono y k :
  0 ≤ k → days_before_year y + 365 * k ≤ days_before_year (y + k).
Proof.
  revert k. apply natlike_ind.
  - replace (y + 0) with y by lia. lia.
  - intros k Hk IH. replace (y + Z.succ k) with (y + k + 1) by lia.
    rewrite days_before_year_step. destruct (is_leap (y + k)); lia.
Qed.

Lemma days_before_year_later y y' :
  y < y' →
  days_before_year y + 365 * (y' - y) + (if is_leap y then 1 else 0)
  ≤ days_before_year y'.
Proof.
  intros Hlt.
  pose proof (days_before_year_mono (y + 1) (y' - y - 1) ltac:(lia)) as H.
  replace (y + 1 + (y' - y - 1)) with y' in H by lia.
  rewrite days_before_year_step in H. lia.
Qed.

(** From birth to death there are at least 365 days for each year of
    the calendar age. *)
Lemma sub_days_calendar_age b d :
  valid_date b → valid_date d → date_le b d →
  0 ≤ calendar_age b d ∧ 365 * calendar_age b d ≤ sub_days d b.
Proof.
  destruct b as [yb mb db], d as [yd md dd].
  unfold valid_date, date_le, calendar_age, sub_days, toordinal,
    days_in_month, days_before_month, DAYS_BEFORE_MONTH. simpl.
  intros (_ & Hmb & Hdb) (_ & Hmd & Hdd) Hle.
  assert (Hy : (yb = yd ∧ is_leap yd = is_leap yb ∧
                days_before_year yd = days_before_year yb) ∨
               (yb < yd ∧
                days_before_year yb + 365 * (yd - yb)
                + (if is_leap yb then 1 else 0) ≤ days_before_year yd)).
  { destruct (decide (yb = yd)) as [->|]; [by left|right].
    assert (yb < yd) by lia. split; [done|].
    by apply days_before_year_later. }
  revert Hy Hdb Hdd.
  generalize (days_before_year yb) (days_before_year yd)
    (is_leap yb) (is_leap yd).
  intros Nb Nd lb ld Hy Hdb Hdd.
  assert (Hb : mb = 1 ∨ mb = 2 ∨ mb = 3 ∨ mb = 4 ∨ mb = 5 ∨ mb = 6 ∨
               mb = 7 ∨ mb = 8 ∨ mb = 9 ∨ mb = 10 ∨ mb = 11 ∨ mb = 12)
    by lia.
  assert (Hd : md = 1 ∨ md = 2 ∨ md = 3 ∨ md = 4 ∨ md = 5 ∨ md = 6 ∨
               md = 7 ∨ md = 8 ∨ md = 9 ∨ md = 10 ∨ md = 11 ∨ md = 12)
    by lia.
  clear Hmb Hmd.
  destruct (decide (md < mb ∨ md = mb ∧ dd < db)) as [Hbd|Hbd];
  destruct Hb as [->|[->|[->|[->|[->|[->|[->|[->|[->|[->|[->| ->]]]]]]]]]]];
    destruct Hd as [->|[->|[->|[->|[->|[->|[->|[->|[->|[->|[->| ->]]]]]]]]]]];
    simpl in *; destruct lb, ld; simpl in *; lia.
Qed.

Lemma ages_Forall2 (m : gmap positive Person) (ms : list (string * pid)) :
  Forall (λ kv, match m !! kv.2 with
                | Some o =>
                    match class_ o with
                    | DeceasedPerson death_date =>
                        valid_date (_birth_date o) ∧ valid_date death_date ∧
                        date_le (_birth_date o) death_date
                    | _ => True
                    end
                | None => True
                end) ms →
  Forall2 (λ c a, 0 ≤ c ≤ a)
    (omap (λ p, o ← m !! p;
                match class_ o with
                | DeceasedPerson death_date =>
                    Some (calendar_age (_birth_date o) death_date)
                | _ => None
                end) ms.*2)
    (omap (λ p, m !! p ≫= age_at_death) ms.*2).
Proof.
  induction 1 as [|[n p] ms Hp _ IH]; csimpl; [constructor|].
  simpl in Hp. destruct (m !! p) as [o|]; simpl; [|exact IH].
  unfold age_at_death. destruct (class_ o) as [| |dd]; [exact IH..|].
  destruct Hp as (Hb & Hd & Hle). constructor; [|exact IH].
  destruct (sub_days_calendar_age _ _ Hb Hd Hle) as [H0 H365].
  split; [done|]. apply Z.div_le_lower_bound; lia.
Qed.

Lemma total_le xs ys :
  Forall2 (λ c a, 0 ≤ c ≤ a) xs ys → 0 ≤ total xs ≤ total ys.
Proof.
  unfold total. induction 1 as [|c a xs ys Hca _ IH]; simpl; lia.
Qed.

(** X23: where every deceased member has dates that [date] accepts and
    a death date not before the birth date, the age that
    [calculate_average_age] counts for a member, the days lived divided
    by 365, is never negative and never below the age in whole calendar
    years.  So the integer total that is divided at the end is not
    negative and not below the total of the calendar ages, and it is
    divided by the number of deceased members. *)
Theorem calculate_average_age_calendar `{Arith} σ :
  wf σ → lifespans_valid σ →
  Forall2 (λ c a, 0 ≤ c ≤ a) (calendar_ages σ) (deceased_ages σ) ∧
  ∃ total_age count,
    calculate_average_age σ
    = Some (if decide (count = 0) then Int 0
            else Float (truediv total_age count), σ) ∧
    count = Z.of_nat (length (calendar_ages σ)) ∧
    0 ≤ total (calendar_ages σ) ≤ total_age.
Proof.
  intros Hwf Hv.
  assert (H2 : Forall2 (λ c a, 0 ≤ c ≤ a) (calendar_ages σ)
                       (deceased_ages σ)) by (by apply ages_Forall2).
  split; [exact H2|].
  exists (total (deceased_ages σ)), (Z.of_nat (length (deceased_ages σ))).
  split; [|split].
  - rewrite calculate_average_age_eq by done. unfold mean.
    destruct (deceased_ages σ) as [|a l]; [done|].
    destruct (decide (a :: l = [])) as [|_]; [done|].
    by destruct (decide (Z.of_nat (length (a :: l)) = 0)).
  - by rewrite (Forall2_length _ _ _ H2).
  - by apply total_le.
Qed.

Lemma calculate_average_age_calendar_witness :
  wf seed_state ∧ lifespans_valid seed_state ∧
  calendar_ages seed_state = [54; 69; 68; 62; 72] ∧
  ∃ total_age count,
    @calculate_average_age binary64 seed_state
    = Some (if decide (count = 0) then Int 0
            else Float (truediv total_age count), seed_state) ∧
    count = 5 ∧ 325 ≤ total_age.
Proof.
  assert (Hv : lifespans_valid seed_state) by by_compute.
  assert (Hc : calendar_ages seed_state = [54; 69; 68; 62; 72])
    by (vm_compute; reflexivity).
  split; [exact wf_seed|]. split; [exact Hv|]. split; [exact Hc|].
  pose proof (@calculate_average_age_calendar binary64 seed_state wf_seed Hv)
    as H.
  destruct H as (_ & t & n & Hrun & Hn & Ht).
  exists t, n. split; [exact Hrun|].
  split.
  - exact (eq_trans Hn (f_equal (λ l, Z.of_nat (length l)) Hc)).
  - exact (eq_rect _ (λ l, total l ≤ t) (proj2 Ht) _ Hc).
Defined.

(** * Back-links along a construction script *)


















